(** * go-advanced: the batched Pipe and the concatenating MultiReader

    A shallow embedding of the two kernels of the repository and the
    theorems that relate them to their specification.

    Definitions
    - Go errors   : the inductive type [error]; [fmt.Errorf] with [%w] is
      [Errorf_w], [errors.Is] is [errors_Is].
    - Go integers : [int] and [int64] are [Z]; arithmetic that can leave the
      64-bit range is written with [wrap64].
    - [BasePipe]  : the synchronous [Pipe] (buf-reader-writer/easy), as a
      loop over a world that holds the producer and the consumer, with the
      trace of the calls made.
    - [Mock]      : [mockProducer] and [mockConsumer] of the tests.
    - [Reader]    : the interface [SizedReadSeekCloser] of the sub-readers
      as a class, and the contract the MultiReader relies on.
    - [Sub]       : [mockStringsReader] over [strings.Reader], the
      sub-reader of the tests; [Piece]: a sub-reader with empty and short
      reads.
    - [MRA], [MRB]: the two seekable MultiReader variants over any
      sub-readers, with the prefetch goroutine as a sequence of atomic
      actions that a schedule interleaves with the caller.
    - [PipelinedPipe] : [Pipe] with its worker goroutine
      (buf-reader-writer/hard), as an interleaving of atomic actions.

    Theorems
    - [BasePipeFacts], [MultiReaderFacts], [ReaderFacts],
      [MultiReaderRead], [MultiReaderReadB], [ZeroLengthRead],
      [PipelinedPipeFacts], [Scenarios]. *)

From Stdlib Require Import ZArith Lia DecimalString.
From Stdlib.Strings Require Import Byte.
From stdpp Require Import list strings.

Set Default Proof Using "Type".
Open Scope Z_scope.

(** ** Go errors *)

(** An error value is either created by [errors.New] (a sentinel such as
    [io.EOF]) or by [fmt.Errorf] with one [%w] verb, which keeps the wrapped
    error reachable through [Unwrap].  An error created by [errors.New] is
    identified with its text: the sentinels and test errors used by the
    repository all have distinct texts. *)
Inductive error : Type :=
| errorString (s : string)
| wrapError (msg : string) (err : error).

#[global] Instance error_eq_dec : EqDecision error.
Proof. solve_decision. Defined.

(** [err.Error()] *)
Definition Error (e : error) : string :=
  match e with
  | errorString s => s
  | wrapError msg _ => msg
  end.

(** [fmt.Errorf(prefix + "%w", err)]: the message is the prefix followed by
    the text of [err]; [Unwrap] gives [err] back. *)
Definition Errorf_w (prefix : string) (err : error) : error :=
  wrapError (prefix +:+ Error err) err.

(** [errors.Is]: walk the [Unwrap] chain and compare with [==]. *)
Fixpoint errors_Is (err target : error) : bool :=
  if decide (err = target) then true
  else match err with
       | wrapError _ inner => errors_Is inner target
       | errorString _ => false
       end.

(** The verb [%d]. *)
Definition fmt_d (z : Z) : string := NilZero.string_of_int (Z.to_int z).

Definition io_EOF : error := errorString "EOF".
Definition io_ErrUnexpectedEOF : error := errorString "unexpected EOF".
Definition io_ErrClosedPipe : error := errorString "io: read/write on closed pipe".
Definition context_Canceled : error := errorString "context canceled".

(** ** 64-bit integers *)

Definition MaxInt64 : Z := 2 ^ 63 - 1.
Definition MinInt64 : Z := - 2 ^ 63.

(** The value an [int64] holds after an operation whose exact result is [z]. *)
Definition wrap64 (z : Z) : Z := (z + 2 ^ 63) mod 2 ^ 64 - 2 ^ 63.

Definition int64_range (z : Z) : Prop := MinInt64 <= z <= MaxInt64.

(** ** The Producer and Consumer interfaces *)

(** The producer and the consumer are objects with hidden mutable state.
    [W] is the state of both; every method is a transition of [W] that also
    gives the method's results.  A [nil] error is [None]. *)
Class Producer (Item W : Type) := {
  Next : W -> list Item * Z * option error * W;
  Commit : Z -> W -> option error * W
}.

Class Consumer (Item W : Type) := {
  Process : list Item -> W -> option error * W
}.

(** The calls [Pipe] makes, in the order it makes them, with what came back. *)
Inductive event (Item : Type) : Type :=
| EvNext (items : list Item) (cookie : Z) (err : option error)
| EvProcess (items : list Item) (err : option error)
| EvCommit (cookie : Z) (err : option error).
Arguments EvNext {Item} items cookie err.
Arguments EvProcess {Item} items err.
Arguments EvCommit {Item} cookie err.

Definition MaxItems : Z := 9999.

Module BasePipe.
Section Pipe.
Context {Item W : Type} `{!Producer Item W} `{!Consumer Item W}.

(** Where the loop of [Pipe] stands: it has returned [err], or it is at
    the head of the [for] with the locals [buf] and [cookies].  Both carry
    the state of the world and the calls made so far; [Returned] also
    keeps the locals as they were at the [return]. *)
Inductive outcome : Type :=
| Returned (err : error) (buf : list Item) (cookies : list Z) (w : W) (tr : list (event Item))
| Running (buf : list Item) (cookies : list Z) (w : W) (tr : list (event Item)).

(** [for _, ck := range cookies { err = p.Commit(ck); if err != nil { return ... } }]
    The result is the failing cookie and its error, if any. *)
Fixpoint commitLoop (cookies : list Z) (w : W) (tr : list (event Item))
  : option (Z * error) * W * list (event Item) :=
  match cookies with
  | [] => (None, w, tr)
  | ck :: rest =>
      let '(err, w') := Commit ck w in
      match err with
      | Some e => (Some (ck, e), w', tr ++ [EvCommit ck (Some e)])
      | None => commitLoop rest w' (tr ++ [EvCommit ck None])
      end
  end.

(** One iteration of the [for] of [Pipe]. *)
Definition Pipe_iter (buf : list Item) (cookies : list Z) (w : W) (tr : list (event Item))
  : outcome :=
  let '(items, cookie, err, w1) := Next w in
  let tr1 := tr ++ [EvNext items cookie err] in
  match err with
  | Some e => Returned (Errorf_w "read error: " e) buf cookies w1 tr1
  | None =>
      if Z.of_nat (length buf) + Z.of_nat (length items) <=? MaxItems then
        Running (buf ++ items) (cookies ++ [cookie]) w1 tr1
      else
        let '(perr, w2) := Process buf w1 in
        let tr2 := tr1 ++ [EvProcess buf perr] in
        match perr with
        | Some e => Returned (Errorf_w "push error: " e) buf cookies w2 tr2
        | None =>
            match commitLoop cookies w2 tr2 with
            | (Some (ck, e), w3, tr3) =>
                Returned (Errorf_w ("error commiting cookie " +:+ fmt_d ck +:+ ": ") e)
                         buf cookies w3 tr3
            | (None, w3, tr3) => Running items [cookie] w3 tr3
            end
        end
  end.

(** The [for] loop, cut after [fuel] iterations. *)
Fixpoint Pipe_loop (fuel : nat) (buf : list Item) (cookies : list Z) (w : W)
         (tr : list (event Item)) : outcome :=
  match fuel with
  | O => Running buf cookies w tr
  | S fuel' =>
      match Pipe_iter buf cookies w tr with
      | Returned err b c w' tr' => Returned err b c w' tr'
      | Running b c w' tr' => Pipe_loop fuel' b c w' tr'
      end
  end.

(** [func Pipe(p Producer, c Consumer) error] *)
Definition Pipe (fuel : nat) (w : W) : outcome := Pipe_loop fuel [] [] w [].

Definition trace_of (o : outcome) : list (event Item) :=
  match o with Returned _ _ _ _ tr | Running _ _ _ tr => tr end.
Definition buf_of (o : outcome) : list Item :=
  match o with Returned _ b _ _ _ | Running b _ _ _ => b end.
Definition cookies_of (o : outcome) : list Z :=
  match o with Returned _ _ c _ _ | Running _ c _ _ => c end.

(** *** Reading a trace *)

(** The batches that [Next] delivered without error. *)
Fixpoint batches (tr : list (event Item)) : list (list Item * Z) :=
  match tr with
  | [] => []
  | EvNext items ck None :: tr' => (items, ck) :: batches tr'
  | _ :: tr' => batches tr'
  end.

(** The items of every [Process] call, in order. *)
Fixpoint processed (tr : list (event Item)) : list Item :=
  match tr with
  | [] => []
  | EvProcess items _ :: tr' => items ++ processed tr'
  | _ :: tr' => processed tr'
  end.

(** The items of the [Process] calls that returned [nil]. *)
Fixpoint processed_ok (tr : list (event Item)) : list Item :=
  match tr with
  | [] => []
  | EvProcess items None :: tr' => items ++ processed_ok tr'
  | _ :: tr' => processed_ok tr'
  end.

(** The cookies of every [Commit] call, in order. *)
Fixpoint commits (tr : list (event Item)) : list Z :=
  match tr with
  | [] => []
  | EvCommit ck _ :: tr' => ck :: commits tr'
  | _ :: tr' => commits tr'
  end.

Definition items_of (bs : list (list Item * Z)) : list Item := concat (map fst bs).

(** A run of [Commit] calls that all return [nil]. *)
Fixpoint commits_succeed (cks : list Z) (w : W) : option W :=
  match cks with
  | [] => Some w
  | ck :: rest =>
      match Commit ck w with
      | (None, w') => commits_succeed rest w'
      | (Some _, _) => None
      end
  end.

(** The argument and the result of every [Process] call, in order. *)
Fixpoint process_calls (tr : list (event Item)) : list (list Item * option error) :=
  match tr with
  | [] => []
  | EvProcess items r :: tr' => (items, r) :: process_calls tr'
  | _ :: tr' => process_calls tr'
  end.

(** The groups in which the loop of [Pipe] coalesces the batches it is
    given, by its test [len(buf)+len(items) <= MaxItems]: a batch joins the
    pending group [cur] when its items still fit; a batch that does not fit
    closes the pending group, which goes to [Process], and starts the next
    one.  The result is the closed groups and the pending one. *)
Fixpoint coalesce (cur : list (list Item * Z)) (bs : list (list Item * Z))
  : list (list (list Item * Z)) * list (list Item * Z) :=
  match bs with
  | [] => ([], cur)
  | b :: bs' =>
      if Z.of_nat (length (items_of cur)) + Z.of_nat (length (fst b)) <=? MaxItems
      then coalesce (cur ++ [b]) bs'
      else let '(gs, pending) := coalesce [b] bs' in (cur :: gs, pending)
  end.

(** Commit gating.  When [Commit] is called with [ck] after [k] earlier
    [Commit] calls, the batch delivered [k]-th (from 0) carries [ck]; it is
    the [i]-th batch of the [j]-th closed group [g]; and the [j]-th
    [Process] call has been made before this [Commit], with the items of
    the whole group [g], and has returned [nil].  A batch without items is
    gated like any other: its group must have gone through [Process]. *)
Definition gated (tr : list (event Item)) : Prop :=
  forall pre ck r post,
    tr = pre ++ EvCommit ck r :: post ->
    let k := length (commits pre) in
    let gs := fst (coalesce [] (batches pre)) in
    exists items j g i,
      batches pre !! k = Some (items, ck) /\
      gs !! j = Some g /\
      k = (length (concat (take j gs)) + i)%nat /\
      g !! i = Some (items, ck) /\
      process_calls pre !! j = Some (items_of g, None).

(** The trace of a run of [Commit] calls that all return [nil]. *)
Definition ok_commits (cks : list Z) : list (event Item) :=
  map (fun ck => EvCommit ck None) cks.

(** Size bounds on the batches of [Next] and on the arguments of [Process]. *)
Definition next_bounded (ev : event Item) : Prop :=
  match ev with
  | EvNext items _ _ => Z.of_nat (length items) <= MaxItems
  | _ => True
  end.

Definition process_bounded (ev : event Item) : Prop :=
  match ev with
  | EvProcess items _ => Z.of_nat (length items) <= MaxItems
  | _ => True
  end.

(** At the head of the loop ([rest = []]) and inside the commit loop (where
    [rest] are the cookies still to commit): the delivered batches split
    into the committed ones [A], the processed ones whose commit is due [B],
    and the pending ones [C] that make up [buf] and [cookies].  [C] is the
    pending group, the closed groups [gs] are [A] and [B], each has had its
    [Process] call, and [B] is the end of the last of them. *)
Definition J (tr : list (event Item)) (rest : list Z) (buf : list Item) (cookies : list Z)
  : Prop :=
  exists A B C : list (list Item * Z),
    batches tr = A ++ B ++ C /\
    map snd A = commits tr /\
    items_of (A ++ B) = processed_ok tr /\
    processed tr = processed_ok tr /\
    map snd B = rest /\
    map snd C = cookies /\
    items_of C = buf /\
    gated tr /\
    exists gs : list (list (list Item * Z)),
      coalesce [] (batches tr) = (gs, C) /\
      concat gs = A ++ B /\
      process_calls tr = map (fun g => (items_of g, None)) gs /\
      (B = [] \/ exists gs0 g0, gs = gs0 ++ [g0 ++ B]).

#[global] Instance next_bounded_dec ev : Decision (next_bounded ev).
Proof. destruct ev; simpl; apply _. Defined.

#[global] Instance process_bounded_dec ev : Decision (process_bounded ev).
Proof. destruct ev; simpl; apply _. Defined.

End Pipe.
End BasePipe.

(** ** The mock producer and consumer of the tests

    [mockProducer] and [mockConsumer] of buf-reader-writer/easy; items
    are the integers that [makeItems] builds. *)
Module Mock.

Record mockProducer : Type := MockProducer {
  batches : list (list Z);
  cookies : list Z;
  readErr : option error;
  callIndex : Z;
  commitErrForCookie : Z;
  commitErr : option error;
  commitAttempts : list Z;
  committed : list Z
}.

Record mockConsumer : Type := MockConsumer {
  processed : list (list Z);
  procErr : option error
}.

(** [func (m *mockProducer) Next()].  The tests give one cookie per batch,
    so [m.cookies[m.callIndex]] is in range whenever the batch is. *)
Definition mockProducer_Next (m : mockProducer) : list Z * Z * option error * mockProducer :=
  if callIndex m <? Z.of_nat (length (batches m)) then
    (default [] (batches m !! Z.to_nat (callIndex m)),
     default 0 (cookies m !! Z.to_nat (callIndex m)),
     None,
     MockProducer (batches m) (cookies m) (readErr m) (callIndex m + 1)
                  (commitErrForCookie m) (commitErr m) (commitAttempts m) (committed m))
  else ([], 0, readErr m, m).

(** [func (m *mockProducer) Commit(cookie int) error] *)
Definition mockProducer_Commit (cookie : Z) (m : mockProducer) : option error * mockProducer :=
  let attempts := commitAttempts m ++ [cookie] in
  match commitErr m with
  | Some e =>
      if decide (cookie = commitErrForCookie m) then
        (Some e, MockProducer (batches m) (cookies m) (readErr m) (callIndex m)
                              (commitErrForCookie m) (commitErr m) attempts (committed m))
      else
        (None, MockProducer (batches m) (cookies m) (readErr m) (callIndex m)
                            (commitErrForCookie m) (commitErr m) attempts (committed m ++ [cookie]))
  | None =>
      (None, MockProducer (batches m) (cookies m) (readErr m) (callIndex m)
                          (commitErrForCookie m) (commitErr m) attempts (committed m ++ [cookie]))
  end.

(** [func (m *mockConsumer) Process(items []any) error] *)
Definition mockConsumer_Process (items : list Z) (m : mockConsumer) : option error * mockConsumer :=
  (procErr m, MockConsumer (processed m ++ [items]) (procErr m)).

(** [func makeItems(start, count int) []any] *)
Fixpoint makeItems_from (start : Z) (count : nat) : list Z :=
  match count with
  | O => []
  | S count' => start :: makeItems_from (start + 1) count'
  end.

Definition makeItems (start count : Z) : list Z := makeItems_from start (Z.to_nat count).

#[global] Instance mockProducer_eq_dec : EqDecision mockProducer.
Proof. solve_decision. Defined.

#[global] Instance mockConsumer_eq_dec : EqDecision mockConsumer.
Proof. solve_decision. Defined.

Definition World : Type := mockProducer * mockConsumer.

#[global] Instance mock_Producer : Producer Z World := {
  Next w :=
    let '(items, ck, err, p') := mockProducer_Next (fst w) in (items, ck, err, (p', snd w));
  Commit ck w :=
    let '(err, p') := mockProducer_Commit ck (fst w) in (err, (p', snd w))
}.

#[global] Instance mock_Consumer : Consumer Z World := {
  Process items w :=
    let '(err, c') := mockConsumer_Process items (snd w) in (err, (fst w, c'))
}.

(** A producer with the given batches and cookies and a consumer, both
    as the tests set them up. *)
Definition world (bs : list (list Z)) (cks : list Z) (rerr : option error)
    (cfail : Z) (cerr perr : option error) : World :=
  (MockProducer bs cks rerr 0 cfail cerr [] [], MockConsumer [] perr).

End Mock.

(** The bytes of a Go string. *)
Definition bytes (str : string) : list byte := String.list_byte_of_string str.

(** Bytes [[a, a+n)] of [l]. *)
Definition slice (a : Z) (n : nat) (l : list byte) : list byte := take n (drop (Z.to_nat a) l).

Definition io_SeekStart : Z := 0.
Definition io_SeekCurrent : Z := 1.
Definition io_SeekEnd : Z := 2.

(** ** Sub-readers

    [type SizedReadSeekCloser interface { io.ReadSeekCloser; Size() int64 }].
    A sub-reader is an object with hidden mutable state [R]; every method
    is a transition of that state that also gives the method's results.  A
    destination buffer is given by its length; the bytes written to it are
    returned, and [n] is their number. *)
Module Reader.

Class SizedReadSeekCloser (R : Type) := {
  Read : Z -> R -> list byte * option error * R;
  Seek : Z -> Z -> R -> Z * option error * R;
  Close : R -> option error * R;
  Size : R -> Z
}.

(** What a sub-reader stands for: the bytes it reads, the offset of the
    next byte, the number of times it may still answer a [Read] with
    [(0, nil)], and the states it can be in. *)
Class Abstraction (R : Type) := {
  content : R -> list byte;
  offset : R -> Z;
  idle : R -> nat;
  valid : R -> Prop
}.

(** What the MultiReader relies on in a sub-reader.  [Size] is the length
    of the content.  [Seek(off, io.SeekStart)] to an offset within the
    content succeeds and moves there.  [Read] into a buffer that is not
    empty follows [io.Reader]: it returns at most [len(p)] of the bytes at
    the offset, possibly fewer than asked for and possibly none; the error
    is [nil], or [io.EOF], alone or together with the last bytes of the
    content.  A [Read] that returns [(0, nil)] uses up one of the [idle]
    answers the reader has left, so that it does not go on for ever.
    Nothing is assumed of [Close], nor of the offset after a [Read]. *)
Record Contract (R : Type) `{!SizedReadSeekCloser R} `{!Abstraction R} : Prop := {
  Size_content r : valid r -> Size r = Z.of_nat (length (content r));
  Seek_start r off :
    valid r -> 0 <= off <= Z.of_nat (length (content r)) ->
    exists n r', Seek off io_SeekStart r = (n, None, r') /\
                 valid r' /\ content r' = content r /\ offset r' = off /\
                 (idle r' <= idle r)%nat;
  Read_next r lenp :
    valid r -> 0 < lenp -> 0 <= offset r <= Z.of_nat (length (content r)) ->
    exists data err r',
      Read lenp r = (data, err, r') /\
      valid r' /\ content r' = content r /\
      Z.of_nat (length data) <= lenp /\
      offset r + Z.of_nat (length data) <= Z.of_nat (length (content r)) /\
      data = slice (offset r) (length data) (content r) /\
      (idle r' <= idle r)%nat /\
      (err = None /\ (data <> [] \/ (idle r' < idle r)%nat) \/
       err = Some io_EOF /\
       offset r + Z.of_nat (length data) = Z.of_nat (length (content r)))
}.

End Reader.

(** *** The sub-readers of the tests

    [mockStringsReader]: a [strings.Reader] over a fixed content together
    with the size, the [closed] flag and the error [Close] has to return.
    [Read] and [Seek] are those of [strings.Reader]. *)
Module Sub.

Record mockStringsReader : Type := MockStringsReader {
  s : list byte;          (* the content of the strings.Reader *)
  i : Z;                  (* its reading index *)
  size : Z;
  closed : bool;
  closeErr : option error
}.

(** [func newMockStringsReader(s string) *mockStringsReader] *)
Definition newMockStringsReader (str : list byte) : mockStringsReader :=
  MockStringsReader str 0 (Z.of_nat (length str)) false None.

(** [r.closeErr = err], as the tests do after construction. *)
Definition with_closeErr (err : error) (r : mockStringsReader) : mockStringsReader :=
  MockStringsReader (s r) (i r) (size r) (closed r) (Some err).

(** [func (c *mockStringsReader) Read(p []byte) (int, error)], which is
    [strings.Reader.Read]: end-of-stream once the index has reached the
    end, else as many bytes as fit. *)
Definition Read (lenp : Z) (r : mockStringsReader) : list byte * option error * mockStringsReader :=
  if i r >=? Z.of_nat (length (s r)) then ([], Some io_EOF, r)
  else
    let data := take (Z.to_nat lenp) (drop (Z.to_nat (i r)) (s r)) in
    (data, None,
     MockStringsReader (s r) (wrap64 (i r + Z.of_nat (length data))) (size r) (closed r) (closeErr r)).

(** [strings.Reader.Seek] *)
Definition Seek (offset whence : Z) (r : mockStringsReader) : Z * option error * mockStringsReader :=
  let target :=
    if whence =? 0 then Some offset
    else if whence =? 1 then Some (wrap64 (i r + offset))
    else if whence =? 2 then Some (wrap64 (Z.of_nat (length (s r)) + offset))
    else None in
  match target with
  | None => (0, Some (errorString "strings.Reader.Seek: invalid whence"), r)
  | Some abs =>
      if abs <? 0 then (0, Some (errorString "strings.Reader.Seek: negative position"), r)
      else (abs, None, MockStringsReader (s r) abs (size r) (closed r) (closeErr r))
  end.

(** [func (c *mockStringsReader) Close() error] *)
Definition Close (r : mockStringsReader) : option error * mockStringsReader :=
  (closeErr r, MockStringsReader (s r) (i r) (size r) true (closeErr r)).

(** [func (c *mockStringsReader) Size() int64] *)
Definition Size (r : mockStringsReader) : Z := size r.

#[global] Instance mockStringsReader_reader : Reader.SizedReadSeekCloser mockStringsReader := {
  Reader.Read := Read;
  Reader.Seek := Seek;
  Reader.Close := Close;
  Reader.Size := Size
}.

(** A [mockStringsReader] stands for its string; it is as
    [newMockStringsReader] leaves it when its size is the length of the
    string. *)
#[global] Instance mockStringsReader_abstraction : Reader.Abstraction mockStringsReader := {
  Reader.content := s;
  Reader.offset := i;
  Reader.idle _ := 0%nat;
  Reader.valid r := size r = Z.of_nat (length (s r))
}.

End Sub.

(** *** A sub-reader that reads in pieces

    The interface admits readers that [strings.Reader] does not show: a
    [Read] may return fewer bytes than the buffer holds, may return
    [(0, nil)], and may return [io.EOF] together with the last bytes.
    [pieceReader] does all three: it answers its first [naps] calls with
    [(0, nil)], then hands out at most [piece] bytes per call, and reports
    end-of-stream with the call that reaches the end.  It is used to run
    [prefetchLoop] through its handling of empty and short reads and of
    [io.EOF] with data. *)
Module Piece.

Record pieceReader : Type := PieceReader {
  s : list byte;
  i : Z;
  piece : Z;
  naps : nat;
  closed : bool
}.

Definition newPieceReader (piece : Z) (naps : nat) (str : list byte) : pieceReader :=
  PieceReader str 0 piece naps false.

Definition Read (lenp : Z) (r : pieceReader) : list byte * option error * pieceReader :=
  match naps r with
  | S k => ([], None, PieceReader (s r) (i r) (piece r) k (closed r))
  | O =>
      let data := take (Z.to_nat (Z.min lenp (piece r))) (drop (Z.to_nat (i r)) (s r)) in
      let i' := i r + Z.of_nat (length data) in
      (data, if i' >=? Z.of_nat (length (s r)) then Some io_EOF else None,
       PieceReader (s r) i' (piece r) O (closed r))
  end.

Definition Seek (offset whence : Z) (r : pieceReader) : Z * option error * pieceReader :=
  if (whence =? io_SeekStart) && (0 <=? offset) then
    (offset, None, PieceReader (s r) offset (piece r) (naps r) (closed r))
  else (0, Some (errorString "pieceReader.Seek: not supported"), r).

Definition Close (r : pieceReader) : option error * pieceReader :=
  (None, PieceReader (s r) (i r) (piece r) (naps r) true).

Definition Size (r : pieceReader) : Z := Z.of_nat (length (s r)).

#[global] Instance pieceReader_reader : Reader.SizedReadSeekCloser pieceReader := {
  Reader.Read := Read;
  Reader.Seek := Seek;
  Reader.Close := Close;
  Reader.Size := Size
}.

#[global] Instance pieceReader_abstraction : Reader.Abstraction pieceReader := {
  Reader.content := s;
  Reader.offset := i;
  Reader.idle := naps;
  Reader.valid r := 1 <= piece r
}.

End Piece.

(** ** Pieces shared by the two MultiReader variants *)

(** [l[i]] for a slice of [int64]; the callers keep [i] in range. *)
Definition at64 (l : list Z) (i : Z) : Z := default 0 (l !! Z.to_nat i).

(** The loop of [sort.Search]: [for i < j { h := int(uint(i+j) >> 1); ... }]. *)
Fixpoint Search_loop (fuel : nat) (i j : Z) (f : Z -> bool) : Z :=
  match fuel with
  | O => i
  | S fuel' =>
      if i <? j then
        let h := (i + j) / 2 in
        if negb (f h) then Search_loop fuel' (h + 1) j f else Search_loop fuel' i h f
      else i
  end.

(** [sort.Search(n, f)].  The distance [j - i] shrinks in every iteration,
    so [n] iterations are enough. *)
Definition sort_Search (n : Z) (f : Z -> bool) : Z := Search_loop (Z.to_nat n) 0 n f.

(** The prefix sums that [NewMultiReader] computes:
    [prefixSizes[i] = prefixSizes[i-1] + readers[i-1].Size()]. *)
Fixpoint prefix_from {R} `{!Reader.SizedReadSeekCloser R} (acc : Z) (rs : list R) : list Z :=
  match rs with
  | [] => []
  | r :: rs' => let acc' := wrap64 (acc + Reader.Size r) in acc' :: prefix_from acc' rs'
  end.

Definition prefix_sums {R} `{!Reader.SizedReadSeekCloser R} (rs : list R) : list Z :=
  0 :: prefix_from 0 rs.

(** The loop of [Close] over the sub-readers:
    [for _, r := range m.readers { err := r.Close(); if err != nil { return ... } }]. *)
Fixpoint closeReaders {R} `{!Reader.SizedReadSeekCloser R} (rs : list R)
  : option error * list R :=
  match rs with
  | [] => (None, [])
  | r :: rest =>
      let '(err, r') := Reader.Close r in
      match err with
      | Some e => (Some (Errorf_w "r.Close: " e), r' :: rest)
      | None => let '(err', rest') := closeReaders rest in (err', r' :: rest')
      end
  end.

(** *** The prefetch goroutine

    The goroutine is modelled by its atomic actions.  At [PfHead] it is at
    the head of its [for]; one action takes it through the choice of the
    sub-reader, the [Seek] and the [Read].  At [PfSend] it holds the block
    [buf[:n]] and the error of the [Read] in the [select]; the send is one
    more action, possible when the channel has room or a receiver waits.
    [PfExited] is the goroutine after its deferred [close] of both
    channels; [PfPanicked] is a run-time panic (an index out of range or a
    negative length for [make]). *)
Inductive pfLoop : Type :=
| PfHead (curPos curReaderIdx : Z)
| PfSend (block : list byte) (rerr : option error) (curPos curReaderIdx : Z)
| PfExited
| PfPanicked.

(** The channels and the goroutine of one prefetch: the blocks published
    and not yet received, the one-slot error channel, the goroutine. *)
Record prefetch : Type := Prefetch {
  pfBufCh : list (list byte);
  pfErrCh : option error;
  pfG : pfLoop
}.

(** [sendErr]: a send that is dropped when the slot is taken. *)
Definition sendErr (errCh : option error) (err : error) : option error :=
  match errCh with
  | Some e => Some e
  | None => Some err
  end.

(** The logical concatenation of the contents of sub-readers. *)
Definition contents {R} `{!Reader.Abstraction R} (rs : list R) : list byte :=
  concat (map Reader.content rs).

(** What stays of the sub-readers while the goroutine seeks and reads:
    contents and sizes. *)
Definition shape {R} `{!Reader.SizedReadSeekCloser R} `{!Reader.Abstraction R} (rs : list R)
  : list (list byte * Z) :=
  map (fun r => (Reader.content r, Reader.Size r)) rs.

(** The [(0, nil)] answers the sub-readers have left, all together. *)
Definition idles {R} `{!Reader.Abstraction R} (rs : list R) : nat :=
  sum_list (map Reader.idle rs).

(** The position at which the [k]-th sub-reader starts. *)
Definition off {R} `{!Reader.Abstraction R} (rs : list R) (k : nat) : Z :=
  Z.of_nat (length (contents (take k rs))).


(** ** The MultiReader with a separate cursor ([absPos], [pfStarted])

    The first of the two seekable variants in the repository.  The mutex,
    the wait group and the cancel function have no state of their own here:
    [pf] is [None] exactly when the channel fields are [nil]. *)
Module MRA.

Record MultiReader (R : Type) : Type := MkMultiReader {
  readers : list R;
  totalSize : Z;
  prefixSizes : list Z;
  absPos : Z;
  windowBuf : list byte;
  windowStart : Z;
  bufferSize : Z;
  buffersNum : Z;
  pf : option prefetch;
  pfStarted : bool;
  closed : bool
}.
Arguments MkMultiReader {R}.
Arguments readers {R}.
Arguments totalSize {R}.
Arguments prefixSizes {R}.
Arguments absPos {R}.
Arguments windowBuf {R}.
Arguments windowStart {R}.
Arguments bufferSize {R}.
Arguments buffersNum {R}.
Arguments pf {R}.
Arguments pfStarted {R}.
Arguments closed {R}.

(** The result of [buf, okPf := <-m.pfBufCh] followed, when the channel is
    closed, by the receive from [pfErrCh]. *)
Inductive recvResult (R : Type) : Type :=
| RecvBlock (buf : list byte) (m : MultiReader R)
| RecvClosed (err : option error) (m : MultiReader R)
| RecvPanic
| RecvBlocked.
Arguments RecvBlock {R}.
Arguments RecvClosed {R}.
Arguments RecvPanic {R}.
Arguments RecvBlocked {R}.

Inductive readResult (R : Type) : Type :=
| ReadRet (n : Z) (err : option error) (p : list byte) (m : MultiReader R)
| ReadPanic
| ReadBlocked.
Arguments ReadRet {R}.
Arguments ReadPanic {R}.
Arguments ReadBlocked {R}.

Section MultiReader.
Context {R : Type} `{!Reader.SizedReadSeekCloser R} `{!Reader.Abstraction R}.

Definition set_readers (rs : list R) (m : MultiReader R) : MultiReader R :=
  MkMultiReader rs (totalSize m) (prefixSizes m) (absPos m) (windowBuf m) (windowStart m)
                (bufferSize m) (buffersNum m) (pf m) (pfStarted m) (closed m).

Definition set_pf (o : option prefetch) (started : bool) (m : MultiReader R) : MultiReader R :=
  MkMultiReader (readers m) (totalSize m) (prefixSizes m) (absPos m) (windowBuf m) (windowStart m)
                (bufferSize m) (buffersNum m) o started (closed m).

Definition set_window (w : list byte) (start pos : Z) (m : MultiReader R) : MultiReader R :=
  MkMultiReader (readers m) (totalSize m) (prefixSizes m) pos w start
                (bufferSize m) (buffersNum m) (pf m) (pfStarted m) (closed m).

Definition set_closed (m : MultiReader R) : MultiReader R :=
  MkMultiReader (readers m) (totalSize m) (prefixSizes m) (absPos m) (windowBuf m) (windowStart m)
                (bufferSize m) (buffersNum m) (pf m) (pfStarted m) true.

(** [func NewMultiReader(buffersSize int64, buffersNum int, readers ...SizedReadSeekCloser)] *)
Definition NewMultiReader (buffersSize buffersNum : Z) (rs : list R) : MultiReader R :=
  let prefixSizes := prefix_sums rs in
  MkMultiReader rs (at64 prefixSizes (Z.of_nat (length rs))) prefixSizes 0 [] 0
                buffersSize buffersNum None false false.

(** [func (m *MultiReader) Size() int64] *)
Definition Size (m : MultiReader R) : Z := totalSize m.

(** *** [prefetchLoop] *)

(** The end of an iteration, after the [select]:
    [switch { case err == io.EOF: nextReader(); case err != nil: sendErr(...); return }]. *)
Definition pfAfter (m : MultiReader R) (errCh : option error) (rerr : option error)
    (curPos curReaderIdx : Z) : pfLoop * option error :=
  match rerr with
  | Some e =>
      if decide (e = io_EOF) then (PfHead (at64 (prefixSizes m) (curReaderIdx + 1)) (-1), errCh)
      else (PfExited, sendErr errCh e)
  | None => (PfHead curPos curReaderIdx, errCh)
  end.

(** From the head of the [for] to the [select] (or to the next head, or out). *)
Definition pfHeadStep (m : MultiReader R) (errCh : option error) (curPos curReaderIdx : Z)
  : pfLoop * option error * list R :=
  if curPos >=? totalSize m then (PfExited, sendErr errCh io_EOF, readers m)
  else
    let P := prefixSizes m in
    let idx :=
      if (curReaderIdx <? 0)
         || negb ((at64 P curReaderIdx <=? curPos) && (curPos <? at64 P (curReaderIdx + 1)))
      then sort_Search (Z.of_nat (length (readers m))) (fun i => at64 P (i + 1) >? curPos)
      else curReaderIdx in
    match readers m !! Z.to_nat idx with
    | None => (PfPanicked, errCh, readers m)
    | Some reader =>
        let localOffset := wrap64 (curPos - at64 P idx) in
        let '(_, err, reader1) := Reader.Seek localOffset io_SeekStart reader in
        let readers1 := <[Z.to_nat idx := reader1]> (readers m) in
        match err with
        | Some e => (PfExited, sendErr errCh e, readers1)
        | None =>
            let remainInReader := wrap64 (at64 P (idx + 1) - curPos) in
            if remainInReader =? 0 then (PfHead (at64 P (idx + 1)) (-1), errCh, readers1)
            else
              let toRead := Z.min remainInReader (bufferSize m) in
              if toRead <? 0 then (PfPanicked, errCh, readers1)
              else
                let '(data, rerr, reader2) := Reader.Read toRead reader1 in
                let readers2 := <[Z.to_nat idx := reader2]> (readers m) in
                if (0 <? length data)%nat then (PfSend data rerr curPos idx, errCh, readers2)
                else let '(g, errCh') := pfAfter m errCh rerr curPos idx in (g, errCh', readers2)
        end
    end.

(** The send of the [select] has gone through: [curPos += int64(n)], then
    the end of the iteration. *)
Definition pfSent (m : MultiReader R) (errCh : option error) (block : list byte)
    (rerr : option error) (curPos curReaderIdx : Z) : pfLoop * option error :=
  pfAfter m errCh rerr (wrap64 (curPos + Z.of_nat (length block))) curReaderIdx.

(** One action of the goroutine, if it can take one.  A send into a full
    channel waits. *)
Definition pfStep (m : MultiReader R) : MultiReader R :=
  match pf m with
  | None => m
  | Some p =>
      match pfG p with
      | PfHead curPos idx =>
          let '(g, errCh, rs) := pfHeadStep m (pfErrCh p) curPos idx in
          set_readers rs (set_pf (Some (Prefetch (pfBufCh p) errCh g)) (pfStarted m) m)
      | PfSend block rerr curPos idx =>
          if Z.of_nat (length (pfBufCh p)) <? buffersNum m then
            let '(g, errCh) := pfSent m (pfErrCh p) block rerr curPos idx in
            set_pf (Some (Prefetch (pfBufCh p ++ [block]) errCh g)) (pfStarted m) m
          else m
      | PfExited | PfPanicked => m
      end
  end.

(** [k] actions of the goroutine while the caller does something else. *)
Fixpoint pfRun (k : nat) (m : MultiReader R) : MultiReader R :=
  match k with
  | O => m
  | S k' => pfRun k' (pfStep m)
  end.

(** The receive.  With nothing buffered the caller waits while the
    goroutine runs: until it sends (the block goes to the waiting
    receiver), or exits.  Every exit path of the goroutine calls [sendErr]
    before the channels are closed, so the [default] branch of the
    [select] on [pfErrCh] is never taken; a closed channel whose error has
    been received before gives the zero value, [nil]. *)
Fixpoint recv (fuel : nat) (m : MultiReader R) : recvResult R :=
  match pf m with
  | None => RecvBlocked
  | Some p =>
      match pfBufCh p with
      | b :: q => RecvBlock b (set_pf (Some (Prefetch q (pfErrCh p) (pfG p))) (pfStarted m) m)
      | [] =>
          match pfG p with
          | PfExited => RecvClosed (pfErrCh p) (set_pf (Some (Prefetch [] None PfExited)) (pfStarted m) m)
          | PfPanicked => RecvPanic
          | PfSend block rerr curPos idx =>
              let '(g, errCh) := pfSent m (pfErrCh p) block rerr curPos idx in
              RecvBlock block (set_pf (Some (Prefetch [] errCh g)) (pfStarted m) m)
          | PfHead _ _ =>
              match fuel with
              | O => RecvBlocked
              | S fuel' => recv fuel' (pfStep m)
              end
          end
      end
  end.

(** *** [Read] *)

(** [func (m *MultiReader) startPrefetchLocked(startPos int64)] *)
Definition startPrefetchLocked (startPos : Z) (m : MultiReader R) : MultiReader R :=
  if pfStarted m then m
  else set_pf (Some (Prefetch [] None (PfHead startPos (-1)))) true m.

(** The loop [for n < len(p)] of [Read].  [p] is the destination with what
    has been copied into it so far.  Before each iteration the goroutine
    takes as many actions as the schedule [sched] says. *)
Fixpoint Read_loop (fuel : nat) (sched : list nat) (m : MultiReader R) (p : list byte) (n : nat)
  : readResult R :=
  if (n <? length p)%nat then
    match fuel with
    | O => ReadBlocked
    | S fuel' =>
        let m := pfRun (hd O sched) m in
        match windowBuf m with
        | _ :: _ =>
            let toCopy := Nat.min (length p - n)%nat (length (windowBuf m)) in
            let p' := take n p ++ take toCopy (windowBuf m) ++ drop (n + toCopy)%nat p in
            let m' := set_window (drop toCopy (windowBuf m))
                                 (wrap64 (windowStart m + Z.of_nat toCopy))
                                 (wrap64 (absPos m + Z.of_nat toCopy)) m in
            if (n + toCopy =? length p)%nat then ReadRet (Z.of_nat (n + toCopy)) None p' m'
            else Read_loop fuel' (tl sched) m' p' (n + toCopy)%nat
        | [] =>
            match recv fuel' m with
            | RecvBlock buf m' =>
                Read_loop fuel' (tl sched)
                          (set_window (windowBuf m' ++ buf) (windowStart m') (absPos m') m') p n
            | RecvClosed err m' => ReadRet (Z.of_nat n) err p m'
            | RecvPanic => ReadPanic
            | RecvBlocked => ReadBlocked
            end
        end
    end
  else ReadRet (Z.of_nat n) None p m.

(** [func (m *MultiReader) Read(p []byte) (n int, err error)] *)
Definition Read (fuel : nat) (sched : list nat) (p : list byte) (m : MultiReader R)
  : readResult R :=
  if closed m then ReadRet 0 (Some io_ErrClosedPipe) p m
  else if absPos m =? totalSize m then ReadRet 0 (Some io_EOF) p m
  else if negb (pfStarted m) && (buffersNum m <? 0) then ReadPanic
  else Read_loop fuel sched (startPrefetchLocked (absPos m) m) p 0.

(** *** [Seek] *)

(** [func (m *MultiReader) resetPrefetchLocked()].  Between the cancel and
    the end of the wait the goroutine takes [ahead] more actions; what it
    leaves in the channels is dropped with them. *)
Definition resetPrefetchLocked (ahead : nat) (m : MultiReader R) : MultiReader R :=
  set_pf None false (pfRun ahead m).

(** [func (m *MultiReader) Seek(offset int64, whence int) (int64, error)] *)
Definition Seek (ahead : nat) (offset whence : Z) (m : MultiReader R)
  : Z * option error * MultiReader R :=
  if closed m then (0, Some io_ErrClosedPipe, m)
  else
    let target :=
      if whence =? io_SeekStart then Some offset
      else if whence =? io_SeekCurrent then Some (wrap64 (offset + absPos m))
      else if whence =? io_SeekEnd then Some (wrap64 (offset + totalSize m))
      else None in
    match target with
    | None => (0, Some (errorString ("invalid whence: " +:+ fmt_d whence)), m)
    | Some seekPos =>
        if (seekPos <? 0) || (seekPos >? totalSize m) then
          (0, Some (errorString ("seek position (" +:+ fmt_d seekPos
                                 +:+ ") should be >= 0 and <= totalSize ("
                                 +:+ fmt_d (totalSize m) +:+ ")")), m)
        else
          let delta := wrap64 (seekPos - windowStart m) in
          let m1 :=
            if (0 <=? delta) && (delta <? Z.of_nat (length (windowBuf m))) then
              set_window (drop (Z.to_nat delta) (windowBuf m)) (windowStart m) (absPos m) m
            else
              let m0 := set_window [] (windowStart m) (absPos m) m in
              if pfStarted m0 then resetPrefetchLocked ahead m0 else m0 in
          (seekPos, None, set_window (windowBuf m1) seekPos seekPos m1)
    end.

(** *** [Close] *)

(** The goroutine after [pfCancel()] and [pfWg.Wait()]: it has taken
    [ahead] more actions and, if it had not exited by itself, has left
    through the [ctx.Done()] branch of its [select]. *)
Definition cancelled (p : prefetch) : prefetch :=
  match pfG p with
  | PfHead _ _ | PfSend _ _ _ _ => Prefetch (pfBufCh p) (sendErr (pfErrCh p) context_Canceled) PfExited
  | PfExited | PfPanicked => p
  end.

(** [func (m *MultiReader) Close() error] *)
Definition Close (ahead : nat) (m : MultiReader R) : option error * MultiReader R :=
  if closed m then (None, m)
  else
    let m1 := pfRun ahead (set_closed m) in
    let m2 := set_pf (cancelled <$> pf m1) (pfStarted m1) m1 in
    let '(err, rs) := closeReaders (readers m2) in
    (err, set_readers rs m2).

(** *** The state a caller can find the reader in *)

(** The logical concatenation of the sub-readers' contents. *)
Definition content (m : MultiReader R) : list byte := contents (readers m).

(** The target of a seek as the specification gives it, in unbounded
    integers. *)
Definition posix_target (offset whence cursor total : Z) : option Z :=
  if whence =? io_SeekStart then Some offset
  else if whence =? io_SeekCurrent then Some (cursor + offset)
  else if whence =? io_SeekEnd then Some (total + offset)
  else None.

(** A reader as [NewMultiReader] builds it from sub-readers in a valid
    state: prefix sums and total agree with the contents, blocks have at
    least one byte, the channel capacity is not negative, and the total
    fits an [int64]. *)
Record WF (m : MultiReader R) : Prop := {
  wf_valid : Forall Reader.valid (readers m);
  wf_prefix : prefixSizes m = prefix_sums (readers m);
  wf_total : totalSize m = Z.of_nat (length (content m));
  wf_max : totalSize m <= MaxInt64;
  wf_bufferSize : 1 <= bufferSize m;
  wf_buffersNum : 0 <= buffersNum m
}.

(** What the channels and the goroutine hold, when [from] is the position
    of the first byte that is not yet in the window: the buffered blocks are
    the bytes from [from] on, the goroutine stands where they end, and a
    block it holds in its [select] is the bytes that follow; if the [Read]
    that gave the block also gave [io.EOF], the block ends where the
    sub-reader ends. *)
Definition pf_ok (m : MultiReader R) (from : Z) (p : prefetch) : Prop :=
  let q := concat (pfBufCh p) in
  Forall (fun b => b <> []) (pfBufCh p) /\
  q = slice from (length q) (content m) /\
  from + Z.of_nat (length q) <= totalSize m /\
  match pfG p with
  | PfHead curPos idx =>
      curPos = from + Z.of_nat (length q) /\ -1 <= idx < Z.of_nat (length (readers m))
  | PfSend block rerr curPos idx =>
      curPos = from + Z.of_nat (length q) /\
      block <> [] /\
      block = slice curPos (length block) (content m) /\
      curPos + Z.of_nat (length block) <= totalSize m /\
      (rerr = None \/
       rerr = Some io_EOF /\
       at64 (prefixSizes m) (idx + 1) = curPos + Z.of_nat (length block)) /\
      0 <= idx < Z.of_nat (length (readers m))
  | PfExited => from + Z.of_nat (length q) = totalSize m
  | PfPanicked => False
  end.

(** The invariant of an open reader between two calls: the cursor is the
    start of the window, the window holds the bytes of the concatenation
    from there, and the prefetch pipeline continues where the window ends. *)
Record Inv (m : MultiReader R) : Prop := {
  inv_open : closed m = false;
  inv_cursor : absPos m = windowStart m;
  inv_start : 0 <= windowStart m;
  inv_bound : windowStart m + Z.of_nat (length (windowBuf m)) <= totalSize m;
  inv_window : windowBuf m = slice (windowStart m) (length (windowBuf m)) (content m);
  inv_started : pfStarted m = true <-> is_Some (pf m);
  inv_idle : pf m = None -> windowBuf m = [];
  inv_pf : forall p, pf m = Some p ->
                     pf_ok m (windowStart m + Z.of_nat (length (windowBuf m))) p
}.

(** What an action of the goroutine leaves as it was. *)
Definition frame (m m' : MultiReader R) : Prop :=
  windowBuf m' = windowBuf m /\
  windowStart m' = windowStart m /\
  absPos m' = absPos m /\
  totalSize m' = totalSize m /\
  content m' = content m /\
  closed m' = closed m /\
  pfStarted m' = pfStarted m /\
  (is_Some (pf m) <-> is_Some (pf m')) /\
  (idles (readers m') <= idles (readers m))%nat.

(** What a receive that delivers [buf] leaves, once [buf] is in the window. *)
Definition received (m : MultiReader R) (buf : list byte) (m' : MultiReader R) : Prop :=
  let m'' := set_window (windowBuf m' ++ buf) (windowStart m') (absPos m') m' in
  buf <> [] /\ WF m'' /\ Inv m'' /\
  windowBuf m'' = buf /\
  windowStart m'' = windowStart m /\
  totalSize m'' = totalSize m /\
  content m'' = content m /\
  is_Some (pf m'') /\
  (idles (readers m'') <= idles (readers m))%nat.

End MultiReader.
End MRA.

(** ** The MultiReader whose cursor is [windowStart]

    The second seekable variant: no [absPos], [totalSize] or [pfStarted]
    field; the prefetch is running when [pfBufCh] is not [nil]. *)
Module MRB.

Record MultiReader (R : Type) : Type := MkMultiReader {
  readers : list R;
  prefixSizes : list Z;
  bufferSize : Z;
  buffersNum : Z;
  windowBuf : list byte;
  windowStart : Z;
  pf : option prefetch;
  closed : bool
}.
Arguments MkMultiReader {R}.
Arguments readers {R}.
Arguments prefixSizes {R}.
Arguments bufferSize {R}.
Arguments buffersNum {R}.
Arguments windowBuf {R}.
Arguments windowStart {R}.
Arguments pf {R}.
Arguments closed {R}.

Inductive recvResult (R : Type) : Type :=
| RecvBlock (buf : list byte) (m : MultiReader R)
| RecvClosed (err : option error) (m : MultiReader R)
| RecvPanic
| RecvBlocked.
Arguments RecvBlock {R}.
Arguments RecvClosed {R}.
Arguments RecvPanic {R}.
Arguments RecvBlocked {R}.

Inductive readResult (R : Type) : Type :=
| ReadRet (n : Z) (err : option error) (p : list byte) (m : MultiReader R)
| ReadPanic
| ReadBlocked.
Arguments ReadRet {R}.
Arguments ReadPanic {R}.
Arguments ReadBlocked {R}.

Section MultiReader.
Context {R : Type} `{!Reader.SizedReadSeekCloser R} `{!Reader.Abstraction R}.

Definition set_readers (rs : list R) (m : MultiReader R) : MultiReader R :=
  MkMultiReader rs (prefixSizes m) (bufferSize m) (buffersNum m) (windowBuf m) (windowStart m)
                (pf m) (closed m).

Definition set_pf (o : option prefetch) (m : MultiReader R) : MultiReader R :=
  MkMultiReader (readers m) (prefixSizes m) (bufferSize m) (buffersNum m) (windowBuf m)
                (windowStart m) o (closed m).

Definition set_window (w : list byte) (start : Z) (m : MultiReader R) : MultiReader R :=
  MkMultiReader (readers m) (prefixSizes m) (bufferSize m) (buffersNum m) w start
                (pf m) (closed m).

Definition set_closed (m : MultiReader R) : MultiReader R :=
  MkMultiReader (readers m) (prefixSizes m) (bufferSize m) (buffersNum m) (windowBuf m)
                (windowStart m) (pf m) true.

(** [func NewMultiReader(buffersSize int64, buffersNum int, readers ...SizedReadSeekCloser)] *)
Definition NewMultiReader (buffersSize buffersNum : Z) (rs : list R) : MultiReader R :=
  MkMultiReader rs (prefix_sums rs) buffersSize buffersNum [] 0 None false.

(** [func (m *MultiReader) Size() int64] *)
Definition Size (m : MultiReader R) : Z :=
  at64 (prefixSizes m) (Z.of_nat (length (readers m))).

(** *** [prefetchLoop]

    [curReaderIdx] is local to an iteration here; at [PfHead] it is unused. *)

(** [switch { case err == io.EOF: curPos = m.prefixSizes[curReaderIdx+1];
    case err != nil: m.sendErr(err); return }] *)
Definition pfAfter (m : MultiReader R) (errCh : option error) (rerr : option error)
    (curPos curReaderIdx : Z) : pfLoop * option error :=
  match rerr with
  | Some e =>
      if decide (e = io_EOF) then (PfHead (at64 (prefixSizes m) (curReaderIdx + 1)) (-1), errCh)
      else (PfExited, sendErr errCh e)
  | None => (PfHead curPos (-1), errCh)
  end.

Definition pfHeadStep (m : MultiReader R) (errCh : option error) (curPos : Z)
  : pfLoop * option error * list R :=
  if negb (curPos <? Size m) then (PfExited, sendErr errCh io_EOF, readers m)
  else
    let P := prefixSizes m in
    let idx := sort_Search (Z.of_nat (length (readers m))) (fun i => at64 P (i + 1) >? curPos) in
    match readers m !! Z.to_nat idx with
    | None => (PfPanicked, errCh, readers m)
    | Some reader =>
        let '(_, err, reader1) := Reader.Seek (wrap64 (curPos - at64 P idx)) io_SeekStart reader in
        let readers1 := <[Z.to_nat idx := reader1]> (readers m) in
        match err with
        | Some e => (PfExited, sendErr errCh e, readers1)
        | None =>
            let remainInReader := wrap64 (at64 P (idx + 1) - curPos) in
            if remainInReader =? 0 then (PfHead (at64 P (idx + 1)) (-1), errCh, readers1)
            else
              let toRead := Z.min remainInReader (bufferSize m) in
              if toRead <? 0 then (PfPanicked, errCh, readers1)
              else
                let '(data, rerr, reader2) := Reader.Read toRead reader1 in
                let readers2 := <[Z.to_nat idx := reader2]> (readers m) in
                if (0 <? length data)%nat then (PfSend data rerr curPos idx, errCh, readers2)
                else let '(g, errCh') := pfAfter m errCh rerr curPos idx in (g, errCh', readers2)
        end
    end.

Definition pfSent (m : MultiReader R) (errCh : option error) (block : list byte)
    (rerr : option error) (curPos curReaderIdx : Z) : pfLoop * option error :=
  pfAfter m errCh rerr (wrap64 (curPos + Z.of_nat (length block))) curReaderIdx.

Definition pfStep (m : MultiReader R) : MultiReader R :=
  match pf m with
  | None => m
  | Some p =>
      match pfG p with
      | PfHead curPos _ =>
          let '(g, errCh, rs) := pfHeadStep m (pfErrCh p) curPos in
          set_readers rs (set_pf (Some (Prefetch (pfBufCh p) errCh g)) m)
      | PfSend block rerr curPos idx =>
          if Z.of_nat (length (pfBufCh p)) <? buffersNum m then
            let '(g, errCh) := pfSent m (pfErrCh p) block rerr curPos idx in
            set_pf (Some (Prefetch (pfBufCh p ++ [block]) errCh g)) m
          else m
      | PfExited | PfPanicked => m
      end
  end.

Fixpoint pfRun (k : nat) (m : MultiReader R) : MultiReader R :=
  match k with
  | O => m
  | S k' => pfRun k' (pfStep m)
  end.

Fixpoint recv (fuel : nat) (m : MultiReader R) : recvResult R :=
  match pf m with
  | None => RecvBlocked
  | Some p =>
      match pfBufCh p with
      | b :: q => RecvBlock b (set_pf (Some (Prefetch q (pfErrCh p) (pfG p))) m)
      | [] =>
          match pfG p with
          | PfExited => RecvClosed (pfErrCh p) (set_pf (Some (Prefetch [] None PfExited)) m)
          | PfPanicked => RecvPanic
          | PfSend block rerr curPos idx =>
              let '(g, errCh) := pfSent m (pfErrCh p) block rerr curPos idx in
              RecvBlock block (set_pf (Some (Prefetch [] errCh g)) m)
          | PfHead _ _ =>
              match fuel with
              | O => RecvBlocked
              | S fuel' => recv fuel' (pfStep m)
              end
          end
      end
  end.

(** *** [Read] *)

(** The first half of an iteration of the [for] of [Read]: the copy out of
    a window that is not empty.  The last component tells that [p] is full
    ([return n, nil]). *)
Definition Read_copy (m : MultiReader R) (p : list byte) (n : nat)
  : MultiReader R * list byte * nat * bool :=
  match windowBuf m with
  | _ :: _ =>
      let toCopy := Nat.min (length p - n)%nat (length (windowBuf m)) in
      let p' := take n p ++ take toCopy (windowBuf m) ++ drop (n + toCopy)%nat p in
      let m' := set_window (drop toCopy (windowBuf m))
                           (wrap64 (windowStart m + Z.of_nat toCopy)) m in
      (m', p', (n + toCopy)%nat, (n + toCopy =? length p)%nat)
  | [] => (m, p, n, false)
  end.

(** The loop [for { ... }] of [Read]. *)
Fixpoint Read_loop (fuel : nat) (sched : list nat) (m : MultiReader R) (p : list byte) (n : nat)
  : readResult R :=
  let '(m1, p1, n1, full) := Read_copy (pfRun (hd O sched) m) p n in
  if full then ReadRet (Z.of_nat n1) None p1 m1
  else
    match fuel with
    | O => ReadBlocked
    | S fuel' =>
        match recv fuel' m1 with
        | RecvBlock buf m' =>
            Read_loop fuel' (tl sched) (set_window (windowBuf m' ++ buf) (windowStart m') m') p1 n1
        | RecvClosed err m' => ReadRet (Z.of_nat n1) err p1 m'
        | RecvPanic => ReadPanic
        | RecvBlocked => ReadBlocked
        end
    end.

(** [func (m *MultiReader) Read(p []byte) (n int, err error)] *)
Definition Read (fuel : nat) (sched : list nat) (p : list byte) (m : MultiReader R)
  : readResult R :=
  if closed m then ReadRet 0 (Some io_ErrClosedPipe) p m
  else if windowStart m =? Size m then ReadRet 0 (Some io_EOF) p m
  else
    match pf m with
    | None =>
        if buffersNum m <? 0 then ReadPanic
        else Read_loop fuel sched
                       (set_pf (Some (Prefetch [] None (PfHead (windowStart m) (-1)))) m) p 0
    | Some _ => Read_loop fuel sched m p 0
    end.

(** *** [Seek] *)

(** [func (m *MultiReader) Seek(offset int64, whence int) (int64, error)] *)
Definition Seek (ahead : nat) (offset whence : Z) (m : MultiReader R)
  : Z * option error * MultiReader R :=
  if closed m then (0, Some io_ErrClosedPipe, m)
  else
    let target :=
      if whence =? io_SeekStart then Some offset
      else if whence =? io_SeekCurrent then Some (wrap64 (offset + windowStart m))
      else if whence =? io_SeekEnd then Some (wrap64 (offset + Size m))
      else None in
    match target with
    | None => (0, Some (errorString ("invalid whence: " +:+ fmt_d whence)), m)
    | Some seekPos =>
        if (seekPos <? 0) || (seekPos >? Size m) then
          (0, Some (errorString ("seek position (" +:+ fmt_d seekPos
                                 +:+ ") should be >= 0 and <= total size ("
                                 +:+ fmt_d (Size m) +:+ ")")), m)
        else
          let delta := wrap64 (seekPos - windowStart m) in
          let m1 :=
            if (0 <=? delta) && (delta <? Z.of_nat (length (windowBuf m))) then
              set_window (drop (Z.to_nat delta) (windowBuf m)) (windowStart m) m
            else
              set_pf None (pfRun ahead (set_window [] (windowStart m) m)) in
          (seekPos, None, set_window (windowBuf m1) seekPos m1)
    end.

(** *** [Close] *)

Definition cancelled (p : prefetch) : prefetch :=
  match pfG p with
  | PfHead _ _ | PfSend _ _ _ _ => Prefetch (pfBufCh p) (sendErr (pfErrCh p) context_Canceled) PfExited
  | PfExited | PfPanicked => p
  end.

(** [func (m *MultiReader) Close() error] *)
Definition Close (ahead : nat) (m : MultiReader R) : option error * MultiReader R :=
  if closed m then (None, m)
  else
    let m1 := pfRun ahead (set_closed m) in
    let m2 := set_pf (cancelled <$> pf m1) m1 in
    let '(err, rs) := closeReaders (readers m2) in
    (err, set_readers rs m2).

(** *** The state a caller can find the reader in *)

(** The logical concatenation of the sub-readers' contents. *)
Definition content (m : MultiReader R) : list byte := contents (readers m).

(** A reader as [NewMultiReader] builds it from sub-readers in a valid
    state. *)
Record WF (m : MultiReader R) : Prop := {
  wf_valid : Forall Reader.valid (readers m);
  wf_prefix : prefixSizes m = prefix_sums (readers m);
  wf_max : Z.of_nat (length (content m)) <= MaxInt64;
  wf_bufferSize : 1 <= bufferSize m;
  wf_buffersNum : 0 <= buffersNum m
}.

(** What the channels and the goroutine hold, when [from] is the position
    of the first byte that is not yet in the window. *)
Definition pf_ok (m : MultiReader R) (from : Z) (p : prefetch) : Prop :=
  let q := concat (pfBufCh p) in
  Forall (fun b => b <> []) (pfBufCh p) /\
  q = slice from (length q) (content m) /\
  from + Z.of_nat (length q) <= Size m /\
  match pfG p with
  | PfHead curPos _ => curPos = from + Z.of_nat (length q)
  | PfSend block rerr curPos idx =>
      curPos = from + Z.of_nat (length q) /\
      block <> [] /\
      block = slice curPos (length block) (content m) /\
      curPos + Z.of_nat (length block) <= Size m /\
      (rerr = None \/
       rerr = Some io_EOF /\
       at64 (prefixSizes m) (idx + 1) = curPos + Z.of_nat (length block))
  | PfExited => from + Z.of_nat (length q) = Size m
  | PfPanicked => False
  end.

(** The invariant of an open reader between two calls: the window holds
    the bytes of the concatenation from the cursor on, and the prefetch
    pipeline continues where the window ends. *)
Record Inv (m : MultiReader R) : Prop := {
  inv_open : closed m = false;
  inv_start : 0 <= windowStart m;
  inv_bound : windowStart m + Z.of_nat (length (windowBuf m)) <= Size m;
  inv_window : windowBuf m = slice (windowStart m) (length (windowBuf m)) (content m);
  inv_idle : pf m = None -> windowBuf m = [];
  inv_pf : forall p, pf m = Some p ->
                     pf_ok m (windowStart m + Z.of_nat (length (windowBuf m))) p
}.

(** What an action of the goroutine leaves as it was. *)
Definition frame (m m' : MultiReader R) : Prop :=
  windowBuf m' = windowBuf m /\
  windowStart m' = windowStart m /\
  Size m' = Size m /\
  content m' = content m /\
  closed m' = closed m /\
  (is_Some (pf m) <-> is_Some (pf m')) /\
  (idles (readers m') <= idles (readers m))%nat.

(** What a receive that delivers [buf] leaves, once [buf] is in the window. *)
Definition received (m : MultiReader R) (buf : list byte) (m' : MultiReader R) : Prop :=
  let m'' := set_window (windowBuf m' ++ buf) (windowStart m') m' in
  buf <> [] /\ WF m'' /\ Inv m'' /\
  windowBuf m'' = buf /\
  windowStart m'' = windowStart m /\
  Size m'' = Size m /\
  content m'' = content m /\
  is_Some (pf m'') /\
  (idles (readers m'') <= idles (readers m))%nat.

End MultiReader.
End MRB.

(** ** The pipelined Pipe

    [Pipe] and [startWorker] of buf-reader-writer/hard: the coordinator
    and one worker goroutine, modelled by their atomic actions (a method
    call of the producer or consumer, a channel operation, a [select]) and
    run under a schedule that says who moves next.  [doneCh] is closed
    exactly when the worker is [WExited]. *)
Module PipelinedPipe.
Section Pipe.
Context {Item W : Type} `{!Producer Item W} `{!Consumer Item W}.

(** [type batch struct { items []any; cookies []int }] *)
Record batch : Type := Batch {
  items : list Item;
  cookies : list Z
}.

(** Where the coordinator stands, with its locals [buf] and [cookies]. *)
Inductive coord : Type :=
| CPoll (buf : list Item) (cks : list Z)        (* the select on errCh at the head of the for *)
| CNext (buf : list Item) (cks : list Z)        (* about to call p.Next() *)
| CFlush (buf : list Item) (cks : list Z) (its : list Item) (cookie : Z)
                                                (* in flush() after an overflow *)
| CFlushEOF (buf : list Item) (cks : list Z)    (* in flush() after io.EOF *)
| CClose                                        (* about to close(batchCh) *)
| CWait                                         (* the select on errCh and doneCh *)
| CWaitDone (e : error)                         (* <-doneCh after an error was received *)
| CReturned (err : error).

(** Where the worker stands. *)
Inductive worker : Type :=
| WSelect                                       (* the select on ctx.Done() and batchCh *)
| WProcess (b : batch)                          (* about to call c.Process(b.items) *)
| WCommit (cks : list Z)                        (* in the loop over b.cookies *)
| WExited.

Record state : Type := State {
  world : W;
  co : coord;
  wk : worker;
  batchCh : list batch;       (* capacity 1 *)
  batchClosed : bool;
  errCh : option error;       (* capacity 1 *)
  cancelled : bool            (* ctx.Done() is closed *)
}.

Definition init (w : W) : state := State w (CPoll [] []) WSelect [] false None false.

(** The branch a [select] with two cases takes: the ready one, and one
    of the two, as [pick] says, when both are ready. *)
Definition select2 (pick ready1 ready2 : bool) : option bool :=
  match ready1, ready2 with
  | true, true => Some pick
  | true, false => Some true
  | false, true => Some false
  | false, false => None
  end.

(** [flush()] with a buffer that is not empty:
    [select { case <-ctx.Done(): return context.Canceled; case batchCh <- batch{...}: }].
    The result is the state after the send, or after the [cancel(); return]
    of the caller. *)
Definition flushSend (pick : bool) (buf : list Item) (cks : list Z) (next : coord) (st : state)
  : option state :=
  match select2 pick (cancelled st) (length (batchCh st) <? 1)%nat with
  | Some true =>
      Some (State (world st) (CReturned context_Canceled) (wk st) (batchCh st)
                  (batchClosed st) (errCh st) true)
  | Some false =>
      Some (State (world st) next (wk st) (batchCh st ++ [Batch buf cks])
                  (batchClosed st) (errCh st) (cancelled st))
  | None => None
  end.

(** One action of the coordinator. *)
Definition coStep (pick : bool) (st : state) : option state :=
  match co st with
  | CPoll buf cks =>
      match errCh st with
      | Some e => Some (State (world st) (CReturned e) (wk st) (batchCh st) (batchClosed st) None true)
      | None => Some (State (world st) (CNext buf cks) (wk st) (batchCh st) (batchClosed st)
                            None (cancelled st))
      end
  | CNext buf cks =>
      let '(its, cookie, err, w') := Next (world st) in
      match err with
      | Some e =>
          if decide (e = io_EOF) then
            Some (State w' (CFlushEOF buf cks) (wk st) (batchCh st) (batchClosed st)
                        (errCh st) (cancelled st))
          else
            Some (State w' (CReturned (Errorf_w "read error: " e)) (wk st) (batchCh st)
                        (batchClosed st) (errCh st) true)
      | None =>
          if Z.of_nat (length buf) + Z.of_nat (length its) <=? MaxItems then
            Some (State w' (CPoll (buf ++ its) (cks ++ [cookie])) (wk st) (batchCh st)
                        (batchClosed st) (errCh st) (cancelled st))
          else
            Some (State w' (CFlush buf cks its cookie) (wk st) (batchCh st)
                        (batchClosed st) (errCh st) (cancelled st))
      end
  | CFlush buf cks its cookie =>
      match buf with
      | [] => Some (State (world st) (CPoll its [cookie]) (wk st) (batchCh st)
                          (batchClosed st) (errCh st) (cancelled st))
      | _ :: _ => flushSend pick buf cks (CPoll its [cookie]) st
      end
  | CFlushEOF buf cks =>
      match buf with
      | [] => Some (State (world st) CClose (wk st) (batchCh st)
                          (batchClosed st) (errCh st) (cancelled st))
      | _ :: _ => flushSend pick buf cks CClose st
      end
  | CClose =>
      Some (State (world st) CWait (wk st) (batchCh st) true (errCh st) (cancelled st))
  | CWait =>
      match select2 pick (bool_decide (is_Some (errCh st)))
                    (if wk st is WExited then true else false) with
      | Some true =>
          match errCh st with
          | Some e => Some (State (world st) (CWaitDone e) (wk st) (batchCh st)
                                  (batchClosed st) None true)
          | None => None
          end
      | Some false =>
          match errCh st with
          | Some e => Some (State (world st) (CReturned e) (wk st) (batchCh st)
                                  (batchClosed st) None true)
          | None => Some (State (world st) (CReturned io_EOF) (wk st) (batchCh st)
                                (batchClosed st) None true)
          end
      | None => None
      end
  | CWaitDone e =>
      if wk st is WExited then
        Some (State (world st) (CReturned e) (wk st) (batchCh st) (batchClosed st)
                    (errCh st) true)
      else None
  | CReturned _ => None
  end.

(** The worker after a commit loop over [cks]: at the next cookie, or
    back at its [select]. *)
Definition afterCommit (cks : list Z) : worker :=
  match cks with
  | [] => WSelect
  | _ :: _ => WCommit cks
  end.

(** One action of the worker. *)
Definition wkStep (pick : bool) (st : state) : option state :=
  match wk st with
  | WSelect =>
      match select2 pick (cancelled st)
                    (match batchCh st with [] => batchClosed st | _ :: _ => true end) with
      | Some true =>
          Some (State (world st) (co st) WExited (batchCh st) (batchClosed st)
                      (errCh st) (cancelled st))
      | Some false =>
          match batchCh st with
          | [] => Some (State (world st) (co st) WExited [] (batchClosed st)
                              (errCh st) (cancelled st))
          | b :: q =>
              Some (State (world st) (co st)
                          (match items b with [] => WSelect | _ :: _ => WProcess b end)
                          q (batchClosed st) (errCh st) (cancelled st))
          end
      | None => None
      end
  | WProcess b =>
      let '(err, w') := Process (items b) (world st) in
      match err with
      | Some e =>
          Some (State w' (co st) WExited (batchCh st) (batchClosed st)
                      (sendErr (errCh st) (Errorf_w "push error: " e)) (cancelled st))
      | None =>
          Some (State w' (co st) (afterCommit (cookies b)) (batchCh st) (batchClosed st)
                      (errCh st) (cancelled st))
      end
  | WCommit [] =>
      Some (State (world st) (co st) WSelect (batchCh st) (batchClosed st)
                  (errCh st) (cancelled st))
  | WCommit (ck :: rest) =>
      let '(err, w') := Commit ck (world st) in
      match err with
      | Some e =>
          Some (State w' (co st) WExited (batchCh st) (batchClosed st)
                      (sendErr (errCh st)
                               (Errorf_w ("error commiting cookie " +:+ fmt_d ck +:+ ": ") e))
                      (cancelled st))
      | None =>
          Some (State w' (co st) (afterCommit rest) (batchCh st) (batchClosed st)
                      (errCh st) (cancelled st))
      end
  | WExited => None
  end.

Inductive actor : Type := Coordinator | Worker.

Definition step (a : actor) (pick : bool) (st : state) : option state :=
  match a with
  | Coordinator => coStep pick st
  | Worker => wkStep pick st
  end.

(** A run under a schedule; [None] when the schedule asks for an action
    that is not possible. *)
Fixpoint run (sched : list (actor * bool)) (st : state) : option state :=
  match sched with
  | [] => Some st
  | (a, pick) :: sched' =>
      match step a pick st with
      | Some st' => run sched' st'
      | None => None
      end
  end.

(** Nobody can move. *)
Definition stuck (st : state) : bool :=
  forallb (fun '(a, pick) => if step a pick st is None then true else false)
          [(Coordinator, true); (Coordinator, false); (Worker, true); (Worker, false)].

(** The error [Pipe] has returned, if it has. *)
Definition returned (st : state) : option error :=
  match co st with
  | CReturned e => Some e
  | _ => None
  end.

End Pipe.

Arguments batch : clear implicits.
Arguments coord : clear implicits.
Arguments worker : clear implicits.
Arguments state : clear implicits.

#[global] Instance batch_eq_dec {Item} `{!EqDecision Item} : EqDecision (batch Item).
Proof. solve_decision. Defined.

#[global] Instance coord_eq_dec {Item} `{!EqDecision Item} : EqDecision (coord Item).
Proof. solve_decision. Defined.

#[global] Instance worker_eq_dec {Item} `{!EqDecision Item} : EqDecision (worker Item).
Proof. solve_decision. Defined.

#[global] Instance state_eq_dec {Item W} `{!EqDecision Item, !EqDecision W} :
  EqDecision (state Item W).
Proof. solve_decision. Defined.

End PipelinedPipe.

(** ** Reading the results of the test scenarios *)
Module Scenario.

(** What a run of the base [Pipe] left in the mocks: the error returned,
    the sizes of the batches given to [Process], the cookies [Commit] was
    called with and those it accepted. *)
Definition summary (o : BasePipe.outcome (Item := Z) (W := Mock.World))
  : option error * list Z * list Z * list Z :=
  match o with
  | BasePipe.Returned e _ _ (p, c) _ =>
      (Some e, map (fun b => Z.of_nat (length b)) (Mock.processed c), Mock.commitAttempts p, Mock.committed p)
  | BasePipe.Running _ _ (p, c) _ =>
      (None, map (fun b => Z.of_nat (length b)) (Mock.processed c), Mock.commitAttempts p, Mock.committed p)
  end.

(** What a [Read] gave back: count, error and the bytes written. *)
Definition read_summary {R} (r : MRA.readResult R) : option (Z * option error * list byte) :=
  match r with
  | MRA.ReadRet n err p _ => Some (n, err, take (Z.to_nat n) p)
  | _ => None
  end.

Definition abc_def : MRA.MultiReader Sub.mockStringsReader :=
  MRA.NewMultiReader 1048576 4
    [Sub.newMockStringsReader (bytes "abc"); Sub.newMockStringsReader (bytes "def")].

End Scenario.

(** ** Reading single calls of a trace *)
Module Calls.
Section Calls.
Context {Item : Type}.

(** The error a call returned, [None] for [nil]. *)
Definition failure (ev : event Item) : option error :=
  match ev with
  | EvNext _ _ err | EvProcess _ err | EvCommit _ err => err
  end.

(** What [Pipe] returns after a failed call: the error of the call behind
    the prefix of its kind. *)
Definition report (ev : event Item) : option error :=
  match ev with
  | EvNext _ _ (Some e) => Some (Errorf_w "read error: " e)
  | EvProcess _ (Some e) => Some (Errorf_w "push error: " e)
  | EvCommit ck (Some e) => Some (Errorf_w ("error commiting cookie " +:+ fmt_d ck +:+ ": ") e)
  | _ => None
  end.

(** Every call of the trace returned [nil]. *)
Definition all_ok (tr : list (event Item)) : Prop := Forall (fun ev => failure ev = None) tr.

(** The items given to [Process] and the cookies given to [Commit] are the
    first ones that [Next] delivered, in the order of their arrival. *)
Definition in_order (tr : list (event Item)) : Prop :=
  BasePipe.processed tr `prefix_of` BasePipe.items_of (BasePipe.batches tr) /\
  BasePipe.commits tr `prefix_of` map snd (BasePipe.batches tr).

Definition is_process (ev : event Item) : bool :=
  match ev with EvProcess _ _ => true | _ => false end.

(** Every [Process] call of the trace follows a [Next] whose batch did not
    fit: the call is given the items delivered before that batch and not
    yet processed, and with the batch they are more than [MaxItems]. *)
Definition on_overflow (tr : list (event Item)) : Prop :=
  forall pre buf r post,
    tr = pre ++ EvProcess buf r :: post ->
    exists pre' items ck,
      pre = pre' ++ [EvNext items ck None] /\
      MaxItems < Z.of_nat (length buf) + Z.of_nat (length items) /\
      BasePipe.processed pre' ++ buf = BasePipe.items_of (BasePipe.batches pre').

End Calls.

#[global] Instance event_eq_dec {Item} `{!EqDecision Item} : EqDecision (event Item).
Proof. solve_decision. Defined.

End Calls.

(** ** What the mock producer has left *)
Module MockRun.

(** The number of batches the mock producer has not delivered yet. *)
Definition remaining (w : Mock.World) : nat :=
  Z.to_nat (Z.of_nat (length (Mock.batches (fst w))) - Mock.callIndex (fst w)).

(** The mock producer ends its stream with an error ([readErr] is not [nil]). *)
Definition ends (w : Mock.World) : Prop := is_Some (Mock.readErr (fst w)).

End MockRun.

(** * Theorems *)

(** ** Errors and integers *)

Lemma errors_Is_refl e : errors_Is e e = true.
Proof. destruct e; simpl; by rewrite decide_True. Qed.

Lemma errors_Is_Errorf_w prefix e : errors_Is (Errorf_w prefix e) e = true.
Proof.
  unfold Errorf_w. simpl. case_decide; [done|]. apply errors_Is_refl.
Qed.

Lemma wrap64_small z : int64_range z -> wrap64 z = z.
Proof.
  unfold int64_range, MinInt64, MaxInt64, wrap64. intros Hz.
  rewrite Z.mod_small; lia.
Qed.

Lemma wrap64_range z : int64_range (wrap64 z).
Proof.
  unfold int64_range, MinInt64, MaxInt64, wrap64.
  pose proof (Z.mod_pos_bound (z + 2 ^ 63) (2 ^ 64)). lia.
Qed.

Lemma length_makeItems start count :
  0 <= count -> Z.of_nat (length (Mock.makeItems start count)) = count.
Proof.
  intros Hc. unfold Mock.makeItems.
  assert (Hlen : forall n a, length (Mock.makeItems_from a n) = n).
  { induction n as [|n IH]; intros a; simpl; [done|]. by rewrite IH. }
  rewrite Hlen. lia.
Qed.

(** ** The base Pipe *)

Module BasePipeFacts.
Import BasePipe.

Section Facts.
Context {Item W : Type} `{!Producer Item W} `{!Consumer Item W}.
Implicit Types (buf items : list Item) (cookies cks : list Z) (w : W)
  (tr : list (event Item)).

(** *** The loop *)

Lemma Pipe_loop_Returned n m buf cookies w tr e b c w' tr' :
  Pipe_loop n buf cookies w tr = Returned e b c w' tr' ->
  Pipe_loop (n + m) buf cookies w tr = Returned e b c w' tr'.
Proof.
  revert buf cookies w tr. induction n as [|n IH]; intros buf cookies w tr; simpl.
  - discriminate.
  - destruct (Pipe_iter buf cookies w tr); [done|]. apply IH.
Qed.

Lemma Pipe_loop_Running n m buf cookies w tr b c w' tr' :
  Pipe_loop n buf cookies w tr = Running b c w' tr' ->
  Pipe_loop (n + m) buf cookies w tr = Pipe_loop m b c w' tr'.
Proof.
  revert buf cookies w tr. induction n as [|n IH]; intros buf cookies w tr; simpl.
  - by intros [= -> -> -> ->].
  - destruct (Pipe_iter buf cookies w tr); [done|]. apply IH.
Qed.

(** *** The commit loop *)

Lemma commitLoop_ok cks w w' tr :
  commits_succeed cks w = Some w' ->
  commitLoop cks w tr = (None, w', tr ++ ok_commits cks).
Proof.
  revert w tr. induction cks as [|ck cks IH]; intros w tr; simpl.
  - intros [= ->]. by rewrite app_nil_r.
  - destruct (Commit ck w) as [[e|] w1]; [done|]. intros Hs.
    rewrite (IH _ _ Hs). by rewrite <- app_assoc.
Qed.

Lemma commitLoop_fail pre ck post w w1 w2 e tr :
  commits_succeed pre w = Some w1 ->
  Commit ck w1 = (Some e, w2) ->
  commitLoop (pre ++ ck :: post) w tr
  = (Some (ck, e), w2, tr ++ ok_commits pre ++ [EvCommit ck (Some e)]).
Proof.
  revert w tr. induction pre as [|c pre IH]; intros w tr; simpl.
  - intros [= ->] ->. done.
  - destruct (Commit c w) as [[e'|] w']; [done|]. intros Hs Hc.
    rewrite (IH _ _ Hs Hc). by rewrite <- app_assoc.
Qed.

Lemma commitLoop_inv cks w tr r w' tr' :
  commitLoop cks w tr = (r, w', tr') ->
  match r with
  | None => commits_succeed cks w = Some w' /\ tr' = tr ++ ok_commits cks
  | Some (ck, e) =>
      exists pre post w1,
        cks = pre ++ ck :: post /\ commits_succeed pre w = Some w1 /\
        Commit ck w1 = (Some e, w') /\
        tr' = tr ++ ok_commits pre ++ [EvCommit ck (Some e)]
  end.
Proof.
  revert w tr. induction cks as [|c cks IH]; intros w tr; simpl.
  - intros [= <- <- <-]. by rewrite app_nil_r.
  - destruct (Commit c w) as [[e|] w1] eqn:Hc.
    + intros [= <- <- <-]. by exists [], cks, w.
    + intros Hl. specialize (IH _ _ Hl). destruct r as [[ck e]|].
      * destruct IH as (pre & post & w2 & -> & Hs & Hf & ->).
        exists (c :: pre), post, w2. simpl. rewrite Hc.
        repeat split; try done. by rewrite <- app_assoc.
      * destruct IH as [Hs ->]. split; [done|]. by rewrite <- app_assoc.
Qed.

(** *** Reading a trace piecewise *)

Lemma batches_app tr1 tr2 : batches (tr1 ++ tr2) = batches tr1 ++ batches tr2.
Proof.
  induction tr1 as [|[its ck [e|]|its e|ck e] tr1 IH]; simpl; by rewrite ?IH.
Qed.

Lemma processed_app tr1 tr2 : processed (tr1 ++ tr2) = processed tr1 ++ processed tr2.
Proof.
  induction tr1 as [|[its ck e|its e|ck e] tr1 IH]; simpl; rewrite ?IH; try done.
  by rewrite app_assoc.
Qed.

Lemma processed_ok_app tr1 tr2 :
  processed_ok (tr1 ++ tr2) = processed_ok tr1 ++ processed_ok tr2.
Proof.
  induction tr1 as [|[its ck e|its [e|]|ck e] tr1 IH]; simpl; rewrite ?IH; try done.
  by rewrite app_assoc.
Qed.

Lemma commits_app tr1 tr2 : commits (tr1 ++ tr2) = commits tr1 ++ commits tr2.
Proof.
  induction tr1 as [|[its ck e|its e|ck e] tr1 IH]; simpl; by rewrite ?IH.
Qed.

Lemma batches_ok_commits cks : batches (ok_commits cks : list (event Item)) = [].
Proof. by induction cks. Qed.

Lemma processed_ok_commits cks : processed (ok_commits cks : list (event Item)) = [].
Proof. by induction cks. Qed.

Lemma processed_ok_ok_commits cks : processed_ok (ok_commits cks : list (event Item)) = [].
Proof. by induction cks. Qed.

Lemma commits_ok_commits cks : commits (ok_commits cks : list (event Item)) = cks.
Proof. induction cks; simpl; by f_equal. Qed.

Lemma items_of_app (A B : list (list Item * Z)) : items_of (A ++ B) = items_of A ++ items_of B.
Proof. unfold items_of. by rewrite map_app, concat_app. Qed.

(** *** Coalescing *)

Lemma process_calls_app tr1 tr2 :
  process_calls (tr1 ++ tr2) = process_calls tr1 ++ process_calls tr2.
Proof.
  induction tr1 as [|[its ck e|its e|ck e] tr1 IH]; simpl; by rewrite ?IH.
Qed.

Lemma process_calls_ok_commits cks : process_calls (ok_commits cks : list (event Item)) = [].
Proof. by induction cks. Qed.

(** One more batch joins the pending group or closes it. *)
Lemma coalesce_snoc (cur bs : list (list Item * Z)) b :
  coalesce cur (bs ++ [b]) =
  let '(gs, p) := coalesce cur bs in
  if Z.of_nat (length (items_of p)) + Z.of_nat (length (fst b)) <=? MaxItems
  then (gs, p ++ [b]) else (gs ++ [p], [b]).
Proof.
  revert cur. induction bs as [|b0 bs IH]; intros cur; simpl.
  - by destruct (_ <=? _).
  - destruct (Z.of_nat (length (items_of cur)) + Z.of_nat (length (fst b0)) <=? MaxItems).
    + apply IH.
    + rewrite IH. destruct (coalesce [b0] bs) as [gs p]. by destruct (_ <=? _).
Qed.

(** The groups are a partition of the batches, in order. *)
Lemma coalesce_concat (cur bs : list (list Item * Z)) gs p :
  coalesce cur bs = (gs, p) -> concat gs ++ p = cur ++ bs.
Proof.
  revert cur gs p. induction bs as [|b bs IH]; intros cur gs p; simpl.
  - intros [= <- <-]. by rewrite app_nil_r.
  - destruct (_ <=? _).
    + intros Hc. rewrite (IH _ _ _ Hc). by rewrite <- app_assoc.
    + destruct (coalesce [b] bs) as [gs' p'] eqn:Hc. intros [= <- <-]. simpl.
      by rewrite <- app_assoc, (IH _ _ _ Hc).
Qed.

(** *** Commit gating as an invariant *)

Lemma gated_nil : gated (@nil (event Item)).
Proof. intros pre ck r post Heq. by destruct pre. Qed.

Lemma gated_snoc_commit tr ck r items gs0 g0 B C :
  gated tr ->
  batches tr !! length (commits tr) = Some (items, ck) ->
  coalesce [] (batches tr) = (gs0 ++ [g0 ++ (items, ck) :: B], C) ->
  length (commits tr) = (length (concat gs0) + length g0)%nat ->
  process_calls tr !! length gs0 = Some (items_of (g0 ++ (items, ck) :: B), None) ->
  gated (tr ++ [EvCommit ck r]).
Proof.
  intros Hg Hb Hco Hk Hp pre ck' r' post Heq.
  induction post as [|x post _] using rev_ind.
  - apply app_inj_tail in Heq as [-> [= -> ->]]. simpl. rewrite Hco. simpl.
    exists items, (length gs0), (g0 ++ (items, ck') :: B), (length g0).
    split_and!; try done.
    + by apply list_lookup_middle.
    + by rewrite take_app_length.
    + by apply list_lookup_middle.
  - rewrite app_comm_cons, app_assoc in Heq. apply app_inj_tail in Heq as [-> _].
    by eapply Hg.
Qed.

Lemma gated_snoc_other tr e :
  gated tr -> commits [e] = [] -> gated (tr ++ [e]).
Proof.
  intros Hg He pre ck r post Heq.
  induction post as [|x post _] using rev_ind.
  - apply app_inj_tail in Heq as [_ ->]. done.
  - rewrite app_comm_cons, app_assoc in Heq. apply app_inj_tail in Heq as [-> _].
    by eapply Hg.
Qed.

Lemma J_init : J (@nil (event Item)) [] [] [].
Proof.
  exists [], [], []. split_and!; try done; [apply gated_nil|].
  exists []. split_and!; try done. by left.
Qed.

Lemma commitLoop_J rest buf cookies w tr r w' tr' :
  J tr rest buf cookies ->
  commitLoop rest w tr = (r, w', tr') ->
  gated tr' /\ (r = None -> J tr' [] buf cookies).
Proof.
  revert w tr. induction rest as [|ck rest IH]; intros w tr HJ; simpl.
  - intros [= <- <- <-]. destruct HJ as (A & B & C & ? & ? & ? & ? & ? & ? & ? & ? & ?).
    split; [done|]. intros _. by exists A, B, C.
  - destruct HJ as (A & B & C & Hb & HA & HAB & Hpp & HB & HC & Hbuf & Hg & gs & Hco & Hgs & Hpc & Hlast).
    destruct B as [|[its ck0] B]; simplify_eq/=.
    destruct Hlast as [|(gs0 & g0 & ->)]; [done|].
    assert (Hlen : length (commits tr) = length A) by (by rewrite <- HA, length_map).
    assert (HA' : A = concat gs0 ++ g0).
    { rewrite concat_app in Hgs. simpl in Hgs. rewrite app_nil_r, app_assoc in Hgs.
      by apply app_inv_tail in Hgs. }
    assert (Hg' : forall r0, gated (tr ++ [EvCommit ck r0])).
    { intros r0. apply gated_snoc_commit with its gs0 g0 B C; [done|..|done| |].
      - rewrite Hb, Hlen. by apply list_lookup_middle.
      - by rewrite Hlen, HA', length_app.
      - rewrite Hpc, list_lookup_fmap, list_lookup_middle; done. }
    destruct (Commit ck w) as [[e|] w1].
    + intros [= <- <- <-]. split; [apply Hg'|done].
    + apply IH. exists (A ++ [(its, ck)]), B, C.
      rewrite batches_app, commits_app, processed_app, processed_ok_app, process_calls_app; simpl.
      rewrite !app_nil_r, map_app, HA. split_and!; try done.
      * by rewrite Hb, <- app_assoc.
      * by rewrite <- HAB, <- app_assoc.
      * eexists. split_and!; [done| |done|].
        -- by rewrite Hgs, <- app_assoc.
        -- right. exists gs0, (g0 ++ [(its, ck)]). by rewrite <- app_assoc.
Qed.

Lemma Pipe_iter_J buf cookies w tr :
  J tr [] buf cookies ->
  match Pipe_iter buf cookies w tr with
  | Running b c _ tr' => J tr' [] b c
  | Returned _ _ _ _ tr' => gated tr'
  end.
Proof.
  intros HJ.
  pose proof HJ as (A & B & C & Hb & HA & HAB & Hpp & HB & HC & Hbuf & Hg & gs & Hco & Hgs & Hpc & _).
  apply map_eq_nil in HB as ->. rewrite app_nil_r in HAB, Hgs. simpl in Hb.
  unfold Pipe_iter.
  destruct (Next w) as [[[items cookie] [e|]] w1].
  { apply gated_snoc_other; done. }
  assert (Hg1 : gated (tr ++ [EvNext items cookie None])) by (by apply gated_snoc_other).
  assert (Hco1 : coalesce [] (batches tr ++ [(items, cookie)]) =
                 if Z.of_nat (length buf) + Z.of_nat (length items) <=? MaxItems
                 then (gs, C ++ [(items, cookie)]) else (gs ++ [C], [(items, cookie)])).
  { by rewrite coalesce_snoc, Hco, Hbuf. }
  destruct (Z.of_nat (length buf) + Z.of_nat (length items) <=? MaxItems).
  { exists A, [], (C ++ [(items, cookie)]).
    rewrite batches_app, commits_app, processed_app, processed_ok_app, process_calls_app; simpl.
    rewrite !app_nil_r, map_app, items_of_app, HC, Hbuf.
    split_and!; try done.
    - by rewrite Hb, app_assoc.
    - unfold items_of. simpl. by rewrite app_nil_r.
    - exists gs. split_and!; try done. by left. }
  destruct (Process buf w1) as [[e|] w2].
  { apply gated_snoc_other; done. }
  set (tr2 := (tr ++ [EvNext items cookie None]) ++ [EvProcess buf None]).
  assert (HJ2 : J tr2 cookies items [cookie]).
  { exists A, C, [(items, cookie)]. unfold tr2.
    rewrite !batches_app, !commits_app, !processed_app, !processed_ok_app, !process_calls_app; simpl.
    rewrite !app_nil_r, items_of_app, Hbuf.
    split_and!; try done.
    - by rewrite Hb, <- app_assoc.
    - by rewrite HAB.
    - by rewrite Hpp.
    - unfold items_of. simpl. by rewrite app_nil_r.
    - apply gated_snoc_other; done.
    - exists (gs ++ [C]). split_and!; try done.
      + rewrite concat_app. simpl. by rewrite app_nil_r, Hgs.
      + rewrite Hpc, map_app. simpl. by rewrite Hbuf.
      + right. by exists gs, []. }
  destruct (commitLoop cookies w2 tr2) as [[r w3] tr3] eqn:Hcl.
  destruct (commitLoop_J _ _ _ _ _ _ _ _ HJ2 Hcl) as [Hg3 HJ3].
  destruct r as [[ck e]|]; [done|]. by apply HJ3.
Qed.

Lemma Pipe_loop_J n buf cookies w tr :
  J tr [] buf cookies ->
  match Pipe_loop n buf cookies w tr with
  | Running b c _ tr' => J tr' [] b c
  | Returned _ _ _ _ tr' => gated tr'
  end.
Proof.
  revert buf cookies w tr. induction n as [|n IH]; intros buf cookies w tr HJ; simpl.
  - done.
  - pose proof (Pipe_iter_J buf cookies w tr HJ) as Hi.
    destruct (Pipe_iter buf cookies w tr); [done|]. by apply IH.
Qed.

(** *** The capacity invariant *)

Lemma Forall_ok_commits (P : event Item -> Prop) cks :
  (forall ck, P (EvCommit ck None)) -> Forall P (ok_commits cks).
Proof. intros HP. induction cks; constructor; auto. Qed.

Lemma Pipe_iter_prefix buf cookies w tr : tr `prefix_of` trace_of (Pipe_iter buf cookies w tr).
Proof.
  unfold Pipe_iter.
  destruct (Next w) as [[[items cookie] [e|]] w1]; simpl; [by eexists|].
  destruct (Z.of_nat (length buf) + Z.of_nat (length items) <=? MaxItems); simpl; [by eexists|].
  destruct (Process buf w1) as [[e|] w2]; simpl.
  { rewrite <- app_assoc. by eexists. }
  destruct (commitLoop cookies w2 _) as [[r w3] tr3] eqn:Hcl.
  apply commitLoop_inv in Hcl. destruct r as [[ck e]|].
  - destruct Hcl as (pre & post & w' & _ & _ & _ & ->). simpl.
    rewrite <- !app_assoc. by eexists.
  - destruct Hcl as [_ ->]. simpl. rewrite <- !app_assoc. by eexists.
Qed.

Lemma Pipe_loop_prefix n buf cookies w tr :
  tr `prefix_of` trace_of (Pipe_loop n buf cookies w tr).
Proof.
  revert buf cookies w tr. induction n as [|n IH]; intros buf cookies w tr; simpl; [done|].
  pose proof (Pipe_iter_prefix buf cookies w tr) as Hp.
  destruct (Pipe_iter buf cookies w tr) as [e b c w' tr'|b c w' tr']; simpl in *; [done|].
  etrans; [exact Hp|apply IH].
Qed.

Lemma Forall_prefix {A} (P : A -> Prop) (l1 l2 : list A) :
  l1 `prefix_of` l2 -> Forall P l2 -> Forall P l1.
Proof. intros [k ->] Hf. by apply Forall_app in Hf as [? _]. Qed.

Lemma Pipe_iter_capacity buf cookies w tr :
  Z.of_nat (length buf) <= MaxItems ->
  Forall process_bounded tr ->
  Forall next_bounded (trace_of (Pipe_iter buf cookies w tr)) ->
  Forall process_bounded (trace_of (Pipe_iter buf cookies w tr)) /\
  Z.of_nat (length (buf_of (Pipe_iter buf cookies w tr))) <= MaxItems.
Proof.
  intros Hbuf Htr. unfold Pipe_iter.
  destruct (Next w) as [[[items cookie] [e|]] w1]; simpl.
  { intros _. split; [|done]. apply Forall_app. split; [done|]. by repeat constructor. }
  assert (Htr1 : Forall process_bounded (tr ++ [EvNext items cookie None])).
  { apply Forall_app. split; [done|]. by repeat constructor. }
  destruct (Z.of_nat (length buf) + Z.of_nat (length items) <=? MaxItems) eqn:Hle; simpl.
  { intros _. split; [done|]. rewrite length_app. lia. }
  assert (Htr2 : forall perr,
    Forall process_bounded ((tr ++ [EvNext items cookie None]) ++ [EvProcess buf perr])).
  { intros perr. apply Forall_app. split; [done|]. by repeat constructor. }
  destruct (Process buf w1) as [[e|] w2]; simpl.
  { intros _. by split. }
  destruct (commitLoop cookies w2 _) as [[r w3] tr3] eqn:Hcl.
  apply commitLoop_inv in Hcl. destruct r as [[ck e]|].
  - destruct Hcl as (pre & post & w' & _ & _ & _ & ->). simpl. intros _. split; [|done].
    apply Forall_app. split; [done|]. apply Forall_app. split.
    + by apply Forall_ok_commits.
    + by repeat constructor.
  - destruct Hcl as [_ ->]. simpl. intros Hn. split.
    + apply Forall_app. split; [done|]. by apply Forall_ok_commits.
    + apply Forall_app in Hn as [Hn _]. apply Forall_app in Hn as [Hn _].
      apply Forall_app in Hn as [_ Hn]. inversion Hn as [|? ? Hx _]. exact Hx.
Qed.

Lemma Pipe_loop_capacity n buf cookies w tr :
  Z.of_nat (length buf) <= MaxItems ->
  Forall process_bounded tr ->
  Forall next_bounded (trace_of (Pipe_loop n buf cookies w tr)) ->
  Forall process_bounded (trace_of (Pipe_loop n buf cookies w tr)) /\
  Z.of_nat (length (buf_of (Pipe_loop n buf cookies w tr))) <= MaxItems.
Proof.
  revert buf cookies w tr. induction n as [|n IH]; intros buf cookies w tr Hbuf Htr; simpl.
  - by intros _.
  - pose proof (Pipe_iter_capacity buf cookies w tr Hbuf Htr) as Hi.
    destruct (Pipe_iter buf cookies w tr) as [e b c w' tr'|b c w' tr'] eqn:Hit; simpl in *; [done|].
    intros Hn. destruct Hi as [Hp Hb].
    { eapply Forall_prefix; [apply Pipe_loop_prefix|exact Hn]. }
    by apply IH.
Qed.

(** *** Statements about single iterations *)

Lemma Pipe_loop_S n buf cookies w tr :
  Pipe_loop (S n) buf cookies w tr =
  match Pipe_iter buf cookies w tr with
  | Returned err b c w' tr' => Returned err b c w' tr'
  | Running b c w' tr' => Pipe_loop n b c w' tr'
  end.
Proof. done. Qed.

(** C3: in the base Pipe, when [Next] returns end-of-stream at the head of
    the loop, [Pipe] returns an error in which [io.EOF] is found by
    [errors.Is], and the pending buffer is not flushed: the only call made
    is that [Next], and in the whole run the items given to [Process]
    followed by the pending buffer are exactly the items received, the
    cookies given to [Commit] followed by the pending cookies exactly the
    cookies received. *)
Theorem Pipe_EOF_does_not_flush n m w0 buf cookies w tr items ck w' :
  Pipe n w0 = Running buf cookies w tr ->
  Next w = (items, ck, Some io_EOF, w') ->
  let res := Errorf_w "read error: " io_EOF in
  let tr' := tr ++ [EvNext items ck (Some io_EOF)] in
  Pipe (n + S m) w0 = Returned res buf cookies w' tr' /\
  errors_Is res io_EOF = true /\
  processed tr' ++ buf = items_of (batches tr') /\
  commits tr' ++ cookies = map snd (batches tr').
Proof.
  intros Hrun HN res tr'. split; [|split].
  - unfold Pipe in *. rewrite (Pipe_loop_Running _ _ _ _ _ _ _ _ _ _ Hrun).
    rewrite Pipe_loop_S. unfold Pipe_iter. by rewrite HN.
  - apply errors_Is_Errorf_w.
  - pose proof (Pipe_loop_J n [] [] w0 [] J_init) as HJ. unfold Pipe in Hrun.
    rewrite Hrun in HJ. destruct HJ as (A & B & C & Hb & HA & HAB & Hpp & HB & HC & Hbuf & _).
    unfold tr'. rewrite processed_app, commits_app, batches_app. simpl.
    rewrite !app_nil_r, Hb, Hpp, <- HAB, <- HA, <- HC, <- Hbuf.
    apply map_eq_nil in HB as ->. rewrite !items_of_app, !map_app.
    by rewrite <- app_assoc.
Qed.

(** C4: if every batch that [Next] returned during a run has at most
    [MaxItems] items, then every [Process] call of that run was given at
    most [MaxItems] items, and the pending buffer has at most [MaxItems]
    items. *)
Theorem Pipe_capacity fuel w0 :
  Forall next_bounded (trace_of (Pipe fuel w0)) ->
  Forall process_bounded (trace_of (Pipe fuel w0)) /\
  Z.of_nat (length (buf_of (Pipe fuel w0))) <= MaxItems.
Proof. apply Pipe_loop_capacity; [done|constructor]. Qed.

(** C5: when, after an overflow and a successful [Process], the cookies
    [pre] commit and [Commit c] fails with [e], [Pipe] returns at once an
    error that wraps [e]; the calls made are the commits of [pre] and the
    failing one, none for [post], and the world is left as the failing
    [Commit] left it. *)
Theorem Pipe_commit_failure fuel buf cookies w tr items ck w1 w2 pre c post w3 e w4 :
  Next w = (items, ck, None, w1) ->
  MaxItems < Z.of_nat (length buf) + Z.of_nat (length items) ->
  Process buf w1 = (None, w2) ->
  cookies = pre ++ c :: post ->
  commits_succeed pre w2 = Some w3 ->
  Commit c w3 = (Some e, w4) ->
  let res := Errorf_w ("error commiting cookie " +:+ fmt_d c +:+ ": ") e in
  Pipe_loop (S fuel) buf cookies w tr
  = Returned res buf cookies w4
      (tr ++ [EvNext items ck None; EvProcess buf None] ++ ok_commits pre ++ [EvCommit c (Some e)]) /\
  errors_Is res e = true.
Proof.
  intros HN Hov HP -> Hpre Hc res. split; [|apply errors_Is_Errorf_w].
  rewrite Pipe_loop_S. unfold Pipe_iter. rewrite HN.
  destruct (Z.leb_spec (Z.of_nat (length buf) + Z.of_nat (length items)) MaxItems); [lia|].
  rewrite HP. rewrite (commitLoop_fail _ _ _ _ _ _ _ _ Hpre Hc).
  unfold res. by rewrite <- !app_assoc.
Qed.

(** C6: in every run of the base Pipe each [Commit] call is gated: its
    cookie is that of the next uncommitted batch, and the [Process] call
    for the group of batches that this batch was coalesced into has been
    made before it, with the items of that whole group, and has returned
    [nil].  When [Process] fails, [Pipe] returns an error that wraps the
    failure, and the last call made is that [Process]: no [Commit]
    follows. *)
Theorem Pipe_commit_gating :
  (forall fuel w0, gated (trace_of (Pipe fuel w0))) /\
  (forall fuel buf cookies w tr items ck w1 e w2,
     Next w = (items, ck, None, w1) ->
     MaxItems < Z.of_nat (length buf) + Z.of_nat (length items) ->
     Process buf w1 = (Some e, w2) ->
     let res := Errorf_w "push error: " e in
     Pipe_loop (S fuel) buf cookies w tr
     = Returned res buf cookies w2 (tr ++ [EvNext items ck None; EvProcess buf (Some e)]) /\
     errors_Is res e = true).
Proof.
  split.
  - intros fuel w0. pose proof (Pipe_loop_J fuel [] [] w0 [] J_init) as HJ.
    unfold Pipe. destruct (Pipe_loop fuel [] [] w0 []); simpl; [done|].
    by destruct HJ as (A & B & C & ? & ? & ? & ? & ? & ? & ? & ? & ?).
  - intros fuel buf cookies w tr items ck w1 e w2 HN Hov HP res.
    split; [|apply errors_Is_Errorf_w].
    rewrite Pipe_loop_S. unfold Pipe_iter. rewrite HN.
    destruct (Z.leb_spec (Z.of_nat (length buf) + Z.of_nat (length items)) MaxItems); [lia|].
    rewrite HP. by rewrite <- !app_assoc.
Qed.

(** A [Commit] for a batch without items that no [Process] call has
    covered is not gated. *)
Example early_commit_of_empty_batch_not_gated :
  ~ gated [EvNext ([] : list Item) 7 None; EvCommit 7 None].
Proof.
  intros Hg.
  destruct (Hg [EvNext [] 7 None] 7 None [] eq_refl) as (items & j & g & i & _ & Hj & _).
  simpl in Hj. by rewrite lookup_nil in Hj.
Qed.

(** C10: a batch of more than [MaxItems] items is neither split nor
    rejected.  The iteration that receives it calls [Process] with the
    buffer accumulated so far (whatever it holds), commits its cookies and
    makes the oversized batch the pending buffer; the next batch that
    arrives then makes [Pipe] call [Process] with that oversized buffer. *)
Theorem Pipe_oversized_batch buf cookies w tr items ck w1 w2 w3 :
  Next w = (items, ck, None, w1) ->
  MaxItems < Z.of_nat (length items) ->
  Process buf w1 = (None, w2) ->
  commits_succeed cookies w2 = Some w3 ->
  let tr' := tr ++ [EvNext items ck None; EvProcess buf None] ++ ok_commits cookies in
  Pipe_iter buf cookies w tr = Running items [ck] w3 tr' /\
  (forall items2 ck2 w4 perr w5,
     Next w3 = (items2, ck2, None, w4) ->
     Process items w4 = (perr, w5) ->
     (tr' ++ [EvNext items2 ck2 None; EvProcess items perr])
       `prefix_of` trace_of (Pipe_iter items [ck] w3 tr')).
Proof.
  intros HN Hbig HP Hcs tr'. split.
  - unfold Pipe_iter. rewrite HN.
    destruct (Z.leb_spec (Z.of_nat (length buf) + Z.of_nat (length items)) MaxItems); [lia|].
    rewrite HP. rewrite (commitLoop_ok _ _ _ _ Hcs). unfold tr'. by rewrite <- !app_assoc.
  - intros items2 ck2 w4 perr w5 HN2 HP2. unfold Pipe_iter. rewrite HN2.
    destruct (Z.leb_spec (Z.of_nat (length items) + Z.of_nat (length items2)) MaxItems); [lia|].
    rewrite HP2. destruct perr as [e|]; simpl.
    { rewrite <- !app_assoc. by eexists []; rewrite app_nil_r. }
    destruct (Commit ck w5) as [[e|] w6]; simpl; rewrite <- ?app_assoc; simpl;
      apply prefix_app; by eexists [_].
Qed.

End Facts.

(** *** The theorems at the mock producer and consumer of the tests *)

Lemma Pipe_EOF_does_not_flush_witness :
  let w0 := Mock.world [[1; 2]; [3]] [7; 8] (Some io_EOF) 0 None None in
  let w := (Mock.MockProducer [[1; 2]; [3]] [7; 8] (Some io_EOF) 2 0 None [] [],
            Mock.MockConsumer [] None) in
  let tr := [EvNext [1; 2] 7 None; EvNext [3] 8 None] in
  (Pipe 2 w0 = Running [1; 2; 3] [7; 8] w tr /\
   Next w = ([], 0, Some io_EOF, w)) /\
  let res := Errorf_w "read error: " io_EOF in
  let tr' := tr ++ [EvNext [] 0 (Some io_EOF)] in
  Pipe (2 + 1) w0 = Returned res [1; 2; 3] [7; 8] w tr' /\
  errors_Is res io_EOF = true /\
  processed tr' ++ [1; 2; 3] = items_of (batches tr') /\
  commits tr' ++ [7; 8] = map snd (batches tr').
Proof.
  intros w0 w tr. split; [split; reflexivity|].
  apply (Pipe_EOF_does_not_flush 2 0 w0 [1; 2; 3] [7; 8] w tr [] 0 w); reflexivity.
Defined.

Lemma Pipe_capacity_witness :
  let w0 := Mock.world [Mock.makeItems 0 4999; Mock.makeItems 4999 5000; Mock.makeItems 9999 1]
                       [1; 2; 3] (Some io_EOF) 0 None None in
  Forall next_bounded (trace_of (Pipe 4 w0)) /\
  Forall process_bounded (trace_of (Pipe 4 w0)) /\
  Z.of_nat (length (buf_of (Pipe 4 w0))) <= MaxItems.
Proof.
  intros w0.
  assert (Hn : Forall next_bounded (trace_of (Pipe 4 w0))).
  { apply (bool_decide_eq_true_1 (Forall next_bounded (trace_of (Pipe 4 w0)))).
    vm_compute. reflexivity. }
  split; [exact Hn|]. exact (Pipe_capacity 4 w0 Hn).
Defined.

Lemma Pipe_commit_failure_witness :
  let bs := [Mock.makeItems 0 3000; Mock.makeItems 3000 3000; Mock.makeItems 6000 3999;
             Mock.makeItems 9999 1] in
  let cks := [1; 2; 3; 4] in
  let cerr := errorString "commit failed" in
  let P i att com := Mock.MockProducer bs cks (Some io_EOF) i 2 (Some cerr) att com in
  let buf := Mock.makeItems 0 9999 in
  let w := (P 3 [] [], Mock.MockConsumer [] None) in
  let w1 := (P 4 [] [], Mock.MockConsumer [] None) in
  let w2 := (P 4 [] [], Mock.MockConsumer [buf] None) in
  let w3 := (P 4 [1] [1], Mock.MockConsumer [buf] None) in
  let w4 := (P 4 [1; 2] [1], Mock.MockConsumer [buf] None) in
  let items := Mock.makeItems 9999 1 in
  (Next w = (items, 4, None, w1) /\
   MaxItems < Z.of_nat (length buf) + Z.of_nat (length items) /\
   Process buf w1 = (None, w2) /\
   commits_succeed [1] w2 = Some w3 /\
   Commit 2 w3 = (Some cerr, w4)) /\
  let res := Errorf_w ("error commiting cookie " +:+ fmt_d 2 +:+ ": ") cerr in
  Pipe_loop 1 buf [1; 2; 3] w []
  = Returned res buf [1; 2; 3] w4
      ([] ++ [EvNext items 4 None; EvProcess buf None] ++ ok_commits [1] ++ [EvCommit 2 (Some cerr)]) /\
  errors_Is res cerr = true.
Proof.
  intros bs cks cerr P buf w w1 w2 w3 w4 items.
  assert (H1 : Next w = (items, 4, None, w1)) by reflexivity.
  assert (H2 : MaxItems < Z.of_nat (length buf) + Z.of_nat (length items))
    by (unfold buf, items; rewrite !length_makeItems by lia; unfold MaxItems; lia).
  assert (H3 : Process buf w1 = (None, w2)) by reflexivity.
  assert (H4 : commits_succeed [1] w2 = Some w3) by reflexivity.
  assert (H5 : Commit 2 w3 = (Some cerr, w4)) by reflexivity.
  split; [exact (conj H1 (conj H2 (conj H3 (conj H4 H5))))|].
  exact (Pipe_commit_failure 0 buf [1; 2; 3] w [] items 4 w1 w2 [1] 2 [3] w3 cerr w4
           H1 H2 H3 eq_refl H4 H5).
Defined.

Lemma Pipe_commit_gating_witness :
  let bs := [Mock.makeItems 0 4999; Mock.makeItems 4999 5001] in
  let perr := errorString "process failed" in
  let P i := Mock.MockProducer bs [1; 2] (Some io_EOF) i 0 None [] [] in
  let buf := Mock.makeItems 0 4999 in
  let items := Mock.makeItems 4999 5001 in
  let w := (P 1, Mock.MockConsumer [] (Some perr)) in
  let w1 := (P 2, Mock.MockConsumer [] (Some perr)) in
  let w2 := (P 2, Mock.MockConsumer [buf] (Some perr)) in
  (Next w = (items, 2, None, w1) /\
   MaxItems < Z.of_nat (length buf) + Z.of_nat (length items) /\
   Process buf w1 = (Some perr, w2)) /\
  gated (trace_of (Pipe 4 (Mock.world [[1; 2]; []; Mock.makeItems 3 9998; [4]] [7; 8; 9; 10]
                                      (Some io_EOF) 0 None None))) /\
  let res := Errorf_w "push error: " perr in
  Pipe_loop 1 buf [1] w [EvNext buf 1 None]
  = Returned res buf [1] w2 ([EvNext buf 1 None] ++ [EvNext items 2 None; EvProcess buf (Some perr)]) /\
  errors_Is res perr = true.
Proof.
  intros bs perr P buf items w w1 w2.
  assert (H1 : Next w = (items, 2, None, w1)) by reflexivity.
  assert (H2 : MaxItems < Z.of_nat (length buf) + Z.of_nat (length items))
    by (unfold buf, items; rewrite !length_makeItems by lia; unfold MaxItems; lia).
  assert (H3 : Process buf w1 = (Some perr, w2)) by reflexivity.
  split; [exact (conj H1 (conj H2 H3))|]. split.
  - apply (proj1 Pipe_commit_gating).
  - exact (proj2 Pipe_commit_gating 0%nat buf [1] w [EvNext buf 1 None] items 2 w1 perr w2 H1 H2 H3).
Defined.

(** The run of the witness: the group of the first two batches, one of
    them without items, goes to [Process] when the third does not fit, and
    both cookies are committed after it. *)
Example gated_run_with_an_empty_batch :
  map (fun ev => match ev with
                 | EvNext items ck _ => (0, Z.of_nat (length items), ck)
                 | EvProcess items _ => (1, Z.of_nat (length items), 0)
                 | EvCommit ck _ => (2, 0, ck)
                 end)
      (trace_of (Pipe 4 (Mock.world [[1; 2]; []; Mock.makeItems 3 9998; [4]] [7; 8; 9; 10]
                                    (Some io_EOF) 0 None None)))
  = [(0, 2, 7); (0, 0, 8); (0, 9998, 9); (1, 2, 0); (2, 0, 7); (2, 0, 8); (0, 1, 10)].
Proof. vm_compute. reflexivity. Qed.

Lemma Pipe_oversized_batch_witness :
  let items := Mock.makeItems 0 10000 in
  let bs := [items; [7]] in
  let P i := Mock.MockProducer bs [1; 2] (Some io_EOF) i 0 None [] [] in
  let w0 := (P 0, Mock.MockConsumer [] None) in
  let w1 := (P 1, Mock.MockConsumer [] None) in
  let w2 := (P 1, Mock.MockConsumer [[]] None) in
  (Next w0 = (items, 1, None, w1) /\
   MaxItems < Z.of_nat (length items) /\
   Process [] w1 = (None, w2) /\
   commits_succeed [] w2 = Some w2) /\
  let tr' := [] ++ [EvNext items 1 None; EvProcess [] None] ++ ok_commits [] in
  Pipe_iter [] [] w0 [] = Running items [1] w2 tr' /\
  (forall items2 ck2 w4 perr w5,
     Next w2 = (items2, ck2, None, w4) ->
     Process items w4 = (perr, w5) ->
     (tr' ++ [EvNext items2 ck2 None; EvProcess items perr])
       `prefix_of` trace_of (Pipe_iter items [1] w2 tr')).
Proof.
  intros items bs P w0 w1 w2.
  assert (H1 : Next w0 = (items, 1, None, w1)) by reflexivity.
  assert (H2 : MaxItems < Z.of_nat (length items))
    by (unfold items; rewrite !length_makeItems by lia; unfold MaxItems; lia).
  assert (H3 : Process [] w1 = (None, w2)) by reflexivity.
  split; [exact (conj H1 (conj H2 (conj H3 eq_refl)))|].
  exact (Pipe_oversized_batch [] [] w0 [] items 1 w1 w2 w2 H1 H2 H3 eq_refl).
Defined.

End BasePipeFacts.

(** ** The base Pipe: whole runs *)

Module BasePipeRuns.
Import BasePipe BasePipeFacts Calls.

Section Runs.
Context {Item W : Type} `{!Producer Item W} `{!Consumer Item W}.
Implicit Types (buf items : list Item) (cookies cks : list Z) (w : W)
  (tr : list (event Item)).

(** *** The first failure ends the run *)

Lemma all_ok_snoc tr ev : all_ok tr -> failure ev = None -> all_ok (tr ++ [ev]).
Proof. intros Htr Hev. apply Forall_app. split; [done|]. by constructor. Qed.

Lemma all_ok_commits tr cks : all_ok tr -> all_ok (tr ++ ok_commits cks).
Proof. intros Htr. apply Forall_app. split; [done|]. by apply Forall_ok_commits. Qed.

Lemma Pipe_iter_stopped buf cookies w tr :
  all_ok tr ->
  match Pipe_iter buf cookies w tr with
  | Returned err _ _ _ tr' =>
      exists pre ev, tr' = pre ++ [ev] /\ all_ok pre /\ report ev = Some err
  | Running _ _ _ tr' => all_ok tr'
  end.
Proof.
  intros Htr. unfold Pipe_iter.
  destruct (Next w) as [[[items cookie] [e|]] w1]; simpl.
  { by eexists tr, _. }
  assert (Htr1 : all_ok (tr ++ [EvNext items cookie None])) by (by apply all_ok_snoc).
  destruct (_ <=? _); simpl; [done|].
  destruct (Process buf w1) as [[e|] w2]; simpl.
  { by eexists _, _. }
  assert (Htr2 : all_ok ((tr ++ [EvNext items cookie None]) ++ [EvProcess buf None]))
    by (by apply all_ok_snoc).
  destruct (commitLoop cookies w2 _) as [[r w3] tr3] eqn:Hcl.
  apply commitLoop_inv in Hcl. destruct r as [[ck e]|]; simpl.
  - destruct Hcl as (pre & post & w' & _ & _ & _ & ->).
    eexists _, _. rewrite app_assoc. split; [done|]. split; [|done]. by apply all_ok_commits.
  - destruct Hcl as [_ ->]. by apply all_ok_commits.
Qed.

Lemma Pipe_loop_stopped n buf cookies w tr :
  all_ok tr ->
  match Pipe_loop n buf cookies w tr with
  | Returned err _ _ _ tr' =>
      exists pre ev, tr' = pre ++ [ev] /\ all_ok pre /\ report ev = Some err
  | Running _ _ _ tr' => all_ok tr'
  end.
Proof.
  revert buf cookies w tr. induction n as [|n IH]; intros buf cookies w tr Htr; simpl; [done|].
  pose proof (Pipe_iter_stopped buf cookies w tr Htr) as Hi.
  destruct (Pipe_iter buf cookies w tr); [done|]. by apply IH.
Qed.

(** X: [Pipe] goes on as long as every call succeeds and returns at the
    first call that fails: the trace of a run that returned ends with the
    failed call, every call before it succeeded, and the result is the
    error of that call wrapped with the prefix of its kind ("read error: ",
    "push error: ", "error commiting cookie N: "). *)
Theorem Pipe_returns_at_first_failure fuel w0 :
  match Pipe fuel w0 with
  | Returned err _ _ _ tr =>
      exists pre ev,
        tr = pre ++ [ev] /\ Forall (fun ev => failure ev = None) pre /\ report ev = Some err
  | Running _ _ _ tr => Forall (fun ev => failure ev = None) tr
  end.
Proof. apply (Pipe_loop_stopped fuel [] [] w0 []). constructor. Qed.

(** *** Items and cookies keep their order *)

Lemma J_in_order tr buf cookies : J tr [] buf cookies -> in_order tr.
Proof.
  intros (A & B & C & Hb & HA & HAB & Hpp & HB & HC & Hbuf & _).
  apply map_eq_nil in HB as ->. rewrite app_nil_r in HAB. simpl in Hb.
  split.
  - rewrite Hpp, <- HAB, Hb, items_of_app. by apply prefix_app_r.
  - rewrite <- HA, Hb, map_app. by apply prefix_app_r.
Qed.

Lemma Pipe_iter_in_order buf cookies w tr :
  J tr [] buf cookies -> in_order (trace_of (Pipe_iter buf cookies w tr)).
Proof.
  intros HJ. pose proof (Pipe_iter_J buf cookies w tr HJ) as Hit.
  pose proof HJ as (A & B & C & Hb & HA & HAB & Hpp & HB & HC & Hbuf & _).
  apply map_eq_nil in HB as ->. rewrite app_nil_r in HAB. simpl in Hb.
  revert Hit. unfold Pipe_iter.
  destruct (Next w) as [[[items cookie] [e|]] w1]; simpl.
  { intros _. destruct (J_in_order _ _ _ HJ) as [H1 H2].
    split; rewrite ?processed_app, ?commits_app, ?batches_app; simpl; by rewrite !app_nil_r. }
  destruct (_ <=? _); simpl; [apply J_in_order|].
  destruct (Process buf w1) as [[e|] w2]; simpl.
  { intros _. split.
    - rewrite !processed_app, !batches_app. simpl. rewrite !app_nil_r.
      rewrite Hpp, <- HAB, Hb, <- Hbuf, !items_of_app. by apply prefix_app_r.
    - rewrite !commits_app, !batches_app. simpl. rewrite !app_nil_r.
      rewrite <- HA, Hb, !map_app. eexists. by rewrite <- !app_assoc. }
  destruct (commitLoop cookies w2 _) as [[r w3] tr3] eqn:Hcl.
  pose proof (commitLoop_inv _ _ _ _ _ _ Hcl) as Hinv. destruct r as [[ck e]|]; simpl.
  - intros _. destruct Hinv as (pre & post & w' & Hck & _ & _ & ->). split.
    + rewrite !processed_app, !batches_app, batches_ok_commits, processed_ok_commits.
      simpl. rewrite !app_nil_r.
      rewrite Hpp, <- HAB, Hb, <- Hbuf, !items_of_app. by apply prefix_app_r.
    + rewrite !commits_app, !batches_app, batches_ok_commits, commits_ok_commits.
      simpl. rewrite !app_nil_r.
      rewrite <- HA, Hb, !map_app, HC, Hck. simpl.
      eexists. rewrite <- !app_assoc. simpl. reflexivity.
  - apply J_in_order.
Qed.

Lemma Pipe_loop_in_order n buf cookies w tr :
  J tr [] buf cookies -> in_order (trace_of (Pipe_loop n buf cookies w tr)).
Proof.
  revert buf cookies w tr. induction n as [|n IH]; intros buf cookies w tr HJ; simpl.
  - by eapply J_in_order.
  - pose proof (Pipe_iter_J buf cookies w tr HJ) as Hi.
    pose proof (Pipe_iter_in_order buf cookies w tr HJ) as Ho.
    destruct (Pipe_iter buf cookies w tr); [done|]. by apply IH.
Qed.

(** X: at every point of every run, the items [Process] has been called
    with are, in order, the first items that [Next] delivered, and the
    cookies [Commit] has been called with are, in order, the first cookies
    that [Next] delivered: nothing is reordered, repeated, skipped or
    invented. *)
Theorem Pipe_keeps_order fuel w0 :
  let tr := trace_of (Pipe fuel w0) in
  processed tr `prefix_of` items_of (batches tr) /\
  commits tr `prefix_of` map snd (batches tr).
Proof. apply (Pipe_loop_in_order fuel [] [] w0 []), J_init. Qed.

(** *** [Process] is called on overflow only *)

Lemma on_overflow_nil : on_overflow (@nil (event Item)).
Proof. intros pre buf r post Heq. by destruct pre. Qed.

Lemma on_overflow_snoc tr ev :
  on_overflow tr -> is_process ev = false -> on_overflow (tr ++ [ev]).
Proof.
  intros Ho He pre buf r post Heq.
  induction post as [|x post _] using rev_ind.
  - apply app_inj_tail in Heq as [_ ->]. done.
  - rewrite app_comm_cons, app_assoc in Heq. apply app_inj_tail in Heq as [-> _].
    by eapply Ho.
Qed.

Lemma on_overflow_app tr evs :
  on_overflow tr -> Forall (fun ev => is_process ev = false) evs -> on_overflow (tr ++ evs).
Proof.
  intros Ho Hevs. revert tr Ho. induction Hevs as [|ev evs Hev _ IH]; intros tr Ho.
  - by rewrite app_nil_r.
  - rewrite (app_assoc tr [ev] evs : tr ++ ev :: evs = (tr ++ [ev]) ++ evs).
    apply IH. by apply on_overflow_snoc.
Qed.

Lemma on_overflow_process tr items ck buf r :
  on_overflow tr ->
  MaxItems < Z.of_nat (length buf) + Z.of_nat (length items) ->
  processed tr ++ buf = items_of (batches tr) ->
  on_overflow ((tr ++ [EvNext items ck None]) ++ [EvProcess buf r]).
Proof.
  intros Ho Hov Hbuf pre buf' r' post Heq.
  induction post as [|x post _] using rev_ind.
  - apply app_inj_tail in Heq as [<- [= <- <-]]. by exists tr, items, ck.
  - rewrite app_comm_cons, app_assoc in Heq. apply app_inj_tail in Heq as [Heq _].
    revert Heq. by apply on_overflow_snoc.
Qed.

Lemma Pipe_iter_on_overflow buf cookies w tr :
  J tr [] buf cookies -> on_overflow tr ->
  on_overflow (trace_of (Pipe_iter buf cookies w tr)).
Proof.
  intros HJ Ho.
  pose proof HJ as (A & B & C & Hb & HA & HAB & Hpp & HB & HC & Hbuf & _).
  apply map_eq_nil in HB as ->. rewrite app_nil_r in HAB. simpl in Hb.
  assert (Hpend : processed tr ++ buf = items_of (batches tr)).
  { by rewrite Hpp, <- HAB, Hb, <- Hbuf, items_of_app. }
  unfold Pipe_iter.
  destruct (Next w) as [[[items cookie] [e|]] w1]; simpl.
  { by apply on_overflow_snoc. }
  destruct (Z.leb_spec (Z.of_nat (length buf) + Z.of_nat (length items)) MaxItems); simpl.
  { by apply on_overflow_snoc. }
  assert (Ho2 : forall r, on_overflow ((tr ++ [EvNext items cookie None]) ++ [EvProcess buf r])).
  { intros r. by apply on_overflow_process. }
  destruct (Process buf w1) as [[e|] w2]; simpl; [done|].
  destruct (commitLoop cookies w2 _) as [[r w3] tr3] eqn:Hcl.
  apply commitLoop_inv in Hcl. destruct r as [[ck e]|]; simpl.
  - destruct Hcl as (pre & post & w' & _ & _ & _ & ->).
    apply on_overflow_app; [done|]. apply Forall_app. split; [|by constructor].
    by apply Forall_ok_commits.
  - destruct Hcl as [_ ->]. apply on_overflow_app; [done|]. by apply Forall_ok_commits.
Qed.

Lemma Pipe_loop_on_overflow n buf cookies w tr :
  J tr [] buf cookies -> on_overflow tr ->
  on_overflow (trace_of (Pipe_loop n buf cookies w tr)).
Proof.
  revert buf cookies w tr. induction n as [|n IH]; intros buf cookies w tr HJ Ho; simpl; [done|].
  pose proof (Pipe_iter_J buf cookies w tr HJ) as Hi.
  pose proof (Pipe_iter_on_overflow buf cookies w tr HJ Ho) as Hi'.
  destruct (Pipe_iter buf cookies w tr); [done|]. by apply IH.
Qed.

(** X: [Process] is called on overflow only.  Every [Process] call of a
    run comes right after a successful [Next] whose batch did not fit into
    the buffer; its argument is the whole buffer, that is all items
    delivered before that batch and not processed yet, and together with
    the batch it has more than [MaxItems] items. *)
Theorem Pipe_processes_on_overflow fuel w0 pre buf r post :
  trace_of (Pipe fuel w0) = pre ++ EvProcess buf r :: post ->
  exists pre' items ck,
    pre = pre' ++ [EvNext items ck None] /\
    MaxItems < Z.of_nat (length buf) + Z.of_nat (length items) /\
    processed pre' ++ buf = items_of (batches pre').
Proof.
  apply (Pipe_loop_on_overflow fuel [] [] w0 []); [apply J_init|apply on_overflow_nil].
Qed.

(** *** Termination *)

Lemma commitLoop_measure (ok : W -> Prop) (mu : W -> nat) cks w tr :
  (forall ck w, ok w -> ok (Commit ck w).2 /\ (mu (Commit ck w).2 <= mu w)%nat) ->
  ok w ->
  ok (commitLoop cks w tr).1.2 /\ (mu (commitLoop cks w tr).1.2 <= mu w)%nat.
Proof.
  intros Hc. revert w tr. induction cks as [|ck cks IH]; intros w tr Hok; simpl; [done|].
  specialize (Hc ck w Hok). destruct (Commit ck w) as [[e|] w1]; simpl in *; [done|].
  destruct Hc as [Hok1 Hmu1]. destruct (IH w1 (tr ++ [EvCommit ck None]) Hok1) as [? ?].
  split; [done|lia].
Qed.

Lemma Pipe_loop_terminates (ok : W -> Prop) (mu : W -> nat) :
  (forall w items ck w', ok w -> Next w = (items, ck, None, w') -> ok w' /\ (mu w' < mu w)%nat) ->
  (forall items w, ok w -> ok (Process items w).2 /\ (mu (Process items w).2 <= mu w)%nat) ->
  (forall ck w, ok w -> ok (Commit ck w).2 /\ (mu (Commit ck w).2 <= mu w)%nat) ->
  forall n buf cookies w tr,
    ok w -> (mu w < n)%nat ->
    exists err b c w' tr', Pipe_loop n buf cookies w tr = Returned err b c w' tr'.
Proof.
  intros HN HP HC. induction n as [|n IH]; intros buf cookies w tr Hok Hmu; [lia|].
  rewrite Pipe_loop_S. unfold Pipe_iter.
  destruct (Next w) as [[[items cookie] [e|]] w1] eqn:HNext; [by eauto 10|].
  destruct (HN _ _ _ _ Hok HNext) as [Hok1 Hmu1].
  destruct (_ <=? _); [apply IH; [done|lia]|].
  specialize (HP buf w1 Hok1). destruct (Process buf w1) as [[e|] w2]; [by eauto 10|].
  simpl in HP. destruct HP as [Hok2 Hmu2].
  pose proof (commitLoop_measure ok mu cookies w2
                ((tr ++ [EvNext items cookie None]) ++ [EvProcess buf None]) HC Hok2) as Hcl.
  destruct (commitLoop cookies w2 _) as [[[[ck e]|] w3] tr3]; simpl in Hcl; [by eauto 10|].
  apply IH; [tauto|lia].
Qed.

(** X: [Pipe] returns when the producer is finite.  If, on the states
    the run can reach ([ok]), some measure of the state goes down with
    every successful [Next] and is not raised by [Process] or [Commit],
    then [Pipe] returns after at most as many iterations of its loop as the
    measure says, plus one. *)
Theorem Pipe_terminates (ok : W -> Prop) (mu : W -> nat) w0 :
  ok w0 ->
  (forall w items ck w', ok w -> Next w = (items, ck, None, w') -> ok w' /\ (mu w' < mu w)%nat) ->
  (forall items w, ok w -> ok (Process items w).2 /\ (mu (Process items w).2 <= mu w)%nat) ->
  (forall ck w, ok w -> ok (Commit ck w).2 /\ (mu (Commit ck w).2 <= mu w)%nat) ->
  exists err buf cookies w tr, Pipe (S (mu w0)) w0 = Returned err buf cookies w tr.
Proof. intros Hok HN HP HC. apply (Pipe_loop_terminates ok mu HN HP HC); [done|lia]. Qed.

End Runs.

(** *** The mock producer is finite *)

Lemma mock_Next_remaining (w : Mock.World) items ck w' :
  MockRun.ends w -> Next w = (items, ck, None, w') ->
  MockRun.ends w' /\ (MockRun.remaining w' < MockRun.remaining w)%nat.
Proof.
  destruct w as [p c]. unfold MockRun.ends, MockRun.remaining, Next. simpl.
  unfold Mock.mockProducer_Next.
  destruct (Z.ltb_spec (Mock.callIndex p) (Z.of_nat (length (Mock.batches p)))) as [Hlt|Hge].
  - intros Hends [= <- <- <-]. simpl. split; [done|lia].
  - intros [e He] [= <- <- Hr <-]. congruence.
Qed.

Lemma mock_Process_remaining items (w : Mock.World) :
  MockRun.ends w ->
  MockRun.ends (Process items w).2 /\
  (MockRun.remaining (Process items w).2 <= MockRun.remaining w)%nat.
Proof. by destruct w as [p c]. Qed.

Lemma mock_Commit_remaining ck (w : Mock.World) :
  MockRun.ends w ->
  MockRun.ends (Commit ck w).2 /\
  (MockRun.remaining (Commit ck w).2 <= MockRun.remaining w)%nat.
Proof.
  destruct w as [p c]. unfold MockRun.ends, MockRun.remaining, Commit. simpl.
  unfold Mock.mockProducer_Commit. intros Hends.
  destruct (Mock.commitErr p); [case_decide|]; simpl; done.
Qed.

Lemma Pipe_terminates_witness :
  let w0 := Mock.world [[1; 2]; [3]] [7; 8] (Some io_EOF) 0 None None in
  MockRun.ends w0 /\
  exists err buf cookies w tr, Pipe (S (MockRun.remaining w0)) w0 = Returned err buf cookies w tr.
Proof.
  intros w0.
  assert (H0 : MockRun.ends w0) by (by eexists).
  split; [exact H0|].
  exact (Pipe_terminates MockRun.ends MockRun.remaining w0 H0
           mock_Next_remaining mock_Process_remaining mock_Commit_remaining).
Defined.

Lemma Pipe_processes_on_overflow_witness :
  let w0 := Mock.world [Mock.makeItems 0 4999; Mock.makeItems 4999 5001] [1; 2]
                       (Some io_EOF) 0 None None in
  let buf := Mock.makeItems 0 4999 in
  let items := Mock.makeItems 4999 5001 in
  let pre := [EvNext buf 1 None; EvNext items 2 None] in
  let post := [EvCommit 1 None; EvNext [] 0 (Some io_EOF)] in
  trace_of (Pipe 3 w0) = pre ++ EvProcess buf None :: post /\
  exists pre' items' ck,
    pre = pre' ++ [EvNext items' ck None] /\
    MaxItems < Z.of_nat (length buf) + Z.of_nat (length items') /\
    processed pre' ++ buf = items_of (batches pre').
Proof.
  intros w0 buf items pre post.
  assert (H : trace_of (Pipe 3 w0) = pre ++ EvProcess buf None :: post).
  { apply (bool_decide_eq_true_1 (trace_of (Pipe 3 w0) = pre ++ EvProcess buf None :: post)).
    vm_compute. reflexivity. }
  exact (conj H (Pipe_processes_on_overflow 3 w0 pre buf None post H)).
Defined.

End BasePipeRuns.

(** ** The MultiReader: [Seek] and [Close] *)

Module MultiReaderFacts.

(** An [int64] offset added to a position: the sum either fits, or it
    wraps to a negative value. *)
Lemma wrap64_add_pos offset c :
  int64_range offset -> 0 <= c <= MaxInt64 ->
  (offset + c <= MaxInt64 /\ wrap64 (offset + c) = offset + c) \/
  (MaxInt64 < offset + c /\ wrap64 (offset + c) < 0).
Proof.
  unfold int64_range, MinInt64, MaxInt64. intros Ho Hc.
  destruct (Z_le_gt_dec (offset + c) (2 ^ 63 - 1)) as [Hle|Hgt].
  - left. split; [done|]. apply wrap64_small. unfold int64_range, MinInt64, MaxInt64. lia.
  - right. split; [lia|]. unfold wrap64.
    replace (offset + c + 2 ^ 63) with (offset + c - 2 ^ 63 + 1 * 2 ^ 64) by lia.
    rewrite Z.mod_add by lia. rewrite Z.mod_small; lia.
Qed.

(** The outcome of the range test of [Seek] on the wrapped target is the
    outcome of the test [0 <= t <= total] on the exact one. *)
Lemma seek_range_test offset c total :
  int64_range offset -> 0 <= c <= MaxInt64 -> 0 <= total <= MaxInt64 ->
  let t := offset + c in
  if decide (0 <= t <= total)
  then wrap64 t = t /\ (wrap64 t <? 0) || (wrap64 t >? total) = false
  else (wrap64 t <? 0) || (wrap64 t >? total) = true.
Proof.
  intros Ho Hc Ht t. destruct (wrap64_add_pos offset c Ho Hc) as [[Hle Hw]|[Hgt Hw]];
    fold t in Hw; case_decide; lia.
Qed.

Lemma seek_range_test_start offset total :
  0 <= total ->
  if decide (0 <= offset <= total)
  then (offset <? 0) || (offset >? total) = false
  else (offset <? 0) || (offset >? total) = true.
Proof.
  intros Ht. case_decide; [apply orb_false_iff|apply orb_true_iff]; lia.
Qed.

Lemma whence_cases whence :
  (whence = io_SeekStart \/ whence = io_SeekCurrent \/ whence = io_SeekEnd) \/
  ((whence =? io_SeekStart) = false /\ (whence =? io_SeekCurrent) = false /\
   (whence =? io_SeekEnd) = false).
Proof. unfold io_SeekStart, io_SeekCurrent, io_SeekEnd. lia. Qed.

Section Seek.
Context {R : Type} `{!Reader.SizedReadSeekCloser R}.

Lemma MRA_Seek_spec ahead offset whence (m : MRA.MultiReader R) :
  MRA.closed m = false ->
  int64_range offset ->
  0 <= MRA.absPos m <= MRA.totalSize m ->
  MRA.totalSize m <= MaxInt64 ->
  match MRA.posix_target offset whence (MRA.absPos m) (MRA.totalSize m) with
  | None =>
      MRA.Seek ahead offset whence m
      = (0, Some (errorString ("invalid whence: " +:+ fmt_d whence)), m)
  | Some t =>
      if decide (0 <= t <= MRA.totalSize m)
      then exists m', MRA.Seek ahead offset whence m = (t, None, m') /\
                      MRA.absPos m' = t /\ MRA.windowStart m' = t
      else MRA.Seek ahead offset whence m
           = (0, Some (errorString ("seek position (" +:+ fmt_d (wrap64 t)
                                    +:+ ") should be >= 0 and <= totalSize ("
                                    +:+ fmt_d (MRA.totalSize m) +:+ ")")), m)
  end.
Proof.
  intros Hopen Ho Hc Ht. unfold MRA.Seek, MRA.posix_target. rewrite Hopen.
  destruct (whence_cases whence) as [[-> | [-> | ->]] | (H0 & H1 & H2)]; simpl.
  - pose proof (seek_range_test_start offset (MRA.totalSize m) ltac:(lia)) as Hr.
    rewrite (wrap64_small offset Ho). case_decide; rewrite Hr; eauto.
  - pose proof (seek_range_test offset (MRA.absPos m) (MRA.totalSize m) Ho ltac:(lia) ltac:(lia))
      as Hr. simpl in Hr. rewrite (Z.add_comm (MRA.absPos m)).
    case_decide; [destruct Hr as [-> Hr]|]; rewrite Hr; eauto.
  - pose proof (seek_range_test offset (MRA.totalSize m) (MRA.totalSize m) Ho ltac:(lia) ltac:(lia))
      as Hr. simpl in Hr. rewrite (Z.add_comm (MRA.totalSize m)).
    case_decide; [destruct Hr as [-> Hr]|]; rewrite Hr; eauto.
  - by rewrite H0, H1, H2.
Qed.

Lemma MRB_Seek_spec ahead offset whence (m : MRB.MultiReader R) :
  MRB.closed m = false ->
  int64_range offset ->
  0 <= MRB.windowStart m <= MRB.Size m ->
  MRB.Size m <= MaxInt64 ->
  match MRA.posix_target offset whence (MRB.windowStart m) (MRB.Size m) with
  | None =>
      MRB.Seek ahead offset whence m
      = (0, Some (errorString ("invalid whence: " +:+ fmt_d whence)), m)
  | Some t =>
      if decide (0 <= t <= MRB.Size m)
      then exists m', MRB.Seek ahead offset whence m = (t, None, m') /\ MRB.windowStart m' = t
      else MRB.Seek ahead offset whence m
           = (0, Some (errorString ("seek position (" +:+ fmt_d (wrap64 t)
                                    +:+ ") should be >= 0 and <= total size ("
                                    +:+ fmt_d (MRB.Size m) +:+ ")")), m)
  end.
Proof.
  intros Hopen Ho Hc Ht. unfold MRB.Seek, MRA.posix_target. rewrite Hopen.
  destruct (whence_cases whence) as [[-> | [-> | ->]] | (H0 & H1 & H2)]; simpl.
  - pose proof (seek_range_test_start offset (MRB.Size m) ltac:(lia)) as Hr.
    rewrite (wrap64_small offset Ho). case_decide; rewrite Hr; eauto.
  - pose proof (seek_range_test offset (MRB.windowStart m) (MRB.Size m) Ho ltac:(lia) ltac:(lia))
      as Hr. simpl in Hr. rewrite (Z.add_comm (MRB.windowStart m)).
    case_decide; [destruct Hr as [-> Hr]|]; rewrite Hr; eauto.
  - pose proof (seek_range_test offset (MRB.Size m) (MRB.Size m) Ho ltac:(lia) ltac:(lia))
      as Hr. simpl in Hr. rewrite (Z.add_comm (MRB.Size m)).
    case_decide; [destruct Hr as [-> Hr]|]; rewrite Hr; eauto.
  - by rewrite H0, H1, H2.
Qed.

(** C7: for an open reader, an [int64] offset and a cursor within
    [[0, totalSize]], [Seek] computes the target as the specification does
    (offset for Start, cursor + offset for Current, totalSize + offset for
    End).  For any other whence it fails with the error "invalid whence: N",
    and for a target outside [[0, totalSize]] with the error "seek position
    (P) should be >= 0 and <= totalSize (T)", where [P] is the target as
    the [int64] holds it; both leave the reader as it was.  Otherwise it
    returns the target, and the cursor is the target.  Both variants, over
    any sub-readers. *)
Theorem Seek_target_and_cursor ahead offset whence :
  int64_range offset ->
  (forall m : MRA.MultiReader R,
     MRA.closed m = false ->
     0 <= MRA.absPos m <= MRA.totalSize m ->
     MRA.totalSize m <= MaxInt64 ->
     match MRA.posix_target offset whence (MRA.absPos m) (MRA.totalSize m) with
     | None =>
         MRA.Seek ahead offset whence m
         = (0, Some (errorString ("invalid whence: " +:+ fmt_d whence)), m)
     | Some t =>
         if decide (0 <= t <= MRA.totalSize m)
         then exists m', MRA.Seek ahead offset whence m = (t, None, m') /\
                         MRA.absPos m' = t /\ MRA.windowStart m' = t
         else MRA.Seek ahead offset whence m
              = (0, Some (errorString ("seek position (" +:+ fmt_d (wrap64 t)
                                       +:+ ") should be >= 0 and <= totalSize ("
                                       +:+ fmt_d (MRA.totalSize m) +:+ ")")), m)
     end) /\
  (forall m : MRB.MultiReader R,
     MRB.closed m = false ->
     0 <= MRB.windowStart m <= MRB.Size m ->
     MRB.Size m <= MaxInt64 ->
     match MRA.posix_target offset whence (MRB.windowStart m) (MRB.Size m) with
     | None =>
         MRB.Seek ahead offset whence m
         = (0, Some (errorString ("invalid whence: " +:+ fmt_d whence)), m)
     | Some t =>
         if decide (0 <= t <= MRB.Size m)
         then exists m', MRB.Seek ahead offset whence m = (t, None, m') /\ MRB.windowStart m' = t
         else MRB.Seek ahead offset whence m
              = (0, Some (errorString ("seek position (" +:+ fmt_d (wrap64 t)
                                       +:+ ") should be >= 0 and <= total size ("
                                       +:+ fmt_d (MRB.Size m) +:+ ")")), m)
     end).
Proof.
  intros Ho. split; intros m Hopen Hc Ht.
  - by apply MRA_Seek_spec.
  - by apply MRB_Seek_spec.
Qed.

End Seek.

Lemma Seek_target_and_cursor_witness :
  let rs := [Sub.newMockStringsReader (bytes "abc"); Sub.newMockStringsReader (bytes "def")] in
  let mA := MRA.NewMultiReader 4 2 rs in
  let mB := MRB.NewMultiReader 4 2 rs in
  (int64_range 3 /\
   MRA.closed mA = false /\ 0 <= MRA.absPos mA <= MRA.totalSize mA /\
   MRA.totalSize mA <= MaxInt64 /\
   MRB.closed mB = false /\ 0 <= MRB.windowStart mB <= MRB.Size mB /\
   MRB.Size mB <= MaxInt64) /\
  MRA.Seek 0 3 io_SeekEnd mA
  = (0, Some (errorString "seek position (9) should be >= 0 and <= totalSize (6)"), mA) /\
  MRB.Seek 0 3 io_SeekEnd mB
  = (0, Some (errorString "seek position (9) should be >= 0 and <= total size (6)"), mB).
Proof.
  intros rs mA mB.
  assert (H : int64_range 3) by (vm_compute; split; discriminate).
  assert (HA1 : 0 <= MRA.absPos mA <= MRA.totalSize mA) by (vm_compute; split; discriminate).
  assert (HA2 : MRA.totalSize mA <= MaxInt64) by (vm_compute; discriminate).
  assert (HB1 : 0 <= MRB.windowStart mB <= MRB.Size mB) by (vm_compute; split; discriminate).
  assert (HB2 : MRB.Size mB <= MaxInt64) by (vm_compute; discriminate).
  split; [by repeat split|].
  pose proof (proj1 (Seek_target_and_cursor 0 3 io_SeekEnd H) mA eq_refl HA1 HA2) as HA.
  pose proof (proj2 (Seek_target_and_cursor 0 3 io_SeekEnd H) mB eq_refl HB1 HB2) as HB.
  split; [exact HA|exact HB].
Defined.

(** The same [Seek] calls with offsets that stay inside: the target is
    returned and becomes the cursor. *)
Example Seek_from_the_end :
  let rs := [Sub.newMockStringsReader (bytes "abc"); Sub.newMockStringsReader (bytes "def")] in
  (exists m', MRA.Seek 0 (-2) io_SeekEnd (MRA.NewMultiReader 4 2 rs) = (4, None, m') /\
              MRA.absPos m' = 4 /\ MRA.windowStart m' = 4) /\
  (exists m', MRB.Seek 0 (-2) io_SeekEnd (MRB.NewMultiReader 4 2 rs) = (4, None, m') /\
              MRB.windowStart m' = 4).
Proof. split; eexists; vm_compute; repeat split; reflexivity. Qed.

(** *** [Close] *)

Lemma closeReaders_all_ok rs :
  Forall (fun r => Sub.closeErr r = None) rs ->
  closeReaders rs = (None, map (fun r => snd (Sub.Close r)) rs).
Proof.
  induction 1 as [|r rs Hr _ IH]; simpl; [done|]. by rewrite Hr, IH.
Qed.

(** The loop of [Close] returns at the first sub-reader whose [Close]
    fails: the sub-readers after it are left as they were. *)
Lemma closeReaders_first_failure pre r post e :
  Forall (fun r => Sub.closeErr r = None) pre ->
  Sub.closeErr r = Some e ->
  closeReaders (pre ++ r :: post)
  = (Some (Errorf_w "r.Close: " e), map (fun r => snd (Sub.Close r)) pre ++ snd (Sub.Close r) :: post).
Proof.
  intros Hpre Hr. induction Hpre as [|r0 pre Hr0 _ IH]; simpl.
  - by rewrite Hr.
  - by rewrite Hr0, IH.
Qed.

(** C2 (the code departs from the specification): with the sub-readers of the
    test "Close aggregates errors" -- the first fails with A, the second
    with B -- [Close] returns after the first failure.  The error wraps A
    only, and the second and third sub-reader are never closed.  Both
    variants. *)
Theorem Close_stops_at_first_failure :
  let errA := errorString "A" in
  let errB := errorString "B" in
  let a := Sub.with_closeErr errA (Sub.newMockStringsReader (bytes "x")) in
  let b := Sub.with_closeErr errB (Sub.newMockStringsReader (bytes "y")) in
  let c := Sub.newMockStringsReader (bytes "z") in
  let res := Errorf_w "r.Close: " errA in
  (fst (MRA.Close 0 (MRA.NewMultiReader 1048576 4 [a; b; c])) = Some res /\
   map Sub.closed (MRA.readers (snd (MRA.Close 0 (MRA.NewMultiReader 1048576 4 [a; b; c]))))
   = [true; false; false]) /\
  (fst (MRB.Close 0 (MRB.NewMultiReader 1048576 4 [a; b; c])) = Some res /\
   map Sub.closed (MRB.readers (snd (MRB.Close 0 (MRB.NewMultiReader 1048576 4 [a; b; c]))))
   = [true; false; false]) /\
  errors_Is res errA = true /\
  errors_Is res errB = false.
Proof. vm_compute. repeat split; reflexivity. Qed.

End MultiReaderFacts.

(** ** Sub-readers that keep the contract *)

Module ReaderFacts.

(** *** Slices *)

Lemma length_slice a n (l : list byte) :
  0 <= a -> a + Z.of_nat n <= Z.of_nat (length l) -> length (slice a n l) = n.
Proof. intros Ha Hn. unfold slice. rewrite length_take, length_drop. lia. Qed.

Lemma slice_0 a (l : list byte) : slice a 0 l = [].
Proof. done. Qed.

Lemma take_add_drop {A} (l : list A) n1 n2 :
  take (n1 + n2) l = take n1 l ++ take n2 (drop n1 l).
Proof.
  revert l. induction n1 as [|n1 IH]; intros [|x l]; simpl; try done.
  - by rewrite take_nil.
  - by rewrite IH.
Qed.

Lemma take_length_take {A} (l : list A) n : take (length (take n l)) l = take n l.
Proof.
  rewrite length_take. destruct (Nat.min_spec n (length l)) as [[_ ->]|[Hle ->]]; [done|].
  by rewrite !take_ge by lia.
Qed.

Lemma slice_add a n1 n2 (l : list byte) :
  0 <= a ->
  slice a (n1 + n2) l = slice a n1 l ++ slice (a + Z.of_nat n1) n2 l.
Proof.
  intros Ha. unfold slice.
  replace (Z.to_nat (a + Z.of_nat n1)) with (Z.to_nat a + n1)%nat by lia.
  rewrite <- drop_drop. apply take_add_drop.
Qed.

Lemma slice_drop a n k (l : list byte) :
  0 <= a -> (k <= n)%nat ->
  drop k (slice a n l) = slice (a + Z.of_nat k) (n - k) l.
Proof.
  intros Ha Hk. unfold slice.
  replace (Z.to_nat (a + Z.of_nat k)) with (Z.to_nat a + k)%nat by lia.
  rewrite <- drop_drop. generalize (drop (Z.to_nat a) l). intros l'.
  rewrite take_drop_commute. do 2 f_equal. lia.
Qed.

Lemma slice_take a n k (l : list byte) :
  (k <= n)%nat -> take k (slice a n l) = slice a k l.
Proof. intros Hk. unfold slice. rewrite take_take. f_equal. lia. Qed.

(** *** The readers at hand keep the contract *)

(** [strings.Reader] behind [mockStringsReader]: it fills the buffer
    while bytes remain and reports end-of-stream alone. *)
Lemma mockStringsReader_Contract : Reader.Contract Sub.mockStringsReader.
Proof.
  constructor.
  - by intros r Hv.
  - intros r off0 Hv Hoff. simpl in *. unfold Sub.Seek, io_SeekStart. simpl.
    destruct (Z.ltb_spec off0 0) as [|_]; [lia|]. by eexists _, _.
  - intros r lenp Hv Hlen Hoff. simpl in *. unfold Sub.Read.
    destruct (Z.geb_spec (Sub.i r) (Z.of_nat (length (Sub.s r)))) as [Hge|Hlt].
    + eexists [], _, _. split; [done|]. split_and!; try done; simpl; try lia.
      right. split; [done|lia].
    + eexists _, _, _. split; [done|]. simpl.
      set (data := take (Z.to_nat lenp) (drop (Z.to_nat (Sub.i r)) (Sub.s r))).
      assert (Hdl : length data = Nat.min (Z.to_nat lenp) (length (Sub.s r) - Z.to_nat (Sub.i r))).
      { unfold data. by rewrite length_take, length_drop. }
      split_and!; try done; try lia.
      * unfold slice, data. by rewrite take_length_take.
      * left. split; [done|]. left. intros Hnil. rewrite Hnil in Hdl. simpl in Hdl. lia.
Qed.

(** [pieceReader]: empty reads, short reads, and end-of-stream together
    with the last bytes. *)
Lemma pieceReader_Contract : Reader.Contract Piece.pieceReader.
Proof.
  constructor.
  - by intros r Hv.
  - intros r off0 Hv Hoff. simpl in *. unfold Piece.Seek, io_SeekStart. simpl.
    destruct (Z.leb_spec 0 off0) as [_|]; [|lia]. by eexists _, _.
  - intros r lenp Hv Hlen Hoff. simpl in *. unfold Piece.Read.
    destruct (Piece.naps r) as [|k] eqn:Hnaps.
    + set (n := Z.to_nat (Z.min lenp (Piece.piece r))).
      set (data := take n (drop (Z.to_nat (Piece.i r)) (Piece.s r))).
      assert (Hdl : length data = Nat.min n (length (Piece.s r) - Z.to_nat (Piece.i r))).
      { unfold data. by rewrite length_take, length_drop. }
      eexists _, _, _. split; [done|]. simpl. split_and!; try done; try lia.
      * unfold slice, data. by rewrite take_length_take.
      * destruct (Z.geb_spec (Piece.i r + Z.of_nat (length data)) (Z.of_nat (length (Piece.s r))));
          [right; split; [done|lia]|left; split; [done|left]].
        intros Hnil. rewrite Hnil in *. simpl in *. lia.
    + eexists [], _, _. split; [done|]. simpl. split_and!; try done; try lia.
      left. split; [done|]. right. lia.
Qed.

(** *** [sort.Search] *)

Lemma Search_loop_spec fuel i j f :
  i <= j ->
  (j - i <= Z.of_nat fuel) ->
  (forall a b, i <= a -> a <= b -> b < j -> f a = true -> f b = true) ->
  let r := Search_loop fuel i j f in
  i <= r <= j /\ (forall a, i <= a < r -> f a = false) /\ (r < j -> f r = true).
Proof.
  revert i j. induction fuel as [|fuel IH]; intros i j Hij Hfuel Hmono; simpl.
  - assert (i = j) as -> by lia. repeat split; intros; lia.
  - destruct (Z.ltb_spec i j) as [Hlt|Hge].
    + set (h := (i + j) / 2).
      assert (Hh : i <= h < j) by (unfold h; split;
        [apply Z.div_le_lower_bound|apply Z.div_lt_upper_bound]; lia).
      destruct (f h) eqn:Hfh; simpl.
      * destruct (IH i h) as (Hr & Hlow & Hhi); [lia|lia|..].
        { intros a b ? ? ?. apply Hmono; lia. }
        repeat split; try lia; [done|]. intros Hrj.
        destruct (decide (Search_loop fuel i h f = h)) as [->|Hne]; [done|].
        apply Hhi. lia.
      * destruct (IH (h + 1) j) as (Hr & Hlow & Hhi); [lia|lia|..].
        { intros a b ? ? ?. apply Hmono; lia. }
        repeat split; try lia; [|done]. intros a Ha.
        destruct (decide (a <= h)) as [Hah|Hah]; [|apply Hlow; lia].
        destruct (f a) eqn:Hfa; [|done].
        rewrite (Hmono a h) in Hfh; [done|lia..|done].
    + assert (i = j) as -> by lia. repeat split; intros; lia.
Qed.

Section Readers.
Context {R : Type} `{!Reader.SizedReadSeekCloser R} `{!Reader.Abstraction R}.
Context (HR : Reader.Contract R).
Implicit Types (r : R) (rs : list R).

(** *** Prefix sums *)

Lemma off_0 rs : off rs 0 = 0.
Proof. done. Qed.

Lemma off_S rs k r :
  rs !! k = Some r -> off rs (S k) = off rs k + Z.of_nat (length (Reader.content r)).
Proof.
  intros Hr. unfold off, contents.
  rewrite (take_S_r _ _ _ Hr), map_app, concat_app, length_app.
  simpl. rewrite app_nil_r. lia.
Qed.

Lemma off_all rs k : (length rs <= k)%nat -> off rs k = Z.of_nat (length (contents rs)).
Proof. intros Hk. unfold off. by rewrite take_ge. Qed.

Lemma off_mono rs k1 k2 : (k1 <= k2)%nat -> off rs k1 <= off rs k2.
Proof.
  intros Hk. unfold off, contents. replace k2 with (k1 + (k2 - k1))%nat by lia.
  rewrite take_add_drop, map_app, concat_app, length_app. lia.
Qed.

Lemma off_nonneg rs k : 0 <= off rs k.
Proof. unfold off. lia. Qed.

Lemma prefix_from_lookup rs acc k r :
  Forall Reader.valid rs ->
  0 <= acc ->
  acc + Z.of_nat (length (contents rs)) <= MaxInt64 ->
  rs !! k = Some r ->
  prefix_from acc rs !! k = Some (acc + off rs (S k)).
Proof using HR.
  intros Hs. revert acc k. induction Hs as [|r0 rs Hr0 Hs IH]; intros acc k Hacc Hmax Hk.
  - done.
  - unfold contents in Hmax. simpl in Hmax. rewrite length_app in Hmax. simpl.
    rewrite (Reader.Size_content _ HR r0 Hr0).
    rewrite wrap64_small by (unfold int64_range, MinInt64, MaxInt64 in *; lia).
    destruct k as [|k]; simpl.
    + unfold off, contents. simpl. by rewrite app_nil_r.
    + rewrite (IH _ k) by (unfold contents; simpl in *; try lia; done). f_equal.
      unfold off, contents. simpl. rewrite length_app. lia.
Qed.

Lemma prefix_sums_at rs k :
  Forall Reader.valid rs ->
  Z.of_nat (length (contents rs)) <= MaxInt64 ->
  (k <= length rs)%nat ->
  at64 (prefix_sums rs) (Z.of_nat k) = off rs k.
Proof using HR.
  intros Hs Hmax Hk. unfold at64, prefix_sums. rewrite Nat2Z.id.
  destruct k as [|k]; simpl; [done|].
  destruct (lookup_lt_is_Some_2 rs k) as [r Hr]; [lia|].
  rewrite (prefix_from_lookup rs 0 k r) by (try done; lia). simpl. lia.
Qed.

(** *** What the goroutine leaves unchanged *)

Lemma shape_insert rs k r r' :
  rs !! k = Some r -> Reader.content r' = Reader.content r -> Reader.Size r' = Reader.Size r ->
  shape (<[k := r']> rs) = shape rs.
Proof.
  intros Hr Hs Hz. unfold shape. rewrite list_fmap_insert. apply list_insert_id.
  rewrite list_lookup_fmap, Hr. simpl. by rewrite Hs, Hz.
Qed.

Lemma shape_length rs rs' : shape rs' = shape rs -> length rs' = length rs.
Proof.
  intros Hsh. apply (f_equal length) in Hsh. unfold shape in Hsh.
  by rewrite !length_map in Hsh.
Qed.

Lemma shape_contents rs rs' : shape rs' = shape rs -> contents rs' = contents rs.
Proof.
  intros Hsh. apply (f_equal (map fst)) in Hsh. unfold shape in Hsh.
  rewrite !map_map in Hsh. simpl in Hsh. unfold contents.
  by rewrite <- !(map_ext _ _ (fun r => eq_refl (Reader.content r))), Hsh.
Qed.

Lemma shape_prefix_from rs rs' acc :
  shape rs' = shape rs -> prefix_from acc rs' = prefix_from acc rs.
Proof.
  revert rs' acc. induction rs as [|r rs IH]; intros [|r' rs'] acc; try done.
  intros [= Hs Hz Hrest]. simpl. rewrite Hz. f_equal. by apply IH.
Qed.

Lemma shape_prefix_sums rs rs' : shape rs' = shape rs -> prefix_sums rs' = prefix_sums rs.
Proof. intros Hsh. unfold prefix_sums. f_equal. by apply shape_prefix_from. Qed.

(** *** The choice of the sub-reader *)

Lemma select_reader rs curPos cached :
  Forall Reader.valid rs ->
  Z.of_nat (length (contents rs)) <= MaxInt64 ->
  0 <= curPos < Z.of_nat (length (contents rs)) ->
  -1 <= cached < Z.of_nat (length rs) ->
  let P := prefix_sums rs in
  let idx :=
    if (cached <? 0) || negb ((at64 P cached <=? curPos) && (curPos <? at64 P (cached + 1)))
    then sort_Search (Z.of_nat (length rs)) (fun i => at64 P (i + 1) >? curPos)
    else cached in
  exists k r, idx = Z.of_nat k /\ rs !! k = Some r /\ off rs k <= curPos < off rs (S k).
Proof using HR.
  intros Hv Hmax Hpos Hc P idx. set (N := length rs).
  assert (Hat : forall z, 0 <= z <= Z.of_nat N -> at64 P z = off rs (Z.to_nat z)).
  { intros z Hz. rewrite <- (Z2Nat.id z) at 1 by lia. apply prefix_sums_at; [done|done|]. fold N. lia. }
  assert (Hres : 0 <= idx < Z.of_nat N /\ off rs (Z.to_nat idx) <= curPos < off rs (S (Z.to_nat idx))).
  { unfold idx. destruct (_ || _) eqn:Hcond.
    - unfold sort_Search.
      destruct (Search_loop_spec (Z.to_nat (Z.of_nat N)) 0 (Z.of_nat N)
                  (fun i => at64 P (i + 1) >? curPos)) as (Hr & Hlow & Hhi); [lia|lia|..].
      { intros a b Ha Hab Hb. rewrite !Hat by lia. intros Hfa.
        pose proof (off_mono rs (Z.to_nat (a + 1)) (Z.to_nat (b + 1)) ltac:(lia)). lia. }
      set (r := Search_loop _ _ _ _) in *.
      pose proof (off_all rs N ltac:(done)) as Htot.
      assert (Hlt : r < Z.of_nat N).
      { destruct (decide (r < Z.of_nat N)) as [|Hge]; [done|]. exfalso.
        assert (0 < Z.of_nat N).
        { destruct N; [|lia]. pose proof (off_0 rs). lia. }
        specialize (Hlow (Z.of_nat N - 1) ltac:(lia)). simpl in Hlow.
        rewrite Hat in Hlow by lia.
        replace (Z.to_nat (Z.of_nat N - 1 + 1)) with N in Hlow by lia. lia. }
      specialize (Hhi Hlt). simpl in Hhi. rewrite Hat in Hhi by lia.
      replace (Z.to_nat (r + 1)) with (S (Z.to_nat r)) in Hhi by lia.
      split; [lia|]. split; [|lia].
      destruct (decide (r = 0)) as [->|Hne]; [change (Z.to_nat 0) with 0%nat; rewrite off_0; lia|].
      specialize (Hlow (r - 1) ltac:(lia)). simpl in Hlow. rewrite Hat in Hlow by lia.
      replace (Z.to_nat (r - 1 + 1)) with (Z.to_nat r) in Hlow by lia. lia.
    - apply orb_false_iff in Hcond as [Hneg Hin]. apply negb_false_iff, andb_true_iff in Hin.
      destruct Hin as [Hlo Hhi]. rewrite !Hat in * by lia.
      replace (Z.to_nat (cached + 1)) with (S (Z.to_nat cached)) in Hhi by lia. lia. }
  destruct Hres as [Hidx Hoff].
  destruct (lookup_lt_is_Some_2 rs (Z.to_nat idx)) as [r Hr]; [fold N; lia|].
  exists (Z.to_nat idx), r. split; [lia|]. done.
Qed.

(** *** The bytes of one sub-reader inside the concatenation *)

Lemma content_slice_reader rs k r lo n :
  rs !! k = Some r ->
  (lo + n <= length (Reader.content r))%nat ->
  slice (off rs k + Z.of_nat lo) n (contents rs) = take n (drop lo (Reader.content r)).
Proof.
  intros Hr Hn. unfold slice, off, contents.
  rewrite <- (take_drop_middle rs k r Hr) at 2.
  rewrite map_app, concat_app. simpl.
  replace (Z.to_nat (Z.of_nat (length (concat (map Reader.content (take k rs)))) + Z.of_nat lo))
    with (length (concat (map Reader.content (take k rs))) + lo)%nat by lia.
  rewrite drop_app_add, drop_app_le by lia.
  rewrite take_app_le; [done|]. rewrite length_drop. lia.
Qed.

(** *** The empty reads left *)

Lemma idles_insert rs k r r' :
  rs !! k = Some r ->
  (idles (<[k := r']> rs) + Reader.idle r = idles rs + Reader.idle r')%nat.
Proof.
  unfold idles. revert k. induction rs as [|r0 rs IH]; intros [|k] Hr; simplify_eq/=; [lia|].
  specialize (IH k Hr). lia.
Qed.

(** *** [Seek] and [Read] on the chosen sub-reader

    The block that comes back is the bytes of the concatenation at
    [curPos], and it stays within the sub-reader.  Either it is not empty,
    and when the [Read] reports end-of-stream the block ends where the
    sub-reader ends; or it is empty, with a [nil] error, and the
    sub-readers have one empty read less left. *)
Lemma seek_read rs k r curPos toRead :
  Forall Reader.valid rs ->
  rs !! k = Some r ->
  off rs k <= curPos < off rs (S k) ->
  1 <= toRead ->
  exists n r1 data rerr r2,
    Reader.Seek (curPos - off rs k) io_SeekStart r = (n, None, r1) /\
    Reader.Read toRead r1 = (data, rerr, r2) /\
    Z.of_nat (length data) <= toRead /\
    data = slice curPos (length data) (contents rs) /\
    curPos + Z.of_nat (length data) <= off rs (S k) /\
    shape (<[k := r2]> rs) = shape rs /\
    Forall Reader.valid (<[k := r2]> rs) /\
    (idles (<[k := r2]> rs) <= idles rs)%nat /\
    (data <> [] /\
     (rerr = None \/ rerr = Some io_EOF /\ curPos + Z.of_nat (length data) = off rs (S k)) \/
     data = [] /\ rerr = None /\ (idles (<[k := r2]> rs) < idles rs)%nat).
Proof using HR.
  intros Hv Hr Hoff HtoRead.
  pose proof (off_S _ _ _ Hr) as HS. pose proof (off_nonneg rs k) as Hnn.
  assert (Hvr : Reader.valid r) by (by eapply Forall_lookup_1).
  set (lo := curPos - off rs k).
  destruct (Reader.Seek_start _ HR r lo Hvr ltac:(unfold lo; lia))
    as (n & r1 & HSeek & Hv1 & Hc1 & Ho1 & Hi1).
  destruct (Reader.Read_next _ HR r1 toRead Hv1 ltac:(lia) ltac:(rewrite Ho1, Hc1; unfold lo; lia))
    as (data & rerr & r2 & HRead & Hv2 & Hc2 & Hlen & Hin & Hdata & Hi2 & Herr).
  rewrite Ho1, Hc1 in *.
  pose proof (idles_insert rs k r r2 Hr) as Hidles.
  exists n, r1, data, rerr, r2. split_and!; try done.
  - rewrite Hdata at 1. unfold slice.
    replace curPos with (off rs k + Z.of_nat (Z.to_nat lo)) by (unfold lo; lia).
    change (take ?n (drop (Z.to_nat (off rs k + Z.of_nat (Z.to_nat lo))) (contents rs)))
      with (slice (off rs k + Z.of_nat (Z.to_nat lo)) n (contents rs)).
    rewrite content_slice_reader with (r := r); [done|done|lia].
  - unfold lo in Hin. lia.
  - apply shape_insert with r; [done|by rewrite Hc2|].
    rewrite !(Reader.Size_content _ HR) by done. by rewrite Hc2.
  - apply Forall_insert; done.
  - lia.
  - destruct data as [|x data].
    + destruct Herr as [[-> [Hne|Hlt]]|[_ Hend]]; [done| |simpl in Hend; unfold lo in Hend; lia].
      right. split_and!; try done. lia.
    + left. split; [done|].
      destruct Herr as [[-> _]|[-> Hend]]; [by left|right]. split; [done|].
      unfold lo in Hend. lia.
Qed.

End Readers.
End ReaderFacts.

(** ** The MultiReader: reading after a seek *)

Module MultiReaderRead.
Import MRA.

Import ReaderFacts.

Section Read.
Context {R : Type} `{!Reader.SizedReadSeekCloser R} `{!Reader.Abstraction R}.
Context (HR : Reader.Contract R).
Implicit Types (m : MultiReader R) (rs : list R).

Lemma WF_set_readers m rs' :
  WF m -> shape rs' = shape (readers m) -> Forall Reader.valid rs' -> WF (set_readers rs' m).
Proof.
  intros [Hs Hp Ht Hm Hb Hn] Hsh Hv. constructor; simpl; try done.
  - rewrite Hp. symmetry. by apply shape_prefix_sums.
  - rewrite Ht. unfold content. simpl. by rewrite (shape_contents _ _ Hsh).
Qed.

Lemma WF_set_pf m o b : WF m -> WF (set_pf o b m).
Proof. by intros []. Qed.

Lemma WF_set_window m w a c : WF m -> WF (set_window w a c m).
Proof. by intros []. Qed.

(** *** The choice of the sub-reader *)

Lemma wf_at64 m k :
  WF m -> (k <= length (readers m))%nat ->
  at64 (prefixSizes m) (Z.of_nat k) = off (readers m) k.
Proof using HR.
  intros [Hs Hp Ht Hm _ _] Hk. rewrite Hp. apply prefix_sums_at; [done|done| |done].
  unfold content in Ht. lia.
Qed.

Lemma wf_total_off m : WF m -> totalSize m = off (readers m) (length (readers m)).
Proof. intros [_ _ Ht _ _ _]. rewrite Ht. unfold content. by rewrite off_all. Qed.

(** *** One pass of the goroutine from the head of its loop *)

Lemma pfHeadStep_outcome m errCh curPos cached :
  WF m ->
  0 <= curPos < totalSize m ->
  -1 <= cached < Z.of_nat (length (readers m)) ->
  exists g rs',
    pfHeadStep m errCh curPos cached = (g, errCh, rs') /\
    shape rs' = shape (readers m) /\
    Forall Reader.valid rs' /\
    (idles rs' <= idles (readers m))%nat /\
    ((exists data rerr idx,
        g = PfSend data rerr curPos idx /\
        data <> [] /\
        data = slice curPos (length data) (content m) /\
        curPos + Z.of_nat (length data) <= totalSize m /\
        (rerr = None \/
         rerr = Some io_EOF /\
         at64 (prefixSizes m) (idx + 1) = curPos + Z.of_nat (length data)) /\
        0 <= idx < Z.of_nat (length (readers m))) \/
     (exists idx,
        g = PfHead curPos idx /\
        0 <= idx < Z.of_nat (length (readers m)) /\
        (idles rs' < idles (readers m))%nat)).
Proof using HR.
  intros Hwf Hpos Hc.
  pose proof (wf_valid m Hwf) as Hv. pose proof (wf_max m Hwf) as Hmax.
  pose proof (wf_total m Hwf) as Htotal. unfold content in Htotal.
  destruct (select_reader HR (readers m) curPos cached Hv ltac:(lia) ltac:(lia) Hc)
    as (k & r & Hidx & Hr & Hoff).
  simpl in Hidx. rewrite <- (wf_prefix m Hwf) in Hidx. unfold pfHeadStep.
  destruct (Z.geb_spec curPos (totalSize m)) as [|_]; [lia|].
  cbv zeta. rewrite Hidx, Nat2Z.id, Hr.
  assert (Hk : (k < length (readers m))%nat) by (by eapply lookup_lt_Some).
  pose proof (off_S _ _ _ Hr) as HS.
  pose proof (wf_total_off m Hwf) as Htot.
  pose proof (off_mono (readers m) (S k) (length (readers m)) ltac:(lia)) as Hmono.
  rewrite (wf_at64 m k Hwf) by lia.
  replace (Z.of_nat k + 1) with (Z.of_nat (S k)) by lia.
  rewrite (wf_at64 m (S k) Hwf) by lia.
  pose proof (off_nonneg (readers m) k) as Hnn.
  rewrite (wrap64_small (curPos - off (readers m) k))
    by (unfold int64_range, MinInt64, MaxInt64 in *; lia).
  rewrite (wrap64_small (off (readers m) (S k) - curPos))
    by (unfold int64_range, MinInt64, MaxInt64 in *; lia).
  pose proof (wf_bufferSize m Hwf) as Hbs.
  set (toRead := Z.min (off (readers m) (S k) - curPos) (bufferSize m)).
  assert (HtoRead : 1 <= toRead <= off (readers m) (S k) - curPos) by (unfold toRead; lia).
  destruct (seek_read HR (readers m) k r curPos toRead Hv Hr Hoff ltac:(lia))
    as (n & r1 & data & rerr & r2 & -> & HRead & Hdlen & Hdata & Hdin & Hsh & Hv2 & Hle & Hcase).
  destruct (Z.eqb_spec (off (readers m) (S k) - curPos) 0) as [|_]; [lia|].
  destruct (Z.ltb_spec toRead 0) as [|_]; [lia|].
  rewrite HRead.
  destruct Hcase as [[Hdne Herr]|(-> & -> & Hlt)].
  - destruct (Nat.ltb_spec 0 (length data)) as [_|Hz];
      [|by destruct data; [|simpl in Hz; lia]].
    eexists _, _. split; [done|]. split_and!; try done. left.
    exists data, rerr, (Z.of_nat k). split_and!; try done; try lia.
    destruct Herr as [->|[-> Hend]]; [by left|right]. split; [done|].
    replace (Z.of_nat k + 1) with (Z.of_nat (S k)) by lia.
    by rewrite (wf_at64 m (S k) Hwf) by lia.
  - simpl. eexists _, _. split; [done|]. split_and!; try done. right.
    exists (Z.of_nat k). split_and!; try done; lia.
Qed.

(** *** The goroutine keeps the invariant *)

Lemma frame_refl m : frame m m.
Proof. by repeat split. Qed.

Lemma frame_trans m1 m2 m3 : frame m1 m2 -> frame m2 m3 -> frame m1 m3.
Proof.
  intros (? & ? & ? & ? & ? & ? & ? & H12 & ?) (? & ? & ? & ? & ? & ? & ? & H23 & ?).
  repeat split; try congruence; try lia; intros Hs.
  - by apply H23, H12.
  - by apply H12, H23.
Qed.

Lemma pf_ok_ext m m' from p :
  content m' = content m -> totalSize m' = totalSize m ->
  prefixSizes m' = prefixSizes m ->
  length (readers m') = length (readers m) ->
  pf_ok m from p -> pf_ok m' from p.
Proof. unfold pf_ok. intros -> -> -> ->. done. Qed.

Lemma wf_content_length m : WF m -> Z.of_nat (length (content m)) = totalSize m.
Proof. by intros [_ _ -> _ _ _]. Qed.

Lemma pfSent_next m errCh block rerr curPos idx :
  totalSize m <= MaxInt64 ->
  0 <= curPos ->
  curPos + Z.of_nat (length block) <= totalSize m ->
  (rerr = None \/
   rerr = Some io_EOF /\ at64 (prefixSizes m) (idx + 1) = curPos + Z.of_nat (length block)) ->
  0 <= idx < Z.of_nat (length (readers m)) ->
  exists idx',
    pfSent m errCh block rerr curPos idx = (PfHead (curPos + Z.of_nat (length block)) idx', errCh) /\
    -1 <= idx' < Z.of_nat (length (readers m)).
Proof.
  intros Hmax Hpos Hend Hrerr Hidx. unfold pfSent, pfAfter.
  rewrite wrap64_small by (unfold int64_range, MinInt64, MaxInt64 in *; lia).
  destruct Hrerr as [->|[-> ->]]; [exists idx|exists (-1)]; split; try done; lia.
Qed.

Lemma pfStep_Inv m : WF m -> Inv m -> WF (pfStep m) /\ Inv (pfStep m) /\ frame m (pfStep m).
Proof using HR.
  intros Hwf Hinv.
  assert (Hsame : WF m /\ Inv m /\ frame m m) by auto using frame_refl.
  unfold pfStep. destruct (pf m) as [p|] eqn:Hpf; [|done].
  pose proof (inv_pf m Hinv p Hpf) as Hok.
  destruct Hinv as [Hopen Hcur Hstart Hbound Hwin Hst Hidle _].
  set (from := windowStart m + Z.of_nat (length (windowBuf m))) in *.
  pose proof Hok as (Hne & Hq & Hqb & Hg).
  assert (Hstarted : forall p' : prefetch, pfStarted m = true <-> is_Some (Some p')).
  { intros p'. rewrite Hst, Hpf. split; by eexists. }
  assert (Hsome : forall p' : prefetch, is_Some (Some p) <-> is_Some (Some p')).
  { intros p'. split; by eexists. }
  destruct (pfG p) as [curPos idx|block rerr curPos idx| |] eqn:HG; [| |done|done].
  - (* at the head of the loop *)
    destruct Hg as [HcurPos Hidx].
    destruct (decide (curPos < totalSize m)) as [Hlt|Hge].
    + destruct (pfHeadStep_outcome m (pfErrCh p) curPos idx Hwf ltac:(lia) Hidx)
        as (g & rs' & -> & Hsh & Hv' & Hle & Hcase).
      assert (Hc : forall x, content (set_readers rs' x) = content m).
      { intros x. unfold content. simpl. by rewrite (shape_contents _ _ Hsh). }
      split; [|split].
      * apply WF_set_readers; [by apply WF_set_pf|done|done].
      * constructor; simpl; rewrite ?Hc; try done.
        intros p' [= <-]. unfold pf_ok. simpl. rewrite Hc, (shape_length _ _ Hsh).
        fold from.
        destruct Hcase as [(data & rerr & idx' & -> & Hdne & Hdata & Hdb & Hrerr & Hidx')
                          |(idx' & -> & Hidx' & _)];
          repeat split; try done; lia.
      * repeat split; simpl; rewrite ?Hc, ?Hpf; try done; by eexists.
    + assert (curPos = totalSize m) as Htot by lia.
      unfold pfHeadStep. destruct (Z.geb_spec curPos (totalSize m)) as [_|]; [|lia].
      assert (Hc : forall x, content (set_readers (readers m) x) = content m) by done.
      split; [|split].
      * by destruct Hwf.
      * constructor; simpl; rewrite ?Hc; try done.
        intros p' [= <-]. unfold pf_ok. simpl. rewrite Hc.
        fold from. repeat split; try done; lia.
      * repeat split; simpl; rewrite ?Hpf; try done; by eexists.
  - (* in the select *)
    destruct Hg as (HcurPos & Hbne & Hblock & Hbb & Hrerr & Hidx).
    destruct (_ <? _); [|done].
    pose proof (wf_max m Hwf) as Hmax.
    destruct (pfSent_next m (pfErrCh p) block rerr curPos idx Hmax ltac:(lia) Hbb Hrerr Hidx)
      as (idx' & -> & Hidx').
    split; [|split].
    + by destruct Hwf.
    + constructor; simpl; try done.
      intros p' [= <-]. unfold pf_ok. simpl. fold from.
      change (content (set_pf _ _ m)) with (content m).
      rewrite concat_app, length_app. simpl. rewrite app_nil_r.
      repeat split; try lia.
      * apply Forall_app. split; [done|]. by constructor.
      * rewrite slice_add by lia. rewrite <- Hq. f_equal.
        rewrite Hblock at 1. f_equal. lia.
    + repeat split; simpl; rewrite ?Hpf; try done; by eexists.
Qed.

Lemma pfRun_Inv k m : WF m -> Inv m -> WF (pfRun k m) /\ Inv (pfRun k m) /\ frame m (pfRun k m).
Proof using HR.
  revert m. induction k as [|k IH]; intros m Hwf Hinv; simpl.
  - auto using frame_refl.
  - destruct (pfStep_Inv m Hwf Hinv) as (Hwf1 & Hinv1 & Hf1).
    destruct (IH _ Hwf1 Hinv1) as (Hwf2 & Hinv2 & Hf2).
    eauto using frame_trans.
Qed.

(** *** The receive *)

Lemma recv_unfold fuel m :
  recv fuel m =
  match pf m with
  | None => RecvBlocked
  | Some p =>
      match pfBufCh p with
      | b :: q => RecvBlock b (set_pf (Some (Prefetch q (pfErrCh p) (pfG p))) (pfStarted m) m)
      | [] =>
          match pfG p with
          | PfExited => RecvClosed (pfErrCh p) (set_pf (Some (Prefetch [] None PfExited)) (pfStarted m) m)
          | PfPanicked => RecvPanic
          | PfSend block rerr curPos idx =>
              let '(g, errCh) := pfSent m (pfErrCh p) block rerr curPos idx in
              RecvBlock block (set_pf (Some (Prefetch [] errCh g)) (pfStarted m) m)
          | PfHead _ _ =>
              match fuel with
              | O => RecvBlocked
              | S fuel' => recv fuel' (pfStep m)
              end
          end
      end
  end.
Proof. by destruct fuel. Qed.

Lemma recv_ready fuel m p :
  WF m -> Inv m -> pf m = Some p ->
  windowBuf m = [] ->
  windowStart m < totalSize m ->
  match pfG p with PfHead _ _ => pfBufCh p <> [] | _ => True end ->
  exists buf m', recv fuel m = RecvBlock buf m' /\ received m buf m'.
Proof using HR.
  intros Hwf Hinv Hpf Hw Hlt Hready. rewrite recv_unfold, Hpf.
  pose proof (inv_pf m Hinv p Hpf) as Hok. rewrite Hw in Hok. simpl in Hok.
  rewrite Z.add_0_r in Hok.
  destruct Hinv as [Hopen Hcur Hstart Hbound Hwin Hst Hidle _].
  pose proof (wf_max m Hwf) as Hmax.
  pose proof (wf_content_length m Hwf) as Hlen.
  assert (Hstarted : forall p' : prefetch, pfStarted m = true <-> is_Some (Some p')).
  { intros p'. rewrite Hst, Hpf. split; by eexists. }
  destruct Hok as (Hne & Hq & Hqb & Hg).
  destruct (pfBufCh p) as [|b q] eqn:Hqe.
  - simpl in *. rewrite Z.add_0_r in *.
    destruct (pfG p) as [curPos idx|block rerr curPos idx| |]; [done| |lia|done].
    destruct Hg as (-> & Hbne & Hblock & Hbb & Hrerr & Hidx).
    destruct (pfSent_next m (pfErrCh p) block rerr (windowStart m) idx Hmax ltac:(lia) Hbb Hrerr Hidx)
      as (idx' & -> & Hidx').
    eexists _, _. split; [done|]. unfold received. simpl. rewrite Hw. simpl.
    split; [done|]. split; [by destruct Hwf|]. split; [|by eauto].
    constructor; simpl; try done; try lia.
    intros p' [= <-]. unfold pf_ok. simpl. repeat split; try done; lia.
  - apply Forall_cons in Hne as [Hbne Hne]. simpl in Hq, Hqb, Hg.
    rewrite length_app in Hq, Hqb, Hg.
    rewrite slice_add in Hq by lia.
    apply app_inj_1 in Hq as [Hb Hcq]; [|rewrite length_slice; lia].
    eexists _, _. split; [done|]. unfold received. simpl. rewrite Hw. simpl.
    split; [done|]. split; [by destruct Hwf|]. split; [|by eauto].
    constructor; simpl; try done; try lia.
    intros p' [= <-]. unfold pf_ok. simpl. repeat split; try done; try lia.
    destruct (pfG p); try done; (repeat split; try tauto; lia).
Qed.

Lemma received_frame m1 m buf m' :
  frame m m1 -> received m1 buf m' -> received m buf m'.
Proof.
  intros (_ & Hs & _ & Ht & Hc & _ & _ & _ & Hi) (? & ? & ? & ? & Hs' & Ht' & Hc' & ? & Hi').
  unfold received. rewrite <- Hs, <- Ht, <- Hc. split_and!; try done. lia.
Qed.

(** With nothing in the window the receive delivers a block, once the
    goroutine has had one action for each empty read and one more. *)
Lemma recv_block fuel :
  forall m,
    WF m -> Inv m -> is_Some (pf m) ->
    windowBuf m = [] ->
    windowStart m < totalSize m ->
    (idles (readers m) < fuel)%nat ->
    exists buf m', recv fuel m = RecvBlock buf m' /\ received m buf m'.
Proof using HR.
  induction fuel as [|fuel IH]; intros m Hwf Hinv [p Hpf] Hw Hlt Hfuel; [lia|].
  destruct (pfG p) as [curPos idx|block rerr curPos idx| |] eqn:HG;
    [|by apply recv_ready with p; rewrite ?HG..].
  destruct (pfBufCh p) as [|b q] eqn:Hqe;
    [|by apply recv_ready with p; rewrite ?HG, ?Hqe].
  (* nothing buffered and the goroutine at the head of its loop: it runs *)
  rewrite recv_unfold, Hpf, Hqe, HG.
  destruct (pfStep_Inv m Hwf Hinv) as (Hwf1 & Hinv1 & Hf1).
  pose proof (inv_pf m Hinv p Hpf) as (_ & _ & _ & Hg). rewrite HG, Hqe, Hw in Hg.
  simpl in Hg. destruct Hg as [HcurPos Hidx]. pose proof (inv_start m Hinv) as Hstart.
  destruct (pfHeadStep_outcome m (pfErrCh p) curPos idx Hwf ltac:(lia) Hidx)
    as (g & rs' & Hstep & _ & _ & Hle & Hcase).
  assert (Hpf1 : pf (pfStep m) = Some (Prefetch [] (pfErrCh p) g) /\ readers (pfStep m) = rs').
  { unfold pfStep. by rewrite Hpf, HG, Hstep, Hqe. }
  destruct Hpf1 as [Hpf1 Hrs1].
  pose proof Hf1 as (Hw1 & Hs1 & Ha1 & Ht1 & Hc1 & _).
  assert (Hgo : exists buf m', recv fuel (pfStep m) = RecvBlock buf m' /\
                               received (pfStep m) buf m').
  { destruct Hcase as [(data & rerr & idx' & -> & _)|(idx' & -> & _ & Hlt')].
    - apply recv_ready with (Prefetch [] (pfErrCh p) (PfSend data rerr curPos idx'));
        try done; [congruence|lia].
    - apply IH; try done; [congruence|lia|]. rewrite Hrs1. lia. }
  destruct Hgo as (buf & m' & Hrecv & Hrcv). exists buf, m'. split; [done|].
  by apply (received_frame (pfStep m)).
Qed.

(** *** The loop of [Read] *)

Lemma Read_loop_done fuel sched m (p : list byte) n :
  (length p <= n)%nat ->
  Read_loop fuel sched m p n = ReadRet (Z.of_nat n) None p m.
Proof.
  intros Hn. destruct fuel; simpl; by destruct (Nat.ltb_spec n (length p)); [lia|].
Qed.

Lemma pf_ok_shift m m' from from' p :
  from' = from -> content m' = content m -> totalSize m' = totalSize m ->
  prefixSizes m' = prefixSizes m ->
  length (readers m') = length (readers m) ->
  pf_ok m from p -> pf_ok m' from' p.
Proof. intros -> ? ? ? ?. by apply pf_ok_ext. Qed.

Lemma Read_loop_correct fuel :
  forall sched m (p : list byte) n t,
    WF m -> Inv m -> is_Some (pf m) ->
    (n <= length p)%nat ->
    0 <= t ->
    windowStart m = t + Z.of_nat n ->
    t + Z.of_nat (length p) <= totalSize m ->
    take n p = slice t n (content m) ->
    (2 * (length p - n) + (if windowBuf m is [] then 1 else 0) + idles (readers m) <= fuel)%nat ->
    exists m',
      Read_loop fuel sched m p n
      = ReadRet (Z.of_nat (length p)) None (slice t (length p) (content m)) m' /\
      WF m' /\ Inv m' /\
      windowStart m' = t + Z.of_nat (length p) /\
      totalSize m' = totalSize m /\ content m' = content m /\
      (idles (readers m') <= idles (readers m))%nat.
Proof using HR.
  induction fuel as [|f IH]; intros sched m p n t Hwf Hinv Hpf Hn Ht Hws Hend Hp Hfuel.
  { assert (n = length p) as -> by (destruct (windowBuf m); lia).
    rewrite Read_loop_done by lia. rewrite take_ge in Hp by lia. rewrite <- Hp. eauto 10. }
  destruct (decide (n = length p)) as [->|Hne].
  { rewrite Read_loop_done by lia. rewrite take_ge in Hp by lia. rewrite <- Hp. eauto 10. }
  simpl. destruct (Nat.ltb_spec n (length p)) as [Hlt|]; [|lia].
  destruct (pfRun_Inv (hd O sched) m Hwf Hinv) as (Hwf1 & Hinv1 & Hf1).
  destruct Hf1 as (Hw1 & Hs1 & Ha1 & Ht1 & Hc1 & Hcl1 & Hst1 & Hsome1 & Hi1).
  set (m1 := pfRun (hd O sched) m) in *.
  pose proof (wf_max m Hwf) as Hmax.
  pose proof (wf_content_length m Hwf) as Hlen.
  rewrite Hw1 in *.
  destruct (windowBuf m) as [|x w] eqn:Hwin.
  - (* the window is empty: receive a block *)
    destruct (recv_block f m1 Hwf1 Hinv1) as (buf & m' & -> & Hrcv);
      [by apply Hsome1|congruence|lia|lia|].
    destruct Hrcv as (Hbne & Hwf2 & Hinv2 & Hw2 & Hs2 & Ht2 & Hc2 & Hpf2 & Hi2).
    set (m2 := set_window (windowBuf m' ++ buf) (windowStart m') (absPos m') m') in *.
    destruct (IH (tl sched) m2 p n t Hwf2 Hinv2 Hpf2 Hn Ht) as (m3 & -> & ? & ? & ? & ? & ? & ?).
    + by rewrite Hs2, Hs1.
    + by rewrite Ht2, Ht1.
    + by rewrite Hc2, Hc1.
    + rewrite Hw2. destruct buf; [done|]. simpl in Hfuel. lia.
    + exists m3. rewrite Hc2, Hc1, Ht2, Ht1 in *. split_and!; try done. lia.
  - (* the window holds bytes: copy *)
    set (win := x :: w) in *.
    set (toCopy := Nat.min (length p - n) (length win)).
    assert (HtoCopy : (1 <= toCopy <= length p - n)%nat /\ (toCopy <= length win)%nat).
    { unfold toCopy, win. simpl. lia. }
    pose proof (inv_window m Hinv) as Hwinv. rewrite Hwin in Hwinv. fold win in Hwinv.
    pose proof (inv_bound m Hinv) as Hbound. rewrite Hwin in Hbound. fold win in Hbound.
    pose proof (inv_cursor m Hinv) as Hcur.
    set (p' := take n p ++ take toCopy win ++ drop (n + toCopy) p).
    assert (Hlenp' : length p' = length p).
    { unfold p'. rewrite !length_app, !length_take, length_drop. lia. }
    assert (Hp' : take (n + toCopy) p' = slice t (n + toCopy) (content m)).
    { unfold p'. rewrite app_assoc, take_app_le by (rewrite length_app, !length_take; lia).
      rewrite take_ge by (rewrite length_app, !length_take; lia).
      rewrite slice_add by lia. rewrite Hp. f_equal.
      rewrite Hwinv, slice_take by lia. by rewrite Hws. }
    rewrite Ha1, Hs1, Hcur.
    rewrite wrap64_small by (unfold int64_range, MinInt64, MaxInt64 in *; lia).
    set (m2 := set_window (drop toCopy win) (windowStart m + Z.of_nat toCopy)
                          (windowStart m + Z.of_nat toCopy) m1).
    assert (Hwf2 : WF m2) by (by apply WF_set_window).
    assert (Hinv2 : Inv m2).
    { destruct Hinv1 as [Hopen1 Hcur1 Hstart1 Hbound1 Hwin1 Hstt1 Hidle1 Hpfok1].
      constructor; simpl; try done; try lia.
      - rewrite length_drop. lia.
      - change (content m2) with (content m1). rewrite Hc1.
        rewrite Hwinv at 1. rewrite slice_drop by lia. by rewrite length_drop.
      - intros Hnone. apply Hsome1 in Hpf. rewrite Hnone in Hpf. by destruct Hpf.
      - intros p0 Hp0. apply pf_ok_shift with m1 (windowStart m1 + Z.of_nat (length (windowBuf m1)));
          try done; [|by apply Hpfok1].
        rewrite Hw1, Hs1, length_drop. lia. }
    destruct (Nat.eqb_spec (n + toCopy) (length p)) as [Heq|Hneq].
    + exists m2. split; [|split_and!; try done; simpl; lia].
      rewrite Heq in Hp' |- *. rewrite take_ge in Hp' by lia. by rewrite Hp'.
    + assert (Hc2 : content m2 = content m) by (by rewrite <- Hc1).
      assert (Ht2 : totalSize m2 = totalSize m) by (by rewrite <- Ht1).
      destruct (IH (tl sched) m2 p' (n + toCopy)%nat t Hwf2 Hinv2)
        as (m3 & -> & ? & ? & ? & ? & ? & Hi3).
      * by apply Hsome1.
      * lia.
      * done.
      * simpl. lia.
      * rewrite Hlenp', Ht2. lia.
      * by rewrite Hc2.
      * rewrite Hlenp'. change (readers m2) with (readers m1).
        destruct (windowBuf m2); simpl in Hfuel; lia.
      * exists m3. rewrite Hlenp', Hc2, Ht2 in *. split_and!; try done.
        change (readers m2) with (readers m1) in Hi3. lia.
Qed.

(** *** [Read] on a reader that satisfies the invariant *)

Lemma Read_correct fuel sched m (p : list byte) :
  WF m -> Inv m ->
  absPos m + Z.of_nat (length p) <= totalSize m ->
  (2 * length p + 1 + idles (readers m) <= fuel)%nat ->
  exists m',
    Read fuel sched p m
    = ReadRet (Z.of_nat (length p))
              (if absPos m =? totalSize m then Some io_EOF else None)
              (slice (absPos m) (length p) (content m)) m' /\
    WF m' /\ Inv m' /\ totalSize m' = totalSize m /\ content m' = content m /\
    absPos m' = absPos m + Z.of_nat (length p) /\
    (idles (readers m') <= idles (readers m))%nat.
Proof using HR.
  intros Hwf Hinv Hend Hfuel. unfold Read.
  rewrite (inv_open m Hinv).
  destruct (Z.eqb_spec (absPos m) (totalSize m)) as [Heq|Hne].
  { assert (length p = 0%nat) as Hp0 by lia. destruct p; [|done]. exists m.
    rewrite slice_0. split_and!; try done. simpl. lia. }
  pose proof (wf_buffersNum m Hwf) as Hnum.
  destruct (Z.ltb_spec (buffersNum m) 0) as [|_]; [lia|]. rewrite andb_false_r.
  pose proof (inv_cursor m Hinv) as Hcur. pose proof (inv_start m Hinv) as Hstart.
  set (m1 := startPrefetchLocked (absPos m) m).
  assert (H1 : WF m1 /\ Inv m1 /\ is_Some (pf m1) /\ windowStart m1 = windowStart m /\
               totalSize m1 = totalSize m /\ content m1 = content m /\
               windowBuf m1 = windowBuf m /\ readers m1 = readers m).
  { unfold m1, startPrefetchLocked. destruct (pfStarted m) eqn:Hst.
    - split_and!; try done. by apply (inv_started m Hinv).
    - assert (Hnone : pf m = None).
      { destruct (pf m) eqn:Hpf; [|done]. destruct (inv_started m Hinv) as [_ Hs].
        rewrite Hs in Hst; [done|by eexists]. }
      pose proof (inv_idle m Hinv Hnone) as Hw.
      split_and!; try done; [by apply WF_set_pf|].
      destruct Hinv as [Hopen _ _ Hbound Hwin _ _ _].
      constructor; simpl; try done.
      intros p0 [= <-]. unfold pf_ok. simpl. rewrite Hw. simpl.
      split_and!; try done; try lia. }
  destruct H1 as (Hwf1 & Hinv1 & Hpf1 & Hs1 & Ht1 & Hc1 & Hw1 & Hr1).
  destruct (Read_loop_correct fuel sched m1 p 0 (absPos m) Hwf1 Hinv1 Hpf1)
    as (m' & -> & ? & ? & ? & ? & ? & ?).
  - lia.
  - lia.
  - rewrite Hs1. lia.
  - rewrite Ht1. lia.
  - done.
  - rewrite Hr1. destruct (windowBuf m1); lia.
  - exists m'. rewrite Hc1, Ht1, Hr1 in *. split_and!; try done.
    rewrite (inv_cursor m') by done. lia.
Qed.

(** *** [Seek] keeps the invariant *)

Lemma pfStep_set_window w a c m :
  pfStep (set_window w a c m) = set_window w a c (pfStep m).
Proof.
  unfold pfStep. simpl. destruct (pf m) as [p|]; [|done].
  destruct (pfG p) as [curPos idx|block rerr curPos idx| |]; try done.
  - change (pfHeadStep (set_window w a c m)) with (pfHeadStep m).
    by destruct (pfHeadStep m (pfErrCh p) curPos idx) as [[g e] rs].
  - destruct (_ <? _); [|done].
    change (pfSent (set_window w a c m)) with (pfSent m).
    by destruct (pfSent m (pfErrCh p) block rerr curPos idx).
Qed.

Lemma pfRun_set_window k w a c m :
  pfRun k (set_window w a c m) = set_window w a c (pfRun k m).
Proof.
  revert m. induction k as [|k IH]; intros m; simpl; [done|].
  by rewrite pfStep_set_window, IH.
Qed.

Lemma Seek_Inv ahead t m :
  WF m -> Inv m ->
  0 <= t <= totalSize m ->
  exists m',
    Seek ahead t io_SeekStart m = (t, None, m') /\
    WF m' /\ Inv m' /\ absPos m' = t /\
    totalSize m' = totalSize m /\ content m' = content m /\
    (idles (readers m') <= idles (readers m))%nat.
Proof using HR.
  intros Hwf Hinv Ht. unfold Seek. rewrite (inv_open m Hinv). simpl.
  destruct (Z.ltb_spec t 0) as [|_]; [lia|].
  destruct (Z.gtb_spec t (totalSize m)) as [|_]; [lia|]. simpl.
  pose proof (wf_max m Hwf) as Hmax.
  pose proof Hinv as [Hopen Hcur Hstart Hbound Hwin Hst Hidle Hpfok].
  rewrite wrap64_small by (unfold int64_range, MinInt64, MaxInt64 in *; lia).
  assert (Hout : forall m0,
            m0 = (if pfStarted m
                  then resetPrefetchLocked ahead (set_window [] (windowStart m) (absPos m) m)
                  else set_window [] (windowStart m) (absPos m) m) ->
            let m' := set_window (windowBuf m0) t t m0 in
            WF m' /\ Inv m' /\ absPos m' = t /\ totalSize m' = totalSize m /\
            content m' = content m /\ (idles (readers m') <= idles (readers m))%nat).
  { intros m0 ->. destruct (pfStarted m) eqn:Hstarted; simpl.
    - unfold resetPrefetchLocked. rewrite pfRun_set_window.
      destruct (pfRun_Inv ahead m Hwf Hinv) as (Hwf1 & _ & Hf1).
      destruct Hf1 as (_ & _ & _ & Ht1 & Hc1 & Hcl1 & _ & _ & Hi1).
      split; [by destruct Hwf1|]. split; [|done].
      constructor; simpl; rewrite ?Hcl1, ?Ht1; try done; try lia;
        try (split; [done|by intros [? ?]]).
    - split; [by destruct Hwf|]. split; [|done].
      assert (Hnone : pf m = None).
      { destruct (pf m) as [p0|] eqn:Hpf; [|done].
        assert (Hsm : is_Some (Some p0)) by (by eexists). by apply Hst in Hsm. }
      constructor; simpl; rewrite ?Hstarted, ?Hnone; try done; try lia. }
  destruct (Z.leb_spec 0 (t - windowStart m)) as [Hd0|Hd0]; simpl;
    [destruct (Z.ltb_spec (t - windowStart m) (Z.of_nat (length (windowBuf m)))) as [Hd1|Hd1]|].
  - (* inside the window *)
    eexists. split; [done|]. split; [by destruct Hwf|]. split; [|done].
    constructor; simpl; try done; try lia.
    + rewrite length_drop. lia.
    + rewrite Hwin at 1. rewrite slice_drop by lia. rewrite length_drop.
      f_equal. lia.
    + intros Hnone. rewrite (Hidle Hnone) in Hd1. simpl in Hd1. lia.
    + intros p Hp. apply pf_ok_shift with m (windowStart m + Z.of_nat (length (windowBuf m)));
        try done; [|by apply Hpfok].
      rewrite length_drop. lia.
  - (* outside: the window is dropped and the prefetch reset *)
    eexists. split; [done|]. by apply Hout.
  - eexists. split; [done|]. by apply Hout.
Qed.

(** *** A fresh reader *)

Lemma NewMultiReader_Inv buffersSize buffersNum rs :
  Forall Reader.valid rs ->
  Z.of_nat (length (contents rs)) <= MaxInt64 ->
  1 <= buffersSize -> 0 <= buffersNum ->
  WF (NewMultiReader buffersSize buffersNum rs) /\
  Inv (NewMultiReader buffersSize buffersNum rs).
Proof using HR.
  intros Hs Hmax Hb Hn.
  assert (Htot : at64 (prefix_sums rs) (Z.of_nat (length rs)) = Z.of_nat (length (contents rs))).
  { rewrite prefix_sums_at by done. by apply off_all. }
  split.
  - constructor; simpl; try done; by rewrite Htot.
  - constructor; simpl; try done; try lia.
Qed.

(** *** Seek-read consistency *)

(** C1: the sub-readers are any implementation of [SizedReadSeekCloser]
    that keeps the contract of the interface ([Reader.Contract]): a [Read]
    may be short, may be empty, and may report end-of-stream with its last
    bytes.  On a reader that satisfies the invariant of an open MultiReader,
    for every target [t] in [[0, totalSize]] and every destination [p] with
    [t + len(p) <= totalSize], [Seek(t, Start)] succeeds and the [Read] that
    follows fills [p] with the bytes [[t, t + len(p))] of the concatenation
    of the sub-readers' contents, whatever the goroutine does in between
    ([ahead], [sched]), once the fuel covers the iterations of [Read] and
    the empty reads the sub-readers have left.  The error of that [Read] is
    [nil], or end-of-stream when [t] is the total size (and [p] is empty).
    In particular a fresh reader over the sub-readers [rs] delivers the
    concatenation of their contents to a [Read] of [totalSize] bytes. *)
Theorem Seek_then_Read ahead sched fuel (p : list byte) :
  (forall m t,
     WF m -> Inv m ->
     0 <= t <= totalSize m ->
     t + Z.of_nat (length p) <= totalSize m ->
     (2 * length p + 1 + idles (readers m) <= fuel)%nat ->
     exists m1 m2,
       Seek ahead t io_SeekStart m = (t, None, m1) /\
       Read fuel sched p m1
       = ReadRet (Z.of_nat (length p)) (if t =? totalSize m then Some io_EOF else None)
                 (slice t (length p) (content m)) m2 /\
       WF m2 /\ Inv m2 /\ absPos m2 = t + Z.of_nat (length p) /\
       totalSize m2 = totalSize m /\ content m2 = content m) /\
  (forall buffersSize buffersNum rs,
     Forall Reader.valid rs ->
     1 <= buffersSize -> 0 <= buffersNum ->
     Z.of_nat (length (contents rs)) <= MaxInt64 ->
     length p = length (contents rs) ->
     (2 * length p + 1 + idles rs <= fuel)%nat ->
     exists m',
       Read fuel sched p (NewMultiReader buffersSize buffersNum rs)
       = ReadRet (Z.of_nat (length p)) (if length p is O then Some io_EOF else None)
                 (contents rs) m').
Proof using HR.
  split.
  - intros m t Hwf Hinv Ht Hend Hfuel.
    destruct (Seek_Inv ahead t m Hwf Hinv Ht) as (m1 & HS & Hwf1 & Hinv1 & Ha1 & Ht1 & Hc1 & Hi1).
    destruct (Read_correct fuel sched m1 p Hwf1 Hinv1)
      as (m2 & HRd & Hwf2 & Hinv2 & Ht2 & Hc2 & Ha2 & _); [rewrite Ha1, Ht1; lia|lia|].
    exists m1, m2. rewrite Ha1, Ht1, Hc1 in *. done.
  - intros buffersSize buffersNum rs Hv Hb Hn Hmax Hlen Hfuel.
    destruct (NewMultiReader_Inv buffersSize buffersNum rs) as [Hwf Hinv]; [done..|].
    set (m := NewMultiReader buffersSize buffersNum rs) in *.
    assert (Htot : totalSize m = Z.of_nat (length (contents rs))) by apply (wf_total m Hwf).
    destruct (Read_correct fuel sched m p Hwf Hinv) as (m' & HRd & _);
      [change (absPos m) with 0; rewrite Htot; lia|done|].
    exists m'. rewrite HRd. change (absPos m) with 0. f_equal.
    + rewrite Htot, <- Hlen. by destruct (length p).
    + unfold slice, content. change (readers m) with rs. rewrite Hlen. by rewrite take_ge.
Qed.

End Read.

(** In the first run the sub-readers answer their first [Read] with
    [(0, nil)], return two bytes at most per [Read] after that, and report
    end-of-stream with their last bytes: of "abc" the goroutine gets
    nothing, then "ab", then "c" with [io.EOF].  In the second run they
    are the [mockStringsReader] of the tests. *)
Lemma Seek_then_Read_witness :
  let m := NewMultiReader 4 2 [Piece.newPieceReader 2 1 (bytes "abc");
                                Piece.newPieceReader 2 1 (bytes "defg")] in
  let m' := NewMultiReader 4 2 [Sub.newMockStringsReader (bytes "abc");
                                 Sub.newMockStringsReader (bytes "defg")] in
  let p := bytes "000" in
  (Reader.Contract Piece.pieceReader /\ WF m /\ Inv m /\ 0 <= 2 <= totalSize m /\
   2 + Z.of_nat (length p) <= totalSize m /\
   (2 * length p + 1 + idles (readers m) <= 9)%nat) /\
  (Reader.Contract Sub.mockStringsReader /\ WF m' /\ Inv m' /\ 0 <= 2 <= totalSize m' /\
   2 + Z.of_nat (length p) <= totalSize m' /\
   (2 * length p + 1 + idles (readers m') <= 9)%nat) /\
  (exists m1 m2,
     Seek 3 2 io_SeekStart m = (2, None, m1) /\
     Read 9 [1; 0; 2]%nat p m1 = ReadRet 3 None (bytes "cde") m2 /\
     WF m2 /\ Inv m2 /\ absPos m2 = 5 /\
     totalSize m2 = totalSize m /\ content m2 = content m) /\
  (exists m1 m2,
     Seek 3 2 io_SeekStart m' = (2, None, m1) /\
     Read 9 [1; 0; 2]%nat p m1 = ReadRet 3 None (bytes "cde") m2 /\
     WF m2 /\ Inv m2 /\ absPos m2 = 5 /\
     totalSize m2 = totalSize m' /\ content m2 = content m').
Proof.
  intros m m' p.
  assert (Hm : WF m /\ Inv m).
  { apply (NewMultiReader_Inv pieceReader_Contract 4 2);
      [by repeat constructor|vm_compute; discriminate|lia|lia]. }
  assert (Hm' : WF m' /\ Inv m').
  { apply (NewMultiReader_Inv mockStringsReader_Contract 4 2);
      [by repeat constructor|vm_compute; discriminate|lia|lia]. }
  assert (H1 : 0 <= 2 <= totalSize m) by (vm_compute; split; discriminate).
  assert (H2 : 2 + Z.of_nat (length p) <= totalSize m) by (vm_compute; discriminate).
  assert (H3 : (2 * length p + 1 + idles (readers m) <= 9)%nat) by (vm_compute; lia).
  assert (H1' : 0 <= 2 <= totalSize m') by (vm_compute; split; discriminate).
  assert (H2' : 2 + Z.of_nat (length p) <= totalSize m') by (vm_compute; discriminate).
  assert (H3' : (2 * length p + 1 + idles (readers m') <= 9)%nat) by (vm_compute; lia).
  split; [split; [exact pieceReader_Contract|tauto]|].
  split; [split; [exact mockStringsReader_Contract|tauto]|].
  split.
  - exact (proj1 (Seek_then_Read pieceReader_Contract 3 [1; 0; 2]%nat 9 p)
                 m 2 (proj1 Hm) (proj2 Hm) H1 H2 H3).
  - exact (proj1 (Seek_then_Read mockStringsReader_Contract 3 [1; 0; 2]%nat 9 p)
                 m' 2 (proj1 Hm') (proj2 Hm') H1' H2' H3').
Defined.

(** The blocks the goroutine publishes over such sub-readers when it runs
    ahead: an empty read publishes nothing, "ab" is a short read, "c"
    comes with [io.EOF], and so on to the end of the stream, where the
    goroutine leaves [io.EOF] and exits. *)
Example prefetch_in_pieces :
  let m := NewMultiReader 4 8 [Piece.newPieceReader 2 1 (bytes "abc");
                                Piece.newPieceReader 2 1 (bytes "defg")] in
  pf (pfRun 11 (startPrefetchLocked 0 m))
  = Some (Prefetch [bytes "ab"; bytes "c"; bytes "de"; bytes "fg"] (Some io_EOF) PfExited).
Proof. vm_compute. reflexivity. Qed.

(** The runs of the witness on the model. *)
Example Seek_then_Read_runs :
  let run {R} `{!Reader.SizedReadSeekCloser R} (m : MultiReader R) :=
    match Seek 3 2 io_SeekStart m with
    | (2, None, m1) =>
        match Read 9 [1; 0; 2]%nat (bytes "000") m1 with
        | ReadRet n err p m2 => Some (n, err, p, absPos m2)
        | _ => None
        end
    | _ => None
    end in
  run (NewMultiReader 4 2 [Piece.newPieceReader 2 1 (bytes "abc");
                           Piece.newPieceReader 2 1 (bytes "defg")])
  = Some (3, None, bytes "cde", 5) /\
  run (NewMultiReader 4 2 [Sub.newMockStringsReader (bytes "abc");
                           Sub.newMockStringsReader (bytes "defg")])
  = Some (3, None, bytes "cde", 5).
Proof. vm_compute. split; reflexivity. Qed.

End MultiReaderRead.

(** ** The MultiReader whose cursor is [windowStart]: the invariant *)

Module MultiReaderReadB.
Import MRB ReaderFacts.

Section Read.
Context {R : Type} `{!Reader.SizedReadSeekCloser R} `{!Reader.Abstraction R}.
Context (HR : Reader.Contract R).
Implicit Types (m : MultiReader R) (rs : list R).

Lemma WF_B_set_readers m rs' :
  WF m -> shape rs' = shape (readers m) -> Forall Reader.valid rs' -> WF (set_readers rs' m).
Proof.
  intros [Hs Hp Hm Hb Hn] Hsh Hv. constructor; simpl; try done.
  - rewrite Hp. symmetry. by apply shape_prefix_sums.
  - unfold content. simpl. by rewrite (shape_contents _ _ Hsh).
Qed.

Lemma wf_B_at64 m k :
  WF m -> (k <= length (readers m))%nat ->
  at64 (prefixSizes m) (Z.of_nat k) = off (readers m) k.
Proof using HR.
  intros [Hs Hp Hm _ _] Hk. rewrite Hp. by apply prefix_sums_at.
Qed.

(** [Size] is the length of the concatenation. *)
Lemma wf_B_Size m : WF m -> Size m = Z.of_nat (length (content m)).
Proof using HR.
  intros Hwf. unfold Size. rewrite (wf_B_at64 m _ Hwf) by done. by apply off_all.
Qed.

Lemma Size_set_readers m rs' :
  length rs' = length (readers m) -> Size (set_readers rs' m) = Size m.
Proof. intros Hl. unfold Size. simpl. by rewrite Hl. Qed.

(** *** One pass of the goroutine from the head of its loop *)

Lemma pfHeadStep_B_outcome m errCh curPos :
  WF m ->
  0 <= curPos < Size m ->
  exists g rs',
    pfHeadStep m errCh curPos = (g, errCh, rs') /\
    shape rs' = shape (readers m) /\
    Forall Reader.valid rs' /\
    (idles rs' <= idles (readers m))%nat /\
    ((exists data rerr idx,
        g = PfSend data rerr curPos idx /\
        data <> [] /\
        data = slice curPos (length data) (content m) /\
        curPos + Z.of_nat (length data) <= Size m /\
        (rerr = None \/
         rerr = Some io_EOF /\
         at64 (prefixSizes m) (idx + 1) = curPos + Z.of_nat (length data))) \/
     (g = PfHead curPos (-1) /\ (idles rs' < idles (readers m))%nat)).
Proof using HR.
  intros Hwf Hpos.
  pose proof (wf_valid m Hwf) as Hv. pose proof (wf_max m Hwf) as Hmax.
  pose proof (wf_B_Size m Hwf) as Htotal. unfold content in Htotal, Hmax.
  destruct (select_reader HR (readers m) curPos (-1) Hv ltac:(lia) ltac:(lia) ltac:(lia))
    as (k & r & Hidx & Hr & Hoff).
  simpl in Hidx. rewrite <- (wf_prefix m Hwf) in Hidx. unfold pfHeadStep.
  destruct (Z.ltb_spec curPos (Size m)) as [_|]; [|lia].
  cbv zeta. simpl negb. cbv iota. rewrite Hidx, Nat2Z.id, Hr.
  assert (Hk : (k < length (readers m))%nat) by (by eapply lookup_lt_Some).
  pose proof (off_S _ _ _ Hr) as HS.
  pose proof (off_all (readers m) (length (readers m)) ltac:(done)) as Htot.
  pose proof (off_mono (readers m) (S k) (length (readers m)) ltac:(lia)) as Hmono.
  rewrite (wf_B_at64 m k Hwf) by lia.
  replace (Z.of_nat k + 1) with (Z.of_nat (S k)) by lia.
  rewrite (wf_B_at64 m (S k) Hwf) by lia.
  pose proof (off_nonneg (readers m) k) as Hnn.
  rewrite (wrap64_small (curPos - off (readers m) k))
    by (unfold int64_range, MinInt64, MaxInt64 in *; lia).
  rewrite (wrap64_small (off (readers m) (S k) - curPos))
    by (unfold int64_range, MinInt64, MaxInt64 in *; lia).
  pose proof (wf_bufferSize m Hwf) as Hbs.
  set (toRead := Z.min (off (readers m) (S k) - curPos) (bufferSize m)).
  assert (HtoRead : 1 <= toRead <= off (readers m) (S k) - curPos) by (unfold toRead; lia).
  destruct (seek_read HR (readers m) k r curPos toRead Hv Hr Hoff ltac:(lia))
    as (n & r1 & data & rerr & r2 & -> & HRead & Hdlen & Hdata & Hdin & Hsh & Hv2 & Hle & Hcase).
  destruct (Z.eqb_spec (off (readers m) (S k) - curPos) 0) as [|_]; [lia|].
  destruct (Z.ltb_spec toRead 0) as [|_]; [lia|].
  rewrite HRead.
  destruct Hcase as [[Hdne Herr]|(-> & -> & Hlt)].
  - destruct (Nat.ltb_spec 0 (length data)) as [_|Hz];
      [|by destruct data; [|simpl in Hz; lia]].
    eexists _, _. split; [done|]. split_and!; try done. left.
    exists data, rerr, (Z.of_nat k). split_and!; try done; try lia.
    destruct Herr as [->|[-> Hend]]; [by left|right]. split; [done|].
    replace (Z.of_nat k + 1) with (Z.of_nat (S k)) by lia.
    by rewrite (wf_B_at64 m (S k) Hwf) by lia.
  - simpl. eexists _, _. split; [done|]. split_and!; try done. by right.
Qed.

(** *** The goroutine keeps the invariant *)

Lemma frame_B_refl m : frame m m.
Proof. by repeat split. Qed.

Lemma frame_B_trans m1 m2 m3 : frame m1 m2 -> frame m2 m3 -> frame m1 m3.
Proof.
  intros (? & ? & ? & ? & ? & H12 & ?) (? & ? & ? & ? & ? & H23 & ?).
  repeat split; try congruence; try lia; intros Hs.
  - by apply H23, H12.
  - by apply H12, H23.
Qed.

Lemma pf_ok_B_shift m m' from from' p :
  from' = from -> content m' = content m -> Size m' = Size m ->
  prefixSizes m' = prefixSizes m ->
  pf_ok m from p -> pf_ok m' from' p.
Proof. unfold pf_ok. intros -> -> -> ->. done. Qed.

Lemma pfSent_B_next m errCh block rerr curPos idx :
  Size m <= MaxInt64 ->
  0 <= curPos ->
  curPos + Z.of_nat (length block) <= Size m ->
  (rerr = None \/
   rerr = Some io_EOF /\ at64 (prefixSizes m) (idx + 1) = curPos + Z.of_nat (length block)) ->
  pfSent m errCh block rerr curPos idx = (PfHead (curPos + Z.of_nat (length block)) (-1), errCh).
Proof.
  intros Hmax Hpos Hend Hrerr. unfold pfSent, pfAfter.
  rewrite wrap64_small by (unfold int64_range, MinInt64, MaxInt64 in *; lia).
  by destruct Hrerr as [->|[-> ->]].
Qed.

Lemma pfStep_B_Inv m : WF m -> Inv m -> WF (pfStep m) /\ Inv (pfStep m) /\ frame m (pfStep m).
Proof using HR.
  intros Hwf Hinv.
  assert (Hsame : WF m /\ Inv m /\ frame m m) by auto using frame_B_refl.
  unfold pfStep. destruct (pf m) as [p|] eqn:Hpf; [|done].
  pose proof (inv_pf m Hinv p Hpf) as Hok.
  destruct Hinv as [Hopen Hstart Hbound Hwin Hidle _].
  set (from := windowStart m + Z.of_nat (length (windowBuf m))) in *.
  pose proof Hok as (Hne & Hq & Hqb & Hg).
  assert (Hsome : forall p' : prefetch, is_Some (Some p) <-> is_Some (Some p')).
  { intros p'. split; by eexists. }
  pose proof (wf_B_Size m Hwf) as HSize. pose proof (wf_max m Hwf) as Hmax.
  destruct (pfG p) as [curPos idx|block rerr curPos idx| |] eqn:HG; [| |done|done].
  - (* at the head of the loop *)
    destruct (decide (curPos < Size m)) as [Hlt|Hge].
    + destruct (pfHeadStep_B_outcome m (pfErrCh p) curPos Hwf ltac:(lia))
        as (g & rs' & -> & Hsh & Hv' & Hle & Hcase).
      assert (Hc : forall x, content (set_readers rs' x) = content m).
      { intros x. unfold content. simpl. by rewrite (shape_contents _ _ Hsh). }
      assert (Hz : forall x, Size (set_readers rs' (set_pf x m)) = Size m).
      { intros x. unfold Size. simpl. by rewrite (shape_length _ _ Hsh). }
      split; [|split].
      * apply WF_B_set_readers; [by destruct Hwf|done|done].
      * constructor; simpl; rewrite ?Hc, ?Hz; try done.
        intros p' [= <-]. unfold pf_ok. simpl. rewrite Hc, Hz.
        fold from.
        destruct Hcase as [(data & rerr & idx' & -> & Hdne & Hdata & Hdb & Hrerr)|(-> & _)];
          repeat split; try done; lia.
      * repeat split; simpl; rewrite ?Hc, ?Hz, ?Hpf; try done; by eexists.
    + assert (curPos = Size m) as Htot by lia.
      unfold pfHeadStep. destruct (Z.ltb_spec curPos (Size m)) as [|_]; [lia|]. simpl.
      split; [|split].
      * by destruct Hwf.
      * constructor; simpl; try done.
        intros p' [= <-]. unfold pf_ok. simpl.
        change (content (set_readers _ _)) with (content m).
        change (Size (set_readers _ _)) with (Size m).
        fold from. repeat split; try done; lia.
      * repeat split; simpl; rewrite ?Hpf; try done; by eexists.
  - (* in the select *)
    destruct Hg as (HcurPos & Hbne & Hblock & Hbb & Hrerr).
    destruct (_ <? _); [|done].
    rewrite (pfSent_B_next m (pfErrCh p) block rerr curPos idx) by (try done; lia).
    split; [|split].
    + by destruct Hwf.
    + constructor; simpl; try done.
      intros p' [= <-]. unfold pf_ok. simpl. fold from.
      change (content (set_pf _ m)) with (content m).
      change (Size (set_pf _ m)) with (Size m).
      rewrite concat_app, length_app. simpl. rewrite app_nil_r.
      repeat split; try lia.
      * apply Forall_app. split; [done|]. by constructor.
      * rewrite slice_add by lia. rewrite <- Hq. f_equal.
        rewrite Hblock at 1. f_equal. lia.
    + repeat split; simpl; rewrite ?Hpf; try done; by eexists.
Qed.

Lemma pfRun_B_Inv k m : WF m -> Inv m -> WF (pfRun k m) /\ Inv (pfRun k m) /\ frame m (pfRun k m).
Proof using HR.
  revert m. induction k as [|k IH]; intros m Hwf Hinv; simpl.
  - auto using frame_B_refl.
  - destruct (pfStep_B_Inv m Hwf Hinv) as (Hwf1 & Hinv1 & Hf1).
    destruct (IH _ Hwf1 Hinv1) as (Hwf2 & Hinv2 & Hf2).
    eauto using frame_B_trans.
Qed.

(** *** The receive *)

Lemma recv_B_unfold fuel m :
  recv fuel m =
  match pf m with
  | None => RecvBlocked
  | Some p =>
      match pfBufCh p with
      | b :: q => RecvBlock b (set_pf (Some (Prefetch q (pfErrCh p) (pfG p))) m)
      | [] =>
          match pfG p with
          | PfExited => RecvClosed (pfErrCh p) (set_pf (Some (Prefetch [] None PfExited)) m)
          | PfPanicked => RecvPanic
          | PfSend block rerr curPos idx =>
              let '(g, errCh) := pfSent m (pfErrCh p) block rerr curPos idx in
              RecvBlock block (set_pf (Some (Prefetch [] errCh g)) m)
          | PfHead _ _ =>
              match fuel with
              | O => RecvBlocked
              | S fuel' => recv fuel' (pfStep m)
              end
          end
      end
  end.
Proof. by destruct fuel. Qed.

Lemma recv_B_ready fuel m p :
  WF m -> Inv m -> pf m = Some p ->
  windowBuf m = [] ->
  windowStart m < Size m ->
  match pfG p with PfHead _ _ => pfBufCh p <> [] | _ => True end ->
  exists buf m', recv fuel m = RecvBlock buf m' /\ received m buf m'.
Proof using HR.
  intros Hwf Hinv Hpf Hw Hlt Hready. rewrite recv_B_unfold, Hpf.
  pose proof (inv_pf m Hinv p Hpf) as Hok. rewrite Hw in Hok. simpl in Hok.
  rewrite Z.add_0_r in Hok.
  destruct Hinv as [Hopen Hstart Hbound Hwin Hidle _].
  pose proof (wf_max m Hwf) as Hmax.
  pose proof (wf_B_Size m Hwf) as Hlen.
  destruct Hok as (Hne & Hq & Hqb & Hg).
  destruct (pfBufCh p) as [|b q] eqn:Hqe.
  - simpl in *. rewrite Z.add_0_r in *.
    destruct (pfG p) as [curPos idx|block rerr curPos idx| |]; [done| |lia|done].
    destruct Hg as (-> & Hbne & Hblock & Hbb & Hrerr).
    rewrite (pfSent_B_next m (pfErrCh p) block rerr (windowStart m) idx) by (try done; lia).
    eexists _, _. split; [done|]. unfold received. simpl. rewrite Hw. simpl.
    split; [done|]. split; [by destruct Hwf|]. split; [|by eauto].
    constructor; simpl; try change (Size (set_window _ _ _)) with (Size m); try done; try lia.
    intros p' [= <-]. unfold pf_ok. simpl.
    change (Size (set_window _ _ _)) with (Size m). repeat split; try done; lia.
  - apply Forall_cons in Hne as [Hbne Hne]. simpl in Hq, Hqb, Hg.
    rewrite length_app in Hq, Hqb, Hg.
    rewrite slice_add in Hq by lia.
    apply app_inj_1 in Hq as [Hb Hcq]; [|rewrite length_slice; lia].
    eexists _, _. split; [done|]. unfold received. simpl. rewrite Hw. simpl.
    split; [done|]. split; [by destruct Hwf|]. split; [|by eauto].
    constructor; simpl; try change (Size (set_window _ _ _)) with (Size m); try done; try lia.
    intros p' [= <-]. unfold pf_ok. simpl.
    change (Size (set_window _ _ _)) with (Size m). repeat split; try done; try lia.
    destruct (pfG p); try done; (repeat split; try tauto; lia).
Qed.

Lemma received_B_frame m1 m buf m' :
  frame m m1 -> received m1 buf m' -> received m buf m'.
Proof.
  intros (_ & Hs & Ht & Hc & _ & _ & Hi) (? & ? & ? & ? & Hs' & Ht' & Hc' & ? & Hi').
  unfold received. rewrite <- Hs, <- Ht, <- Hc. split_and!; try done. lia.
Qed.

Lemma recv_B_block fuel :
  forall m,
    WF m -> Inv m -> is_Some (pf m) ->
    windowBuf m = [] ->
    windowStart m < Size m ->
    (idles (readers m) < fuel)%nat ->
    exists buf m', recv fuel m = RecvBlock buf m' /\ received m buf m'.
Proof using HR.
  induction fuel as [|fuel IH]; intros m Hwf Hinv [p Hpf] Hw Hlt Hfuel; [lia|].
  destruct (pfG p) as [curPos idx|block rerr curPos idx| |] eqn:HG;
    [|by apply recv_B_ready with p; rewrite ?HG..].
  destruct (pfBufCh p) as [|b q] eqn:Hqe;
    [|by apply recv_B_ready with p; rewrite ?HG, ?Hqe].
  (* nothing buffered and the goroutine at the head of its loop: it runs *)
  rewrite recv_B_unfold, Hpf, Hqe, HG.
  destruct (pfStep_B_Inv m Hwf Hinv) as (Hwf1 & Hinv1 & Hf1).
  pose proof (inv_pf m Hinv p Hpf) as (_ & _ & _ & Hg). rewrite HG, Hqe, Hw in Hg.
  simpl in Hg. pose proof (inv_start m Hinv) as Hstart.
  destruct (pfHeadStep_B_outcome m (pfErrCh p) curPos Hwf ltac:(lia))
    as (g & rs' & Hstep & _ & _ & Hle & Hcase).
  assert (Hpf1 : pf (pfStep m) = Some (Prefetch [] (pfErrCh p) g) /\ readers (pfStep m) = rs').
  { unfold pfStep. by rewrite Hpf, HG, Hstep, Hqe. }
  destruct Hpf1 as [Hpf1 Hrs1].
  pose proof Hf1 as (Hw1 & Hs1 & Ht1 & Hc1 & _).
  assert (Hgo : exists buf m', recv fuel (pfStep m) = RecvBlock buf m' /\
                               received (pfStep m) buf m').
  { destruct Hcase as [(data & rerr & idx' & -> & _)|(-> & Hlt')].
    - apply recv_B_ready with (Prefetch [] (pfErrCh p) (PfSend data rerr curPos idx'));
        try done; [congruence|lia].
    - apply IH; try done; [congruence|lia|]. rewrite Hrs1. lia. }
  destruct Hgo as (buf & m' & Hrecv & Hrcv). exists buf, m'. split; [done|].
  by apply (received_B_frame (pfStep m)).
Qed.

End Read.
End MultiReaderReadB.

(** ** The MultiReader: reads of length zero *)

Module ZeroLengthRead.
Import ReaderFacts MultiReaderReadB.

Section Zero.
Context {R : Type} `{!Reader.SizedReadSeekCloser R} `{!Reader.Abstraction R}.
Context (HR : Reader.Contract R).



(** A fresh reader of the second variant satisfies the invariant. *)
Lemma NewMultiReader_B_Inv buffersSize buffersNum (rs : list R) :
  Forall Reader.valid rs ->
  Z.of_nat (length (contents rs)) <= MaxInt64 ->
  1 <= buffersSize -> 0 <= buffersNum ->
  MRB.WF (MRB.NewMultiReader buffersSize buffersNum rs) /\
  MRB.Inv (MRB.NewMultiReader buffersSize buffersNum rs).
Proof using HR.
  intros Hs Hmax Hb Hn.
  assert (Hwf : MRB.WF (MRB.NewMultiReader buffersSize buffersNum rs)) by (by constructor).
  split; [done|]. pose proof (wf_B_Size HR _ Hwf) as HSize.
  constructor; simpl; try done. rewrite HSize. lia.
Qed.



End Zero.



(** What the call leaves in the second variant: the first block in the
    window, the goroutine past it. *)
Example MRB_zero_read_receives :
  let m := MRB.NewMultiReader 1048576 4 [Sub.newMockStringsReader (bytes "xy")] in
  exists m', MRB.Read 2 [] [] m = MRB.ReadRet 0 None [] m' /\
             MRB.windowBuf m' = bytes "xy" /\
             MRB.pf m' = Some (Prefetch [] None (PfHead 2 (-1))).
Proof. eexists. vm_compute. repeat split; reflexivity. Qed.

End ZeroLengthRead.

(** ** The MultiReader whose cursor is [windowStart]: [Seek] and [Read] *)

Module MultiReaderSeekReadB.
Import MRB ReaderFacts MultiReaderReadB.

Section SeekRead.
Context {R : Type} `{!Reader.SizedReadSeekCloser R} `{!Reader.Abstraction R}.
Context (HR : Reader.Contract R).
Implicit Types (m : MultiReader R) (rs : list R).

Lemma Read_loop_B_unfold fuel sched m (p : list byte) n :
  Read_loop fuel sched m p n =
  let '(m1, p1, n1, full) := Read_copy (pfRun (hd O sched) m) p n in
  if full then ReadRet (Z.of_nat n1) None p1 m1
  else
    match fuel with
    | O => ReadBlocked
    | S fuel' =>
        match recv fuel' m1 with
        | RecvBlock buf m' =>
            Read_loop fuel' (tl sched) (set_window (windowBuf m' ++ buf) (windowStart m') m') p1 n1
        | RecvClosed err m' => ReadRet (Z.of_nat n1) err p1 m'
        | RecvPanic => ReadPanic
        | RecvBlocked => ReadBlocked
        end
    end.
Proof. by destruct fuel. Qed.

Lemma WF_B_set_window m w a : WF m -> WF (set_window w a m).
Proof. by intros []. Qed.

Lemma WF_B_set_pf m o : WF m -> WF (set_pf o m).
Proof. by intros []. Qed.

(** The loop of [Read], entered with [n] bytes of [p] written and the
    cursor before the end. *)
Lemma Read_loop_B_correct fuel :
  forall sched m (p : list byte) n t,
    WF m -> Inv m -> is_Some (pf m) ->
    (n <= length p)%nat ->
    0 <= t ->
    windowStart m = t + Z.of_nat n ->
    t + Z.of_nat (length p) <= Size m ->
    windowStart m < Size m ->
    take n p = slice t n (content m) ->
    ((length p - n) + (if windowBuf m is [] then 1 else 0) + idles (readers m) < fuel)%nat ->
    exists m',
      Read_loop fuel sched m p n
      = ReadRet (Z.of_nat (length p)) None (slice t (length p) (content m)) m' /\
      WF m' /\ Inv m' /\
      windowStart m' = t + Z.of_nat (length p) /\
      Size m' = Size m /\ content m' = content m /\
      (idles (readers m') <= idles (readers m))%nat.
Proof using HR.
  induction fuel as [|f IH]; intros sched m p n t Hwf Hinv Hpf Hn Ht Hws Hend Hlt Hp Hfuel;
    [lia|].
  rewrite Read_loop_B_unfold.
  destruct (pfRun_B_Inv HR (hd O sched) m Hwf Hinv) as (Hwf1 & Hinv1 & Hf1).
  destruct Hf1 as (Hw1 & Hs1 & Hz1 & Hc1 & Hcl1 & Hsome1 & Hi1).
  set (m1 := pfRun (hd O sched) m) in *.
  pose proof (wf_max m Hwf) as Hmax.
  pose proof (wf_B_Size HR m Hwf) as Hlen.
  unfold Read_copy. rewrite Hw1.
  destruct (windowBuf m) as [|x w] eqn:Hwin.
  - (* the window is empty: receive a block *)
    cbv iota beta.
    destruct (recv_B_block HR f m1 Hwf1 Hinv1) as (buf & m' & -> & Hrcv);
      [by apply Hsome1|congruence|lia|lia|].
    destruct Hrcv as (Hbne & Hwf2 & Hinv2 & Hw2 & Hs2 & Hz2 & Hc2 & Hpf2 & Hi2).
    set (m2 := set_window (windowBuf m' ++ buf) (windowStart m') m') in *.
    destruct (IH (tl sched) m2 p n t Hwf2 Hinv2 Hpf2 Hn Ht) as (m3 & -> & ? & ? & ? & ? & ? & ?).
    + by rewrite Hs2, Hs1.
    + by rewrite Hz2, Hz1.
    + rewrite Hs2, Hs1, Hz2, Hz1. done.
    + by rewrite Hc2, Hc1.
    + rewrite Hw2. destruct buf; [done|]. lia.
    + exists m3. rewrite Hc2, Hc1, Hz2, Hz1 in *. split_and!; try done. lia.
  - (* the window holds bytes: copy *)
    set (win := x :: w) in *.
    set (toCopy := Nat.min (length p - n) (length win)).
    assert (HtoCopy : (toCopy <= length p - n)%nat /\ (toCopy <= length win)%nat /\
                      (n < length p -> 1 <= toCopy)%nat).
    { unfold toCopy, win. simpl. lia. }
    pose proof (inv_window m Hinv) as Hwinv. rewrite Hwin in Hwinv. fold win in Hwinv.
    pose proof (inv_bound m Hinv) as Hbound. rewrite Hwin in Hbound. fold win in Hbound.
    pose proof (inv_start m Hinv) as Hstart.
    set (p' := take n p ++ take toCopy win ++ drop (n + toCopy) p).
    assert (Hlenp' : length p' = length p).
    { unfold p'. rewrite !length_app, !length_take, length_drop. lia. }
    assert (Hp' : take (n + toCopy) p' = slice t (n + toCopy) (content m)).
    { unfold p'. rewrite app_assoc, take_app_le by (rewrite length_app, !length_take; lia).
      rewrite take_ge by (rewrite length_app, !length_take; lia).
      rewrite slice_add by lia. rewrite Hp. f_equal.
      rewrite Hwinv, slice_take by lia. by rewrite Hws. }
    rewrite Hs1.
    rewrite wrap64_small by (unfold int64_range, MinInt64, MaxInt64 in *; lia).
    set (m2 := set_window (drop toCopy win) (windowStart m + Z.of_nat toCopy) m1).
    assert (Hwf2 : WF m2) by (by apply WF_B_set_window).
    assert (Hz2 : Size m2 = Size m) by (by rewrite <- Hz1).
    assert (Hc2 : content m2 = content m) by (by rewrite <- Hc1).
    assert (Hinv2 : Inv m2).
    { destruct Hinv1 as [Hopen1 Hstart1 Hbound1 Hwin1 Hidle1 Hpfok1].
      constructor; simpl; try done; try lia.
      - rewrite Hz2, length_drop. lia.
      - rewrite Hc2. rewrite Hwinv at 1. rewrite slice_drop by lia. by rewrite length_drop.
      - intros Hnone. apply Hsome1 in Hpf. rewrite Hnone in Hpf. by destruct Hpf.
      - intros p0 Hp0.
        apply pf_ok_B_shift with m1 (windowStart m1 + Z.of_nat (length (windowBuf m1)));
          try done; [|by apply Hpfok1].
        rewrite Hw1, Hs1, length_drop. lia. }
    cbv zeta. fold toCopy p'. fold m2.
    destruct (Nat.eqb_spec (n + toCopy) (length p)) as [Heq|Hneq].
    + exists m2. split; [|split_and!; try done; simpl; lia].
      rewrite Heq in Hp' |- *. rewrite take_ge in Hp' by lia. by rewrite Hp'.
    + assert (Hwe : windowBuf m2 = []).
      { simpl. apply nil_length_inv. rewrite length_drop. lia. }
      destruct (recv_B_block HR f m2 Hwf2 Hinv2) as (buf & m' & -> & Hrcv);
        [by apply Hsome1|done|simpl; lia|change (readers m2) with (readers m1); lia|].
      destruct Hrcv as (Hbne & Hwf3 & Hinv3 & Hw3 & Hs3 & Hz3 & Hc3 & Hpf3 & Hi3).
      set (m3 := set_window (windowBuf m' ++ buf) (windowStart m') m') in *.
      destruct (IH (tl sched) m3 p' (n + toCopy)%nat t Hwf3 Hinv3 Hpf3)
        as (m4 & -> & ? & ? & ? & ? & ? & Hi4).
      * lia.
      * done.
      * rewrite Hs3. simpl. lia.
      * rewrite Hlenp', Hz3, Hz2. lia.
      * rewrite Hs3, Hz3, Hz2. simpl. lia.
      * by rewrite Hc3, Hc2.
      * rewrite Hlenp', Hw3. change (readers m2) with (readers m1) in Hi3.
        destruct buf; [done|]. lia.
      * exists m4. rewrite Hlenp', Hc3, Hc2, Hz3, Hz2 in *. split_and!; try done.
        change (readers m2) with (readers m1) in Hi3. lia.
Qed.

(** [Read] on a reader that satisfies the invariant. *)
Lemma Read_B_correct fuel sched m (p : list byte) :
  WF m -> Inv m ->
  windowStart m + Z.of_nat (length p) <= Size m ->
  (length p + 1 + idles (readers m) < fuel)%nat ->
  exists m',
    Read fuel sched p m
    = ReadRet (Z.of_nat (length p))
              (if windowStart m =? Size m then Some io_EOF else None)
              (slice (windowStart m) (length p) (content m)) m' /\
    WF m' /\ Inv m' /\ Size m' = Size m /\ content m' = content m /\
    windowStart m' = windowStart m + Z.of_nat (length p).
Proof using HR.
  intros Hwf Hinv Hend Hfuel. unfold Read.
  rewrite (inv_open m Hinv).
  destruct (Z.eqb_spec (windowStart m) (Size m)) as [Heq|Hne].
  { assert (length p = 0%nat) as Hp0 by lia. destruct p; [|done]. exists m.
    rewrite slice_0. split_and!; try done. simpl. lia. }
  pose proof (wf_buffersNum m Hwf) as Hnum.
  pose proof (inv_start m Hinv) as Hstart.
  pose proof (inv_bound m Hinv) as Hbound.
  set (m1 := match pf m with
             | None => set_pf (Some (Prefetch [] None (PfHead (windowStart m) (-1)))) m
             | Some _ => m
             end).
  assert (Hread : match pf m with
                  | None =>
                      if buffersNum m <? 0 then ReadPanic
                      else Read_loop fuel sched
                             (set_pf (Some (Prefetch [] None (PfHead (windowStart m) (-1)))) m) p 0
                  | Some _ => Read_loop fuel sched m p 0
                  end = Read_loop fuel sched m1 p 0).
  { unfold m1. destruct (pf m); [done|]. by destruct (Z.ltb_spec (buffersNum m) 0); [lia|]. }
  rewrite Hread.
  assert (H1 : WF m1 /\ Inv m1 /\ is_Some (pf m1) /\ windowStart m1 = windowStart m /\
               Size m1 = Size m /\ content m1 = content m /\
               windowBuf m1 = windowBuf m /\ readers m1 = readers m).
  { unfold m1. destruct (pf m) as [p0|] eqn:Hpf.
    - by split_and!.
    - pose proof (inv_idle m Hinv Hpf) as Hw.
      split_and!; try done; [by apply WF_B_set_pf|].
      destruct Hinv as [Hopen _ _ Hwin _ _].
      constructor; simpl; try done.
      intros p0 [= <-]. unfold pf_ok. simpl. rewrite Hw. simpl.
      change (Size (set_pf _ m)) with (Size m).
      split_and!; try done; lia. }
  destruct H1 as (Hwf1 & Hinv1 & Hpf1 & Hs1 & Hz1 & Hc1 & Hw1 & Hr1).
  destruct (Read_loop_B_correct fuel sched m1 p 0 (windowStart m) Hwf1 Hinv1 Hpf1)
    as (m' & -> & ? & ? & ? & ? & ? & ?).
  - lia.
  - lia.
  - rewrite Hs1. lia.
  - rewrite Hz1. lia.
  - rewrite Hs1, Hz1. lia.
  - done.
  - rewrite Hr1. destruct (windowBuf m1); lia.
  - exists m'. rewrite Hc1, Hz1 in *. by split_and!.
Qed.

(** [Seek] keeps the invariant. *)
Lemma pfStep_B_set_window w a m :
  pfStep (set_window w a m) = set_window w a (pfStep m).
Proof.
  unfold pfStep. simpl. destruct (pf m) as [p|]; [|done].
  destruct (pfG p) as [curPos idx|block rerr curPos idx| |]; try done.
  - change (pfHeadStep (set_window w a m)) with (pfHeadStep m).
    by destruct (pfHeadStep m (pfErrCh p) curPos) as [[g e] rs].
  - destruct (_ <? _); [|done].
    change (pfSent (set_window w a m)) with (pfSent m).
    by destruct (pfSent m (pfErrCh p) block rerr curPos idx).
Qed.

Lemma pfRun_B_set_window k w a m :
  pfRun k (set_window w a m) = set_window w a (pfRun k m).
Proof.
  revert m. induction k as [|k IH]; intros m; simpl; [done|].
  by rewrite pfStep_B_set_window, IH.
Qed.

Lemma Seek_B_Inv ahead t m :
  WF m -> Inv m ->
  0 <= t <= Size m ->
  exists m',
    Seek ahead t io_SeekStart m = (t, None, m') /\
    WF m' /\ Inv m' /\ windowStart m' = t /\
    Size m' = Size m /\ content m' = content m /\
    (idles (readers m') <= idles (readers m))%nat.
Proof using HR.
  intros Hwf Hinv Ht. unfold Seek. rewrite (inv_open m Hinv). simpl.
  destruct (Z.ltb_spec t 0) as [|_]; [lia|].
  destruct (Z.gtb_spec t (Size m)) as [|_]; [lia|]. simpl.
  pose proof (wf_max m Hwf) as Hmax.
  pose proof (wf_B_Size HR m Hwf) as Hlen.
  pose proof Hinv as [Hopen Hstart Hbound Hwin Hidle Hpfok].
  rewrite wrap64_small by (unfold int64_range, MinInt64, MaxInt64 in *; lia).
  assert (Hout : let m0 := set_pf None (pfRun ahead (set_window [] (windowStart m) m)) in
                 let m' := set_window (windowBuf m0) t m0 in
                 WF m' /\ Inv m' /\ windowStart m' = t /\ Size m' = Size m /\
                 content m' = content m /\ (idles (readers m') <= idles (readers m))%nat).
  { rewrite pfRun_B_set_window. simpl.
    destruct (pfRun_B_Inv HR ahead m Hwf Hinv) as (Hwf1 & _ & Hf1).
    destruct Hf1 as (_ & _ & Hz1 & Hc1 & Hcl1 & _ & Hi1).
    split; [by destruct Hwf1|]. split; [|done].
    constructor; simpl; rewrite ?Hcl1; try done; try lia.
    change (Size (set_window _ _ _)) with (Size (pfRun ahead m)). lia. }
  destruct (Z.leb_spec 0 (t - windowStart m)) as [Hd0|Hd0]; simpl;
    [destruct (Z.ltb_spec (t - windowStart m) (Z.of_nat (length (windowBuf m)))) as [Hd1|Hd1]|].
  - (* inside the window *)
    eexists. split; [done|]. split; [by destruct Hwf|]. split; [|done].
    constructor; simpl; try done; try lia.
    + change (Size (set_window _ _ _)) with (Size m). rewrite length_drop. lia.
    + rewrite Hwin at 1. rewrite slice_drop by lia. rewrite length_drop.
      f_equal. lia.
    + intros Hnone. rewrite (Hidle Hnone) in Hd1. simpl in Hd1. lia.
    + intros p Hp.
      apply pf_ok_B_shift with m (windowStart m + Z.of_nat (length (windowBuf m)));
        try done; [|by apply Hpfok].
      rewrite length_drop. lia.
  - (* outside: the window is dropped and the prefetch stopped *)
    eexists. split; [done|]. apply Hout.
  - eexists. split; [done|]. apply Hout.
Qed.

(** Seek-read consistency for the second variant (part_004), whose [Read]
    loops without a test on [len(p)]: over sub-readers that keep the
    contract of the interface, on a reader that satisfies the invariant of
    an open MultiReader, for every target [t] in [[0, Size]] and every
    destination [p] with [t + len(p) <= Size], [Seek(t, Start)] succeeds
    and the [Read] that follows fills [p] with the bytes [[t, t + len(p))]
    of the concatenation of the contents, whatever the goroutine does in
    between; the error is [nil], or end-of-stream when [t] is the size.  A
    fresh reader delivers the whole concatenation to a [Read] of [Size]
    bytes. *)
Theorem Seek_then_Read_second_variant ahead sched fuel (p : list byte) :
  (forall m t,
     WF m -> Inv m ->
     0 <= t <= Size m ->
     t + Z.of_nat (length p) <= Size m ->
     (length p + 1 + idles (readers m) < fuel)%nat ->
     exists m1 m2,
       Seek ahead t io_SeekStart m = (t, None, m1) /\
       Read fuel sched p m1
       = ReadRet (Z.of_nat (length p)) (if t =? Size m then Some io_EOF else None)
                 (slice t (length p) (content m)) m2 /\
       WF m2 /\ Inv m2 /\ windowStart m2 = t + Z.of_nat (length p) /\
       Size m2 = Size m /\ content m2 = content m) /\
  (forall buffersSize buffersNum rs,
     Forall Reader.valid rs ->
     1 <= buffersSize -> 0 <= buffersNum ->
     Z.of_nat (length (contents rs)) <= MaxInt64 ->
     length p = length (contents rs) ->
     (length p + 1 + idles rs < fuel)%nat ->
     exists m',
       Read fuel sched p (NewMultiReader buffersSize buffersNum rs)
       = ReadRet (Z.of_nat (length p)) (if length p is O then Some io_EOF else None)
                 (contents rs) m').
Proof using HR.
  split.
  - intros m t Hwf Hinv Ht Hend Hfuel.
    destruct (Seek_B_Inv ahead t m Hwf Hinv Ht) as (m1 & HS & Hwf1 & Hinv1 & Ha1 & Ht1 & Hc1 & Hi1).
    destruct (Read_B_correct fuel sched m1 p Hwf1 Hinv1)
      as (m2 & HRd & Hwf2 & Hinv2 & Ht2 & Hc2 & Ha2); [rewrite Ha1, Ht1; lia|lia|].
    exists m1, m2. rewrite Ha1, Ht1, Hc1 in *. done.
  - intros buffersSize buffersNum rs Hv Hb Hn Hmax Hlen Hfuel.
    destruct (ZeroLengthRead.NewMultiReader_B_Inv HR buffersSize buffersNum rs) as [Hwf Hinv];
      [done..|].
    set (m := NewMultiReader buffersSize buffersNum rs) in *.
    assert (Htot : Size m = Z.of_nat (length (contents rs))) by apply (wf_B_Size HR m Hwf).
    destruct (Read_B_correct fuel sched m p Hwf Hinv) as (m' & HRd & _);
      [change (windowStart m) with 0; rewrite Htot; lia|done|].
    exists m'. rewrite HRd. change (windowStart m) with 0. f_equal.
    + rewrite Htot, <- Hlen. by destruct (length p).
    + unfold slice, content. change (readers m) with rs. rewrite Hlen. by rewrite take_ge.
Qed.

End SeekRead.

Lemma Seek_then_Read_second_variant_witness :
  let m := NewMultiReader 4 2 [Piece.newPieceReader 2 1 (bytes "abc");
                                Piece.newPieceReader 2 1 (bytes "defg")] in
  let m' := NewMultiReader 4 2 [Sub.newMockStringsReader (bytes "abc");
                                 Sub.newMockStringsReader (bytes "defg")] in
  let p := bytes "000" in
  (Reader.Contract Piece.pieceReader /\ WF m /\ Inv m /\ 0 <= 2 <= Size m /\
   2 + Z.of_nat (length p) <= Size m /\
   (length p + 1 + idles (readers m) < 9)%nat) /\
  (Reader.Contract Sub.mockStringsReader /\ WF m' /\ Inv m' /\ 0 <= 2 <= Size m' /\
   2 + Z.of_nat (length p) <= Size m' /\
   (length p + 1 + idles (readers m') < 9)%nat) /\
  (exists m1 m2,
     Seek 3 2 io_SeekStart m = (2, None, m1) /\
     Read 9 [1; 0; 2]%nat p m1 = ReadRet 3 None (bytes "cde") m2 /\
     WF m2 /\ Inv m2 /\ windowStart m2 = 5 /\
     Size m2 = Size m /\ content m2 = content m) /\
  (exists m1 m2,
     Seek 3 2 io_SeekStart m' = (2, None, m1) /\
     Read 9 [1; 0; 2]%nat p m1 = ReadRet 3 None (bytes "cde") m2 /\
     WF m2 /\ Inv m2 /\ windowStart m2 = 5 /\
     Size m2 = Size m' /\ content m2 = content m').
Proof.
  intros m m' p.
  assert (Hm : WF m /\ Inv m).
  { apply (ZeroLengthRead.NewMultiReader_B_Inv pieceReader_Contract 4 2);
      [by repeat constructor|vm_compute; discriminate|lia|lia]. }
  assert (Hm' : WF m' /\ Inv m').
  { apply (ZeroLengthRead.NewMultiReader_B_Inv mockStringsReader_Contract 4 2);
      [by repeat constructor|vm_compute; discriminate|lia|lia]. }
  assert (H1 : 0 <= 2 <= Size m) by (vm_compute; split; discriminate).
  assert (H2 : 2 + Z.of_nat (length p) <= Size m) by (vm_compute; discriminate).
  assert (H3 : (length p + 1 + idles (readers m) < 9)%nat) by (vm_compute; lia).
  assert (H1' : 0 <= 2 <= Size m') by (vm_compute; split; discriminate).
  assert (H2' : 2 + Z.of_nat (length p) <= Size m') by (vm_compute; discriminate).
  assert (H3' : (length p + 1 + idles (readers m') < 9)%nat) by (vm_compute; lia).
  split; [split; [exact pieceReader_Contract|tauto]|].
  split; [split; [exact mockStringsReader_Contract|tauto]|].
  split.
  - exact (proj1 (Seek_then_Read_second_variant pieceReader_Contract 3 [1; 0; 2]%nat 9 p)
                 m 2 (proj1 Hm) (proj2 Hm) H1 H2 H3).
  - exact (proj1 (Seek_then_Read_second_variant mockStringsReader_Contract 3 [1; 0; 2]%nat 9 p)
                 m' 2 (proj1 Hm') (proj2 Hm') H1' H2' H3').
Defined.

(** The runs of the witness on the model, and a [Read] of no bytes after
    a [Seek]: it returns [(0, nil)] with the cursor where [Seek] put it. *)
Example Seek_then_Read_second_variant_runs :
  let run {R} `{!Reader.SizedReadSeekCloser R} (m : MultiReader R) (p : list byte) :=
    match Seek 3 2 io_SeekStart m with
    | (2, None, m1) =>
        match Read 9 [1; 0; 2]%nat p m1 with
        | ReadRet n err p m2 => Some (n, err, p, windowStart m2, windowBuf m2)
        | _ => None
        end
    | _ => None
    end in
  run (NewMultiReader 4 2 [Piece.newPieceReader 2 1 (bytes "abc");
                           Piece.newPieceReader 2 1 (bytes "defg")]) (bytes "000")
  = Some (3, None, bytes "cde", 5, []) /\
  run (NewMultiReader 4 2 [Sub.newMockStringsReader (bytes "abc");
                           Sub.newMockStringsReader (bytes "defg")]) (bytes "000")
  = Some (3, None, bytes "cde", 5, bytes "fg") /\
  run (NewMultiReader 4 2 [Sub.newMockStringsReader (bytes "abc");
                           Sub.newMockStringsReader (bytes "defg")]) []
  = Some (0, None, [], 2, bytes "c").
Proof. vm_compute. split_and!; reflexivity. Qed.

End MultiReaderSeekReadB.

(** ** The MultiReader after [Close] *)

Module MultiReaderClosed.

Section Closed.
Context {R : Type} `{!Reader.SizedReadSeekCloser R}.

Lemma MRA_pfStep_closed (m : MRA.MultiReader R) : MRA.closed (MRA.pfStep m) = MRA.closed m.
Proof.
  unfold MRA.pfStep. destruct (MRA.pf m) as [p|]; [|done].
  destruct (pfG p) as [curPos idx|block rerr curPos idx| |]; try done.
  - by destruct (MRA.pfHeadStep m (pfErrCh p) curPos idx) as [[g e] rs].
  - destruct (_ <? _); [|done]. by destruct (MRA.pfSent m (pfErrCh p) block rerr curPos idx).
Qed.

Lemma MRA_pfRun_closed k (m : MRA.MultiReader R) : MRA.closed (MRA.pfRun k m) = MRA.closed m.
Proof.
  revert m. induction k as [|k IH]; intros m; simpl; [done|].
  by rewrite IH, MRA_pfStep_closed.
Qed.

Lemma MRB_pfStep_closed (m : MRB.MultiReader R) : MRB.closed (MRB.pfStep m) = MRB.closed m.
Proof.
  unfold MRB.pfStep. destruct (MRB.pf m) as [p|]; [|done].
  destruct (pfG p) as [curPos idx|block rerr curPos idx| |]; try done.
  - by destruct (MRB.pfHeadStep m (pfErrCh p) curPos) as [[g e] rs].
  - destruct (_ <? _); [|done]. by destruct (MRB.pfSent m (pfErrCh p) block rerr curPos idx).
Qed.

Lemma MRB_pfRun_closed k (m : MRB.MultiReader R) : MRB.closed (MRB.pfRun k m) = MRB.closed m.
Proof.
  revert m. induction k as [|k IH]; intros m; simpl; [done|].
  by rewrite IH, MRB_pfStep_closed.
Qed.

Lemma MRA_Close_closed ahead (m : MRA.MultiReader R) : MRA.closed (MRA.Close ahead m).2 = true.
Proof.
  unfold MRA.Close. destruct (MRA.closed m) eqn:Hc; [done|].
  destruct (closeReaders _) as [err rs]. simpl. apply MRA_pfRun_closed.
Qed.

Lemma MRB_Close_closed ahead (m : MRB.MultiReader R) : MRB.closed (MRB.Close ahead m).2 = true.
Proof.
  unfold MRB.Close. destruct (MRB.closed m) eqn:Hc; [done|].
  destruct (closeReaders _) as [err rs]. simpl. apply MRB_pfRun_closed.
Qed.

(** After [Close], whatever it returned, whatever the state of the reader
    and of its goroutine was, and whatever the sub-readers are: every
    [Read] returns [(0, io.ErrClosedPipe)] and writes nothing, every [Seek]
    returns [(0, io.ErrClosedPipe)], a second [Close] returns [nil], and
    none of them changes the reader.  Both variants. *)
Theorem calls_after_Close ahead (mA : MRA.MultiReader R) (mB : MRB.MultiReader R) :
  (let m' := (MRA.Close ahead mA).2 in
   (forall fuel sched p, MRA.Read fuel sched p m' = MRA.ReadRet 0 (Some io_ErrClosedPipe) p m') /\
   (forall ahead' offset whence,
      MRA.Seek ahead' offset whence m' = (0, Some io_ErrClosedPipe, m')) /\
   (forall ahead', MRA.Close ahead' m' = (None, m'))) /\
  (let m' := (MRB.Close ahead mB).2 in
   (forall fuel sched p, MRB.Read fuel sched p m' = MRB.ReadRet 0 (Some io_ErrClosedPipe) p m') /\
   (forall ahead' offset whence,
      MRB.Seek ahead' offset whence m' = (0, Some io_ErrClosedPipe, m')) /\
   (forall ahead', MRB.Close ahead' m' = (None, m'))).
Proof.
  split.
  - pose proof (MRA_Close_closed ahead mA) as Hc. revert Hc.
    generalize (MRA.Close ahead mA).2. intros m' Hc.
    split_and!; intros; unfold MRA.Read, MRA.Seek, MRA.Close; by rewrite Hc.
  - pose proof (MRB_Close_closed ahead mB) as Hc. revert Hc.
    generalize (MRB.Close ahead mB).2. intros m' Hc.
    split_and!; intros; unfold MRB.Read, MRB.Seek, MRB.Close; by rewrite Hc.
Qed.

End Closed.

(** The test of [Read] and [Seek] after [Close] on the model, with a
    sub-reader whose [Close] fails: the reader is closed all the same. *)
Example Read_after_failed_Close :
  let r := Sub.with_closeErr (errorString "A") (Sub.newMockStringsReader (bytes "abc")) in
  let m := MRA.NewMultiReader 4 2 [r] in
  (MRA.Close 0 m).1 = Some (Errorf_w "r.Close: " (errorString "A")) /\
  Scenario.read_summary (MRA.Read 5 [] (bytes "00") (MRA.Close 0 m).2)
  = Some (0, Some io_ErrClosedPipe, []).
Proof. vm_compute. split; reflexivity. Qed.

End MultiReaderClosed.

(** ** The pipelined Pipe at end-of-stream *)

Module PipelinedPipeFacts.
Import PipelinedPipe.

Lemma stuck_spec {Item W} `{!Producer Item W} `{!Consumer Item W} (st : state Item W) :
  stuck st = true -> forall a pick, step a pick st = None.
Proof.
  unfold stuck. simpl. rewrite !andb_true_iff. intros (H1 & H2 & H3 & H4 & _) a pick.
  destruct a, pick; simpl in *.
  - by destruct (coStep true st).
  - by destruct (coStep false st).
  - by destruct (wkStep true st).
  - by destruct (wkStep false st).
Qed.

(** The test "batching and commit order" under a schedule in which the
    worker keeps up: both coalesced batches are processed, the cookies are
    committed in order, and [Pipe] returns [io.EOF]. *)
Example Pipe_EOF_flushes_tail :
  let w0 := Mock.world [Mock.makeItems 0 4999; Mock.makeItems 4999 5000; Mock.makeItems 9999 1]
                       [1; 2; 3] (Some io_EOF) 0 None None in
  let C := (Coordinator, false) in
  let Wk := (Worker, false) in
  let sched := [C; C; C; C; C; C; C; Wk; Wk; Wk; Wk; C; C; C; C; Wk; Wk; Wk; Wk; C] in
  exists st,
    run sched (init w0) = Some st /\
    returned st = Some io_EOF /\
    wk st = WExited /\
    Mock.processed (snd (world st)) = [Mock.makeItems 0 9999; Mock.makeItems 9999 1] /\
    Mock.committed (fst (world st)) = [1; 2; 3].
Proof.
  intros w0 C Wk sched.
  set (st := State (Mock.MockProducer [Mock.makeItems 0 4999; Mock.makeItems 4999 5000;
                                       Mock.makeItems 9999 1]
                                      [1; 2; 3] (Some io_EOF) 3 0 None [1; 2; 3] [1; 2; 3],
                    Mock.MockConsumer [Mock.makeItems 0 9999; Mock.makeItems 9999 1] None)
                   (CReturned io_EOF) WExited [] true None true : state Z Mock.World).
  exists st. split; [|split_and!; reflexivity].
  apply (bool_decide_eq_true_1 (run sched (init w0) = Some st)). vm_compute. reflexivity.
Qed.

(** C8 (the code departs from the specification): three batches of 9999, 9999
    and 1 items, then end-of-stream, and a consumer whose [Process] fails.
    Under the schedule below the worker is still inside [Process] of the
    first batch when the coordinator has queued the second one and, after
    end-of-stream, tries to flush the tail.  The worker then publishes its
    error and exits without emptying the channel.  The coordinator stays
    in the send of [flush] for ever: the channel is full, nobody receives,
    and the context is only cancelled by the coordinator itself.  [Pipe]
    has not returned and no action is possible, although the worker has
    emitted an error; the tail batch is never processed. *)
Theorem Pipe_EOF_flush_deadlock :
  let perr := errorString "process failed" in
  let bs := [Mock.makeItems 0 9999; Mock.makeItems 9999 9999; Mock.makeItems 19998 1] in
  let w0 := Mock.world bs [1; 2; 3] (Some io_EOF) 0 None (Some perr) in
  let C := (Coordinator, false) in
  let Wk := (Worker, false) in
  let sched := [C; C; C; C; C; Wk; C; C; C; C; C; Wk] in
  exists st,
    run sched (init w0) = Some st /\
    co st = CFlushEOF (Mock.makeItems 19998 1) [3] /\
    wk st = WExited /\
    batchCh st = [Batch (Mock.makeItems 9999 9999) [2]] /\
    errCh st = Some (Errorf_w "push error: " perr) /\
    cancelled st = false /\
    returned st = None /\
    (forall a pick, step a pick st = None) /\
    Mock.processed (snd (world st)) = [Mock.makeItems 0 9999] /\
    Mock.commitAttempts (fst (world st)) = [].
Proof.
  intros perr bs w0 C Wk sched.
  set (st := State (Mock.MockProducer bs [1; 2; 3] (Some io_EOF) 3 0 None [] [],
                    Mock.MockConsumer [Mock.makeItems 0 9999] (Some perr))
                   (CFlushEOF (Mock.makeItems 19998 1) [3]) WExited
                   [Batch (Mock.makeItems 9999 9999) [2]] false
                   (Some (Errorf_w "push error: " perr)) false : state Z Mock.World).
  exists st. split; [|split_and!; try reflexivity].
  - apply (bool_decide_eq_true_1 (run sched (init w0) = Some st)). vm_compute. reflexivity.
  - apply stuck_spec. vm_compute. reflexivity.
Qed.

End PipelinedPipeFacts.

(** ** The scenarios of the tests, run on the model *)

Module Scenarios.
Import Scenario.

(** TestPipe_Success_BatchingAndCommitOrder on the base [Pipe]: one
    [Process] call with the 9999 coalesced items and commits 1, 2; the
    third batch is pending when end-of-stream arrives.  (The test expects a
    second [Process] call and the commit of cookie 3.) *)
Example base_Pipe_batching :
  summary (BasePipe.Pipe 10
             (Mock.world [Mock.makeItems 0 4999; Mock.makeItems 4999 5000; Mock.makeItems 9999 1]
                         [1; 2; 3] (Some io_EOF) 0 None None))
  = (Some (Errorf_w "read error: " io_EOF), [9999], [1; 2], [1; 2]).
Proof. vm_compute. reflexivity. Qed.

(** TestPipe_ReadError *)
Example base_Pipe_read_error :
  summary (BasePipe.Pipe 10 (Mock.world [] [] (Some io_ErrUnexpectedEOF) 0 None None))
  = (Some (Errorf_w "read error: " io_ErrUnexpectedEOF), [], [], []).
Proof. vm_compute. reflexivity. Qed.

(** TestPipe_ProcessError *)
Example base_Pipe_process_error :
  summary (BasePipe.Pipe 10
             (Mock.world [Mock.makeItems 0 4999; Mock.makeItems 4999 5001] [1; 2]
                         (Some io_EOF) 0 None (Some (errorString "process failed"))))
  = (Some (Errorf_w "push error: " (errorString "process failed")), [4999], [], []).
Proof. vm_compute. reflexivity. Qed.

(** TestPipe_CommitError *)
Example base_Pipe_commit_error :
  summary (BasePipe.Pipe 10
             (Mock.world [Mock.makeItems 0 4999; Mock.makeItems 4999 5001] [1; 2]
                         (Some io_EOF) 1 (Some (errorString "commit failed")) None))
  = (Some (Errorf_w "error commiting cookie 1: " (errorString "commit failed")),
     [4999], [1], []).
Proof. vm_compute. reflexivity. Qed.

(** "Seek from the end": [Seek(-2, End)] returns 4 and [Read(2)] yields "ef". *)
Example seek_from_end :
  let '(pos, err, m) := MRA.Seek 0 (-2) io_SeekEnd abc_def in
  (pos, err, read_summary (MRA.Read 10 [] (bytes "00") m))
  = (4, None, Some (2, None, bytes "ef")).
Proof. vm_compute. reflexivity. Qed.

(** "Seek to EOF is allowed and Read returns EOF". *)
Example seek_to_end_then_read :
  let '(pos, err, m) := MRA.Seek 0 0 io_SeekEnd abc_def in
  (pos, err, read_summary (MRA.Read 10 [] (bytes "0") m))
  = (6, None, Some (0, Some io_EOF, [])).
Proof. vm_compute. reflexivity. Qed.

(** "Erroneous Seeks": unknown whence, negative target, target past the end. *)
Example seek_errors :
  (MRA.Seek 0 0 99 abc_def).1.2 = Some (errorString "invalid whence: 99") /\
  (MRA.Seek 0 (-1) io_SeekStart abc_def).1.2
  = Some (errorString "seek position (-1) should be >= 0 and <= totalSize (6)") /\
  (MRA.Seek 0 7 io_SeekStart abc_def).1.2
  = Some (errorString "seek position (7) should be >= 0 and <= totalSize (6)").
Proof. vm_compute. repeat split; reflexivity. Qed.

(** "EOF on reaching the end of the whole stream": a [Read] of 10 bytes
    over "z" gives one byte and end-of-stream. *)
Example read_past_end :
  read_summary (MRA.Read 10 [] (bytes "0000000000")
                  (MRA.NewMultiReader 1048576 1 [Sub.newMockStringsReader (bytes "z")]))
  = Some (1, Some io_EOF, bytes "z").
Proof. vm_compute. reflexivity. Qed.

(** "Read across the boundary": readers "hello" and "-world-", skip 3
    bytes, then 5 bytes are "lo-wo". *)
Example read_across_boundary :
  match MRA.Read 10 [] (bytes "000")
          (MRA.NewMultiReader 1048576 4 [Sub.newMockStringsReader (bytes "hello");
                                         Sub.newMockStringsReader (bytes "-world-")]) with
  | MRA.ReadRet 3 None _ m => read_summary (MRA.Read 20 [] (bytes "00000") m)
  | _ => None
  end = Some (5, None, bytes "lo-wo").
Proof. vm_compute. reflexivity. Qed.

End Scenarios.
